(** * csv-watcher: a shallow embedding of [csv-watcher.py] and its properties

    The development follows the source file top-down: text helpers, the
    [pathlib] operations the program calls, the name filters, the CSV reader
    and JSON encoder of the Python library as far as the program uses them,
    the [Converter] (queue, stability detection, output naming, conversion,
    atomic publication), the worker loop, the [Debouncer], the handler
    of the observer, one pass of the polling watcher and the scan of the
    files present at the start.

    Text is a list of characters.  A character is a code point below 256
    (the Latin-1 range of Unicode); the predicates [isspace] and [lower]
    are Python's restricted to that range. *)

From Stdlib Require Import Ascii String ZArith Lia.
From stdpp Require Import base tactics option list gmap strings pretty.

Local Open Scope Z_scope.

(** ** Text *)

Abbreviation str := (list ascii).

(** A literal of the program text. *)
Definition txt (x : string) : str := list_ascii_of_string x.

Definition LF : ascii := ascii_of_nat 10.
Definition CR : ascii := ascii_of_nat 13.
Definition DQ : ascii := ascii_of_nat 34.
Definition BSLASH : ascii := ascii_of_nat 92.

(** A literal in which the apostrophe stands for the double quote, to write
    JSON documents legibly. *)
Definition jtxt (x : string) : str :=
  (fun c => if Ascii.eqb c "'"%char then DQ else c) <$> txt x.

Definition ch_eqb (a b : ascii) : bool := Ascii.eqb a b.

(** [str.startswith] and [str.endswith]. *)
Definition startswith (s p : str) : bool := bool_decide (p `prefix_of` s).
Definition endswith (s p : str) : bool := bool_decide (p `suffix_of` s).

(** [str.rfind] of a single character: the highest index, or -1. *)
Fixpoint rfind_from (c : ascii) (s : str) (i acc : Z) : Z :=
  match s with
  | [] => acc
  | x :: s' => rfind_from c s' (i + 1) (if ch_eqb x c then i else acc)
  end.

Definition rfind (s : str) (c : ascii) : Z := rfind_from c s 0 (-1).

(** [str.lower] on the Latin-1 range: A-Z and the accented capitals
    0xC0-0xDE (without the multiplication sign 0xD7) move up by 32. *)
Definition lower_char (c : ascii) : ascii :=
  let n := nat_of_ascii c in
  if ((65 <=? n) && (n <=? 90))%nat
     || ((192 <=? n) && (n <=? 222) && negb (n =? 215))%nat
  then ascii_of_nat (n + 32) else c.

Definition lower (s : str) : str := lower_char <$> s.

(** [str.isspace] for one character of the Latin-1 range. *)
Definition isspace (c : ascii) : bool :=
  let n := nat_of_ascii c in
  ((9 <=? n) && (n <=? 13) || (28 <=? n) && (n <=? 32)
   || (n =? 133) || (n =? 160))%nat.

Fixpoint lstrip (s : str) : str :=
  match s with
  | c :: s' => if isspace c then lstrip s' else s
  | [] => []
  end.

(** [str.strip()] without argument. *)
Definition strip (s : str) : str := reverse (lstrip (reverse (lstrip s))).

(** Python's [f"{i}"] for a natural number. *)
Definition str_of_nat (n : nat) : str := txt (pretty n).

(** ** pathlib

    A path is the list of its components, outermost directory first;
    [Path.name] is the last one, empty for a path without components. *)

Abbreviation Path := (list str).

Definition name (p : Path) : str := List.last p [].

(** [Path.suffix]: from the last dot of the name, unless that dot is the
    first or the last character. *)
Definition suffix_of_name (n : str) : str :=
  let i := rfind n "."%char in
  if (0 <? i) && (i <? Z.of_nat (length n) - 1)
  then drop (Z.to_nat i) n else [].

Definition suffix (p : Path) : str := suffix_of_name (name p).

(** [Path.stem]. *)
Definition stem_of_name (n : str) : str :=
  let i := rfind n "."%char in
  if (0 <? i) && (i <? Z.of_nat (length n) - 1)
  then take (Z.to_nat i) n else n.

Definition stem (p : Path) : str := stem_of_name (name p).

(** [Path.parent]. *)
Definition parent (p : Path) : Path := removelast p.

(** [Path.with_name]; [None] is the ValueError for a path without a name. *)
Definition with_name (p : Path) (n : str) : option Path :=
  if bool_decide (name p = []) then None else Some (parent p ++ [n]).

(** [Path.with_suffix]. *)
Definition with_suffix (p : Path) (suf : str) : option Path :=
  let n := name p in
  if bool_decide (n = []) then None
  else
    let old := suffix p in
    let n' := if bool_decide (old = []) then n ++ suf
              else take (length n - length old)%nat n ++ suf in
    Some (parent p ++ [n']).

(** [dir / name] for a single relative component. *)
Definition joinpath (d : Path) (n : str) : Path := d ++ [n].

(** ** Name filters (source lines 13-22) *)

Definition TEMP_SUFFIXES : list str :=
  [txt ".tmp"; txt ".partial"; txt ".part"; txt ".crdownload"].
Definition TEMP_PREFIXES : list str := [txt ".~"; txt "~$"; txt "."].
Definition CSV_EXTENSIONS : list str := [txt ".csv"].

Definition is_probably_temp (path : Path) : bool :=
  let n := name path in
  if existsb (startswith n) TEMP_PREFIXES then true
  else if existsb (endswith n) TEMP_SUFFIXES then true
  else false.

Definition is_csv (path : Path) : bool :=
  bool_decide (lower (suffix path) ∈ CSV_EXTENSIONS).

(** ** The csv module, as the program uses it

    The program builds its readers with [delimiter] and [quotechar] only, so
    the remaining attributes are those of the [excel] dialect: doublequote
    on, no escape character, no skipping of initial spaces, not strict,
    minimal quoting.  The state machine is the one of CPython's [_csv]
    reader for that dialect. *)

Inductive exn :=
  | FileNotFoundError | OSError | ValueError | TypeError | csv_Error.

Global Instance exn_eq_dec : EqDecision exn.
Proof. solve_decision. Defined.

Record Dialect := { dl_delimiter : ascii; dl_quotechar : ascii }.

(** The dialect check at reader construction: each of the two keyword
    arguments must be a 1-character string, else TypeError. *)
Definition make_dialect (delimiter quotechar : str) : exn + Dialect :=
  match delimiter, quotechar with
  | [d], [q] => inr {| dl_delimiter := d; dl_quotechar := q |}
  | _, _ => inl TypeError
  end.

Inductive ParserState :=
  | START_RECORD | START_FIELD | IN_FIELD | IN_QUOTED_FIELD
  | QUOTE_IN_QUOTED_FIELD | EAT_CRNL.

Global Instance ParserState_eq_dec : EqDecision ParserState.
Proof. solve_decision. Defined.

(** The reader object: the fields of the record under construction and the
    characters of the current field, both most recent first. *)
Record Reader := {
  rd_state : ParserState;
  rd_fields : list str;
  rd_field : str;
  rd_field_len : N
}.

Definition field_limit : N := 131072.

Definition parse_reset : Reader :=
  {| rd_state := START_RECORD; rd_fields := []; rd_field := [];
     rd_field_len := 0 |}.

Definition set_state (self : Reader) (st : ParserState) : Reader :=
  {| rd_state := st; rd_fields := rd_fields self; rd_field := rd_field self;
     rd_field_len := rd_field_len self |}.

Definition parse_save_field (self : Reader) : Reader :=
  {| rd_state := rd_state self;
     rd_fields := reverse (rd_field self) :: rd_fields self;
     rd_field := []; rd_field_len := 0 |}.

Definition parse_add_char (self : Reader) (c : ascii) : exn + Reader :=
  if (field_limit <=? rd_field_len self)%N then inl csv_Error
  else inr {| rd_state := rd_state self; rd_fields := rd_fields self;
              rd_field := c :: rd_field self;
              rd_field_len := N.succ (rd_field_len self) |}.

Definition is_nl (c : ascii) : bool := ch_eqb c LF || ch_eqb c CR.

(** One step of the machine; [None] is the end-of-line marker the reader
    feeds after the characters of each line. *)
Definition parse_process_char (d : Dialect) (self : Reader)
    (c : option ascii) : exn + Reader :=
  let after_field (c : option ascii) :=
    set_state (parse_save_field self)
      (match c with None => START_RECORD | Some _ => EAT_CRNL end) in
  let start_field (c : option ascii) :=
    match c with
    | None => inr (after_field c)
    | Some x =>
        if is_nl x then inr (after_field c)
        else if ch_eqb x (dl_quotechar d)
        then inr (set_state self IN_QUOTED_FIELD)
        else if ch_eqb x (dl_delimiter d)
        then inr (set_state (parse_save_field self) START_FIELD)
        else parse_add_char (set_state self IN_FIELD) x
    end in
  match rd_state self with
  | START_RECORD =>
      match c with
      | None => inr self
      | Some x => if is_nl x then inr (set_state self EAT_CRNL)
                  else start_field c
      end
  | START_FIELD => start_field c
  | IN_FIELD =>
      match c with
      | None => inr (after_field c)
      | Some x =>
          if is_nl x then inr (after_field c)
          else if ch_eqb x (dl_delimiter d)
          then inr (set_state (parse_save_field self) START_FIELD)
          else parse_add_char self x
      end
  | IN_QUOTED_FIELD =>
      match c with
      | None => inr self
      | Some x =>
          if ch_eqb x (dl_quotechar d)
          then inr (set_state self QUOTE_IN_QUOTED_FIELD)
          else parse_add_char self x
      end
  | QUOTE_IN_QUOTED_FIELD =>
      match c with
      | None => inr (after_field c)
      | Some x =>
          if ch_eqb x (dl_quotechar d)
          then parse_add_char (set_state self IN_QUOTED_FIELD) x
          else if ch_eqb x (dl_delimiter d)
          then inr (set_state (parse_save_field self) START_FIELD)
          else if is_nl x then inr (after_field c)
          else parse_add_char (set_state self IN_FIELD) x
      end
  | EAT_CRNL =>
      match c with
      | None => inr (set_state self START_RECORD)
      | Some x => if is_nl x then inr self else inl csv_Error
      end
  end.

(** The characters of one line, then the end-of-line marker. *)
Fixpoint parse_line (d : Dialect) (self : Reader) (line : str)
    : exn + Reader :=
  match line with
  | [] => parse_process_char d self None
  | c :: line' =>
      match parse_process_char d self (Some c) with
      | inl e => inl e
      | inr self' => parse_line d self' line'
      end
  end.

(** Iterating a text file opened with [newline=""]: a line ends after LF,
    after CR LF, or after a CR that no LF follows; nothing is translated. *)
Fixpoint readlines_go (s : str) (cur : str) : list str :=
  match s with
  | [] => match cur with [] => [] | _ => [reverse cur] end
  | c :: s' =>
      if ch_eqb c LF then reverse (c :: cur) :: readlines_go s' []
      else if ch_eqb c CR then
        match s' with
        | c2 :: s'' =>
            if ch_eqb c2 LF
            then reverse (c2 :: c :: cur) :: readlines_go s'' []
            else reverse (c :: cur) :: readlines_go s' []
        | [] => [reverse (c :: cur)]
        end
      else readlines_go s' (c :: cur)
  end.

Definition readlines (s : str) : list str := readlines_go s [].

(** What an iterator yields before it stops: the items in order, and the
    exception that ended the iteration if one did. *)
Definition stream (A : Type) : Type := (list A * option exn)%type.

Definition stream_map {A B} (f : A -> B) (s : stream A) : stream B :=
  (f <$> s.1, s.2).

(** Every row [next(reader)] returns on [lines], [self] being the reader
    state when the next line is fetched. *)
Fixpoint reader_rows (d : Dialect) (self : Reader) (lines : list str)
    : stream (list str) :=
  match lines with
  | [] =>
      if negb (rd_field_len self =? 0)%N
         || bool_decide (rd_state self = IN_QUOTED_FIELD)
      then ([reverse (rd_fields (parse_save_field self))], None)
      else ([], None)
  | line :: rest =>
      match parse_line d self line with
      | inl e => ([], Some e)
      | inr self' =>
          if bool_decide (rd_state self' = START_RECORD)
          then let r := reader_rows d parse_reset rest in
               (reverse (rd_fields self') :: r.1, r.2)
          else reader_rows d self' rest
      end
  end.

(** [csv.reader(f, delimiter=..., quotechar=...)] iterated to its end. *)
Definition csv_reader (d : Dialect) (text : str) : stream (list str) :=
  reader_rows d parse_reset (readlines text).

(** ** Rows as dictionaries

    A Python [dict] keeps its keys in insertion order; assigning to a key
    already present replaces the value where the key stands.  The keys of a
    row are strings, or [None] (the [restkey] of [csv.DictReader]); the
    values are strings, [None] (the [restval]) or the list of surplus
    cells. *)

Inductive jval :=
  | JStr (s : str)
  | JNone
  | JList (l : list str).

Abbreviation pydict := (list (option str * jval)).

Fixpoint dict_set (d : pydict) (k : option str) (v : jval) : pydict :=
  match d with
  | [] => [(k, v)]
  | (k', v') :: d' =>
      if bool_decide (k' = k) then (k', v) :: d'
      else (k', v') :: dict_set d' k v
  end.

(** A dict comprehension [{k: v for ... in items}]. *)
Definition dict_of_items (items : pydict) : pydict :=
  foldl (fun d kv => dict_set d kv.1 kv.2) [] items.

(** [csv.DictReader.__next__] on one non-empty row. *)
Definition dict_row (fieldnames row : list str) : pydict :=
  let d := dict_of_items
             ((fun kv => (Some kv.1, JStr kv.2)) <$> zip fieldnames row) in
  let lf := length fieldnames in
  let lr := length row in
  if (lf <? lr)%nat then dict_set d None (JList (drop lf row))
  else if (lr <? lf)%nat
  then foldl (fun d key => dict_set d (Some key) JNone) d (drop lr fieldnames)
  else d.

(** [DictReader.fieldnames]: the first row the reader returns, [None] when
    it returns none; an error of the reader is raised. *)
Definition fieldnames_of (rows : stream (list str))
    : exn + option (list str) :=
  match rows with
  | (r :: _, _) => inr (Some r)
  | ([], None) => inr None
  | ([], Some e) => inl e
  end.

(** The header test of line 107: [not fieldnames or any(...)]. *)
Definition header_rejected (fieldnames : option (list str)) : bool :=
  match fieldnames with
  | None => true
  | Some [] => true
  | Some hs => existsb (fun h => bool_decide (strip h = [])) hs
  end.

(** The rows of line 108: what the [DictReader] yields after its header,
    blank rows skipped, each copied by the comprehension. *)
Definition header_rows (rows : stream (list str)) : stream pydict :=
  match rows.1 with
  | [] => ([], rows.2)
  | hs :: rest =>
      ((fun r => dict_of_items (dict_row hs r))
         <$> filter (fun r => r <> []) rest, rows.2)
  end.

(** The rows of line 112: every row of a fresh reader, keyed by position. *)
Definition positional_row (row : list str) : pydict :=
  dict_of_items
    (imap (fun idx val =>
             (Some (txt "col" ++ str_of_nat (idx + 1)), JStr val)) row).

Definition positional_rows (rows : stream (list str)) : stream pydict :=
  stream_map positional_row rows.

(** ** The json encoder, as [json.dumps(row, ensure_ascii=False, indent=...)]
    runs it on such a dictionary *)

Definition hex_digit (n : nat) : ascii :=
  ascii_of_nat (if (n <? 10)%nat then 48 + n else 87 + n).

(** Backslash, the double quote and the control characters are escaped;
    every other character is copied. *)
Definition escape_char (c : ascii) : str :=
  let n := nat_of_ascii c in
  if ch_eqb c DQ then [BSLASH; DQ]
  else if ch_eqb c BSLASH then [BSLASH; BSLASH]
  else if (n =? 8)%nat then BSLASH :: txt "b"
  else if (n =? 12)%nat then BSLASH :: txt "f"
  else if (n =? 10)%nat then BSLASH :: txt "n"
  else if (n =? 13)%nat then BSLASH :: txt "r"
  else if (n =? 9)%nat then BSLASH :: txt "t"
  else if (n <? 32)%nat
  then BSLASH :: txt "u00" ++ [hex_digit (n / 16); hex_digit (n mod 16)]
  else [c].

Definition encode_basestring (s : str) : str :=
  DQ :: (s ≫= escape_char) ++ [DQ].

(** [sep.join(l)]. *)
Fixpoint join (sep : str) (l : list str) : str :=
  match l with
  | [] => []
  | [x] => x
  | x :: l' => x ++ sep ++ join sep l'
  end.

(** With an indent, a line break and [level] copies of the indent; a
    negative indent is no space at all. *)
Definition newline_indent (indent : option Z) (level : nat) : str :=
  match indent with
  | None => []
  | Some i => LF :: mjoin (replicate level (replicate (Z.to_nat i) " "%char))
  end.

Definition item_separator (indent : option Z) (level : nat) : str :=
  match indent with
  | None => txt ", "
  | Some _ => txt "," ++ newline_indent indent level
  end.

Definition key_separator : str := txt ": ".

Definition encode_list (indent : option Z) (level : nat) (l : list str)
    : str :=
  match l with
  | [] => txt "[]"
  | _ =>
      txt "[" ++ newline_indent indent (S level)
      ++ join (item_separator indent (S level)) (encode_basestring <$> l)
      ++ newline_indent indent level ++ txt "]"
  end.

Definition encode_key (k : option str) : str :=
  match k with
  | Some s => encode_basestring s
  | None => encode_basestring (txt "null")
  end.

Definition encode_value (indent : option Z) (level : nat) (v : jval) : str :=
  match v with
  | JStr s => encode_basestring s
  | JNone => txt "null"
  | JList l => encode_list indent level l
  end.

Definition encode_dict (indent : option Z) (level : nat) (d : pydict) : str :=
  match d with
  | [] => txt "{}"
  | _ =>
      txt "{" ++ newline_indent indent (S level)
      ++ join (item_separator indent (S level))
           ((fun kv => encode_key kv.1 ++ key_separator
                       ++ encode_value indent (S level) kv.2) <$> d)
      ++ newline_indent indent level ++ txt "}"
  end.

Definition json_dumps (indent : option Z) (row : pydict) : str :=
  encode_dict indent 0 row.

(** ** Configuration (source lines 23-25); the two durations are in
    milliseconds *)

Record Config := {
  watch_dir : Path;
  out_dir : Path;
  recursive : bool;
  process_existing : bool;
  json_lines : bool;
  overwrite : bool;
  indent : option Z;
  delimiter : option str;
  quotechar : option str;
  encoding : str;
  debounce_sec : Z;
  poll_interval : Z
}.

(** Truth value of an optional string: [None] and the empty string are
    false. *)
Definition truthy (o : option str) : bool :=
  match o with
  | Some (_ :: _) => true
  | _ => false
  end.

(** ** The world the program runs in

    The file system maps the path of each regular file to its text (the
    size of a file is the length of its text).  [seen] records the state of
    the file system after every change, most recent first: what an observer
    may have seen.  [ops] counts the system calls and sleeps made so far;
    it indexes the failures injected into system calls and the changes
    other processes make during sleeps. *)

Inductive LogEntry :=
  | InfoConverting (rel : Path)
  | InfoWrote (out_path : Path)
  | WarningNeverStabilized (path : Path)
  | ErrorFailedToConvert (path : Path) (e : exn).

Record World := {
  files : gmap Path str;
  now : Z;
  ops : nat;
  log : list LogEntry;
  seen : list (gmap Path str)
}.

(** The outcome of running a piece of the program: a value, an exception,
    or a loop that has not ended within the fuel of its model. *)
Inductive outcome (A : Type) :=
  | Ok (a : A)
  | Raise (e : exn)
  | Loops.
Arguments Ok {A} a.
Arguments Raise {A} e.
Arguments Loops {A}.

Definition M (A : Type) : Type := World -> outcome A * World.

Definition ret {A} (a : A) : M A := fun w => (Ok a, w).

Definition raise {A} (e : exn) : M A := fun w => (Raise e, w).

Definition bind {A B} (m : M A) (k : A -> M B) : M B := fun w =>
  match m w with
  | (Ok a, w') => k a w'
  | (Raise e, w') => (Raise e, w')
  | (Loops, w') => (Loops, w')
  end.

Declare Scope io_scope.
Delimit Scope io_scope with io.
Notation "x <- m ;; k" := (bind m (fun x => k))
  (at level 100, m at next level, right associativity) : io_scope.
Notation "m ;; k" := (bind m (fun _ => k))
  (at level 100, right associativity) : io_scope.
Local Open Scope io_scope.

(** [try: m except Exception: h]. *)
Definition try_except {A} (m : M A) (h : exn -> M A) : M A := fun w =>
  match m w with
  | (Raise e, w') => h e w'
  | r => r
  end.

(** [try: m except FileNotFoundError: h]. *)
Definition try_except_FileNotFoundError {A} (m : M A) (h : M A) : M A :=
  fun w =>
    match m w with
    | (Raise FileNotFoundError, w') => h w'
    | r => r
    end.

Definition lift {A} (r : exn + A) : M A :=
  match r with
  | inl e => raise e
  | inr a => ret a
  end.

Definition lift_option {A} (e : exn) (o : option A) : M A :=
  match o with
  | None => raise e
  | Some a => ret a
  end.

Definition logging (entry : LogEntry) : M unit := fun w =>
  (Ok tt, {| files := files w; now := now w; ops := ops w;
             log := entry :: log w; seen := seen w |}).

Definition get_files : M (gmap Path str) := fun w => (Ok (files w), w).

(** A change of the file system by the program. *)
Definition set_files (fs : gmap Path str) : M unit := fun w =>
  (Ok tt, {| files := fs; now := now w; ops := ops w; log := log w;
             seen := fs :: seen w |}).

Section Program.

(** [fault n]: the system call numbered [n] fails.  [env n fs]: the file
    system other processes leave behind during the sleep numbered [n].
    [sniff sample]: the delimiter and quote character [csv.Sniffer] infers,
    [None] when it raises. *)
Variable fault : nat -> bool.
Variable env : nat -> gmap Path str -> gmap Path str.
Variable sniff : str -> option (ascii * ascii).

Definition syscall : M unit := fun w =>
  let w' := {| files := files w; now := now w; ops := S (ops w);
               log := log w; seen := seen w |} in
  if fault (ops w) then (Raise OSError, w') else (Ok tt, w').

(** [time.sleep(d)]. *)
Definition sleep (d : Z) : M unit := fun w =>
  let fs := env (ops w) (files w) in
  (Ok tt, {| files := fs; now := now w + d; ops := S (ops w);
             log := log w; seen := fs :: seen w |}).

(** [path.exists()]. *)
Definition exists_ (fs : gmap Path str) (p : Path) : bool :=
  bool_decide (is_Some (fs !! p)).

(** [path.stat().st_size]. *)
Definition stat_st_size (p : Path) : M nat :=
  syscall ;;
  fs <- get_files ;;
  lift_option FileNotFoundError (length <$> fs !! p).

(** [open(p, "r")] and the text behind it. *)
Definition open_r (p : Path) : M str :=
  syscall ;;
  fs <- get_files ;;
  lift_option FileNotFoundError (fs !! p).

(** [open(p, "w")]: the file is created or emptied. *)
Definition open_w (p : Path) : M unit :=
  syscall ;;
  fs <- get_files ;;
  set_files (<[p := []]> fs).

(** [out.write(s)] on the file opened at [p]. *)
Definition write (p : Path) (s : str) : M unit :=
  syscall ;;
  fs <- get_files ;;
  set_files (<[p := default [] (fs !! p) ++ s]> fs).

Definition close : M unit := syscall.

(** [with open(p, "w") as out: body]: the file is closed however the body
    ends; a failure of the closing replaces the exception of the body. *)
Definition with_open_w (p : Path) (body : M unit) : M unit :=
  open_w p ;;
  fun w =>
    match body w with
    | (Ok _, w') => close w'
    | (Raise e, w') =>
        match close w' with
        | (Ok _, w'') => (Raise e, w'')
        | r => r
        end
    | (Loops, w') => (Loops, w')
    end.

(** [os.replace(src, dst)]. *)
Definition os_replace (src dst : Path) : M unit :=
  syscall ;;
  fs <- get_files ;;
  c <- lift_option FileNotFoundError (fs !! src) ;;
  set_files (<[dst := c]> (delete src fs)).

(** [p.mkdir(parents=True, exist_ok=True)]; directories are not part of
    the file system of the model. *)
Definition mkdir (p : Path) : M unit := syscall.

(** ** Converter (source lines 37-127) *)

(** Lines 40-42; the queue holds paths and the [None] that ends the
    worker. *)
Definition enqueue (fs : gmap Path str) (work_q : list (option Path))
    (path : Path) : list (option Path) :=
  if negb (is_csv path) || is_probably_temp path || negb (exists_ fs path)
  then work_q
  else work_q ++ [Some path].

(** [try: size = path.stat().st_size] / [except FileNotFoundError]: the
    size, or [None] where the source returns False. *)
Definition stat_or_missing (path : Path) : M (option nat) :=
  try_except_FileNotFoundError
    (size <- stat_st_size path ;; ret (Some size))
    (ret None).

(** Lines 60-68, the loop of [_wait_stable] with [n] rounds left. *)
Fixpoint wait_loop (path : Path) (window : Z) (checks : nat) (n : nat)
    (last stable : nat) : M bool :=
  match n with
  | O => ret false
  | S n' =>
      sleep window ;;
      r <- stat_or_missing path ;;
      match r with
      | None => ret false
      | Some size =>
          if (size =? last)%nat then
            if (checks <=? stable + 1)%nat then ret true
            else wait_loop path window checks n' last (stable + 1)
          else wait_loop path window checks n' size 0
      end
  end.

(** Lines 56-68. *)
Definition _wait_stable (path : Path) (window : Z) (checks : nat) : M bool :=
  r <- stat_or_missing path ;;
  match r with
  | None => ret false
  | Some last => wait_loop path window checks (checks * 2) last 0
  end.

(** Lines 71-75, the loop of [_unique_out_path] from counter [i]. *)
Fixpoint unique_loop (fs : gmap Path str) (base : Path) (i : nat)
    (fuel : nat) : outcome Path :=
  match fuel with
  | O => Loops
  | S fuel' =>
      match with_name base
              (stem base ++ txt "_" ++ str_of_nat i ++ suffix base) with
      | None => Raise ValueError
      | Some candidate =>
          if exists_ fs candidate then unique_loop fs base (S i) fuel'
          else Ok candidate
      end
  end.

(** Lines 69-75. *)
Definition _unique_out_path (cfg : Config) (base : Path) : M Path :=
  fun w =>
    if overwrite cfg || negb (exists_ (files w) base) then (Ok base, w)
    else (unique_loop (files w) base 1 (S (size (files w))), w).

(** The end of a [for] loop over an iterator: the exception that ended the
    iteration, if any, comes out of the loop. *)
Definition stream_end (e : option exn) : M unit :=
  match e with
  | Some e => raise e
  | None => ret tt
  end.

(** Line 118. *)
Fixpoint lines_loop (tmp_path : Path) (rows : list pydict) : M unit :=
  match rows with
  | [] => ret tt
  | row :: rows' =>
      write tmp_path (json_dumps None row) ;;
      write tmp_path [LF] ;;
      lines_loop tmp_path rows'
  end.

(** Lines 122-126; [indent] is [self.cfg.indent]. *)
Fixpoint array_loop (indent : option Z) (tmp_path : Path) (first : bool)
    (rows : list pydict) : M unit :=
  match rows with
  | [] => ret tt
  | row :: rows' =>
      (if negb first then write tmp_path (txt ",") else ret tt) ;;
      write tmp_path (json_dumps indent row) ;;
      array_loop indent tmp_path false rows'
  end.

(** Lines 115-127. *)
Definition _write_json (cfg : Config) (rows : stream pydict)
    (tmp_path : Path) : M unit :=
  if json_lines cfg then
    with_open_w tmp_path
      (lines_loop tmp_path rows.1 ;; stream_end rows.2)
  else
    with_open_w tmp_path
      (write tmp_path (txt "[") ;;
       array_loop (indent cfg) tmp_path true rows.1 ;;
       stream_end rows.2 ;;
       write tmp_path (txt "]")).

(** Lines 85-104: the delimiter and quote character handed to the
    readers. *)
Definition reader_kwargs (cfg : Config) (sample : str) : str * str :=
  let dialect := if negb (truthy (delimiter cfg)) then sniff sample
                 else None in
  let d := if truthy (delimiter cfg) then default [] (delimiter cfg)
           else match dialect with
                | Some dq => [dq.1]
                | None => txt ","
                end in
  let q := if truthy (quotechar cfg) then default [] (quotechar cfg)
           else match dialect with
                | Some dq => [dq.2]
                | None => [DQ]
                end in
  (d, q).

(** Line 77, the path shown in the log. *)
Definition rel_of (cfg : Config) (csv_path : Path) : Path :=
  if bool_decide (watch_dir cfg `prefix_of` csv_path)
  then drop (length (watch_dir cfg)) csv_path
  else [name csv_path].

(** Lines 79-83: the output path before it is made unique. *)
Definition out_base (cfg : Config) (csv_path : Path) : M Path :=
  out <- lift_option ValueError
           (with_suffix csv_path
              (if json_lines cfg then txt ".jsonl" else txt ".json")) ;;
  ret (joinpath (out_dir cfg) (name out)).

Definition tmp_of (out_path : Path) : M Path :=
  lift_option ValueError
    (with_suffix out_path (suffix out_path ++ txt ".tmp")).

(** Lines 105-109, header mode. *)
Definition header_attempt (cfg : Config) (text : str) (kw : str * str)
    (tmp_path : Path) : M unit :=
  d <- lift (make_dialect kw.1 kw.2) ;;
  let dict_reader := csv_reader d text in
  fieldnames <- lift (fieldnames_of dict_reader) ;;
  if header_rejected fieldnames then raise ValueError
  else _write_json cfg (header_rows dict_reader) tmp_path.

(** Lines 111-113, positional mode on the file read again from its
    start. *)
Definition positional_attempt (cfg : Config) (text : str) (kw : str * str)
    (tmp_path : Path) : M unit :=
  d <- lift (make_dialect kw.1 kw.2) ;;
  let rdr := csv_reader d text in
  _write_json cfg (positional_rows rdr) tmp_path.

(** Lines 76-114. *)
Definition _convert_file (cfg : Config) (csv_path : Path) : M unit :=
  logging (InfoConverting (rel_of cfg csv_path)) ;;
  base <- out_base cfg csv_path ;;
  out_path <- _unique_out_path cfg base ;;
  mkdir (parent out_path) ;;
  tmp_path <- tmp_of out_path ;;
  f <- open_r csv_path ;;
  (let sample := take 4096 f in
   let kw := reader_kwargs cfg sample in
   try_except
     (header_attempt cfg f kw tmp_path)
     (fun _ => positional_attempt cfg f kw tmp_path)) ;;
  os_replace tmp_path out_path ;;
  logging (InfoWrote out_path).

(** The body of the worker loop for one dequeued path, lines 50-55. *)
Definition process_job (cfg : Config) (path : Path) : M unit :=
  try_except
    (stable <- _wait_stable path 600 3 ;;
     if negb stable then logging (WarningNeverStabilized path)
     else _convert_file cfg path)
    (fun e => logging (ErrorFailedToConvert path e)).

(** Lines 45-55 on the items the queue delivers, in order; the worker ends
    at the [None] that [stop] enqueues, and waits when the queue is
    empty. *)
Fixpoint _worker_main (cfg : Config) (work_q : list (option Path))
    : M unit :=
  match work_q with
  | [] => ret tt
  | None :: _ => ret tt
  | Some path :: work_q' =>
      process_job cfg path ;;
      _worker_main cfg work_q'
  end.

End Program.

(** * Debouncer (source lines 26-36)

    Every [threading.Timer] the debouncer starts is a thread of its own;
    the model keeps them all, in the order of their creation, and names a
    timer by its index.  A timer thread waits for its interval or its
    cancellation, tests its [finished] event, and, if it is not set, calls
    [_run]; [trigger] and the locked part of [_run] exclude each other.
    Time is counted in milliseconds. *)

Inductive Phase := Waiting | Running | Exited.

Record Timer := {
  tm_path : Path;
  tm_deadline : Z;
  tm_finished : bool;
  tm_phase : Phase
}.

Record Debouncer := {
  delay : Z;
  _timers : gmap Path nat;
  threads : list Timer;
  clock : Z;
  work_q : list (option Path);
  calls : list Path
}.

Definition with_threads (d : Debouncer) (ts : list Timer) : Debouncer :=
  {| delay := delay d; _timers := _timers d; threads := ts;
     clock := clock d; work_q := work_q d; calls := calls d |}.

Definition with_timers (d : Debouncer) (m : gmap Path nat) : Debouncer :=
  {| delay := delay d; _timers := m; threads := threads d;
     clock := clock d; work_q := work_q d; calls := calls d |}.

(** [Debouncer(delay_sec, conv.enqueue)]. *)
Definition new_debouncer (delay_sec : Z) : Debouncer :=
  {| delay := delay_sec; _timers := ∅; threads := []; clock := 0;
     work_q := []; calls := [] |}.

(** [t.cancel()]: the event [finished] of timer [t] is set. *)
Definition cancel (t : nat) (d : Debouncer) : Debouncer :=
  with_threads d
    (alter (fun tm => {| tm_path := tm_path tm;
                         tm_deadline := tm_deadline tm;
                         tm_finished := true; tm_phase := tm_phase tm |})
           t (threads d)).

(** Lines 29-33. *)
Definition trigger (path : Path) (d : Debouncer) : Debouncer :=
  let d1 := match _timers d !! path with
            | Some t => cancel t d
            | None => d
            end in
  let timer := {| tm_path := path; tm_deadline := clock d1 + delay d1;
                  tm_finished := false; tm_phase := Waiting |} in
  with_threads
    (with_timers d1 (<[path := length (threads d1)]> (_timers d1)))
    (threads d1 ++ [timer]).

(** Line 35: [self._timers.pop(path, None)] under the lock. *)
Definition pop_timer (path : Path) (d : Debouncer) : Debouncer :=
  with_timers d (delete path (_timers d)).

Section Debounce.

(** The file system at each instant, for the existence test of
    [enqueue]. *)
Variable fs_at : Z -> gmap Path str.

(** Line 36: [self.action(path)], the action being [conv.enqueue]. *)
Definition action (path : Path) (d : Debouncer) : Debouncer :=
  {| delay := delay d; _timers := _timers d; threads := threads d;
     clock := clock d;
     work_q := enqueue (fs_at (clock d)) (work_q d) path;
     calls := path :: calls d |}.

(** Lines 34-36. *)
Definition _run (path : Path) (d : Debouncer) : Debouncer :=
  action path (pop_timer path d).

Definition set_phase (t : nat) (ph : Phase) (d : Debouncer) : Debouncer :=
  with_threads d
    (alter (fun tm => {| tm_path := tm_path tm;
                         tm_deadline := tm_deadline tm;
                         tm_finished := tm_finished tm; tm_phase := ph |})
           t (threads d)).

(** [Timer.run], first part: the wait ends, by cancellation or when the
    interval has passed, and the event is tested. *)
Definition wake (t : nat) (d : Debouncer) : Debouncer :=
  match threads d !! t with
  | Some tm =>
      match tm_phase tm with
      | Waiting =>
          if tm_finished tm then set_phase t Exited d
          else if tm_deadline tm <=? clock d then set_phase t Running d
          else d
      | _ => d
      end
  | None => d
  end.

(** [Timer.run], second part: the function is called, then the event is
    set. *)
Definition finish (t : nat) (d : Debouncer) : Debouncer :=
  with_threads d
    (alter (fun tm => {| tm_path := tm_path tm;
                         tm_deadline := tm_deadline tm;
                         tm_finished := true; tm_phase := Exited |})
           t (threads d)).

Definition run (t : nat) (d : Debouncer) : Debouncer :=
  match threads d !! t with
  | Some tm =>
      match tm_phase tm with
      | Running => finish t (_run (tm_path tm) d)
      | _ => d
      end
  | None => d
  end.

(** A millisecond passes. *)
Definition tick (d : Debouncer) : Debouncer :=
  {| delay := delay d; _timers := _timers d; threads := threads d;
     clock := clock d + 1; work_q := work_q d; calls := calls d |}.

(** What can happen, one at a time: a notification for a path, the
    passing of a millisecond, a step of the thread of timer [t]. *)
Inductive Event :=
  | Notify (path : Path)
  | Tick
  | Wake (t : nat)
  | Run (t : nat).

Definition step (d : Debouncer) (e : Event) : Debouncer :=
  match e with
  | Notify path => trigger path d
  | Tick => tick d
  | Wake t => wake t d
  | Run t => run t d
  end.

Definition run_events (es : list Event) (d : Debouncer) : Debouncer :=
  foldl step d es.

End Debounce.

(** Every notification for [path] in [es] comes fewer than [delay_sec]
    milliseconds after the notification for [path] before it, the last
    one [gap] milliseconds before [es] begins. *)
Fixpoint rapid (path : Path) (delay_sec : Z) (gap : Z) (es : list Event)
    : bool :=
  match es with
  | [] => true
  | Tick :: es' => rapid path delay_sec (gap + 1) es'
  | Notify p :: es' =>
      if bool_decide (p = path)
      then (gap <? delay_sec) && rapid path delay_sec 0 es'
      else rapid path delay_sec gap es'
  | _ :: es' => rapid path delay_sec gap es'
  end.

(** How often the action was called with [path], and how many jobs for
    [path] the queue holds. *)
Definition calls_for (path : Path) (d : Debouncer) : nat :=
  length (filter (fun p => p = path) (calls d)).

Definition jobs_for (path : Path) (d : Debouncer) : nat :=
  length (filter (fun o => o = Some path) (work_q d)).

(** The test of [enqueue]. *)
Definition accepts (fs : gmap Path str) (path : Path) : bool :=
  is_csv path && negb (is_probably_temp path) && exists_ fs path.

(** * The watchdog handler (source lines 129-140)

    An event of the observer, as far as the handler looks at it. *)

Record FileSystemEvent := {
  is_directory : bool;
  src_path : Path
}.

(** Lines 134-140; [on_created] and [on_modified] are this function.  Its
    [except] clause has nothing to catch: nothing here raises. *)
Definition _maybe_handle (event : FileSystemEvent) (d : Debouncer)
    : Debouncer :=
  if is_directory event then d
  else
    let path := src_path event in
    if negb (is_csv path) then d
    else trigger path d.

(** What can happen while the observer runs: an event is handed to the
    handler, a millisecond passes, the thread of timer [t] takes a step. *)
Inductive WatchStep :=
  | Dispatch (event : FileSystemEvent)
  | Elapse
  | WakeTimer (t : nat)
  | RunTimer (t : nat).

Definition watch_step (fs_at : Z -> gmap Path str) (d : Debouncer)
    (s : WatchStep) : Debouncer :=
  match s with
  | Dispatch event => _maybe_handle event d
  | Elapse => tick d
  | WakeTimer t => wake t d
  | RunTimer t => run fs_at t d
  end.

Definition watch_run (fs_at : Z -> gmap Path str) (steps : list WatchStep)
    (d : Debouncer) : Debouncer :=
  foldl (watch_step fs_at) d steps.

(** * The polling watcher (source lines 141-160)

    The watcher keeps the modification time it last saw for each path;
    what it enqueues goes to the queue of the converter.  Modification
    times are counted in nanoseconds. *)

Record PollingWatcher := {
  _seen : gmap Path Z;
  conv_work_q : list (option Path)
}.

(** Lines 156-160; [it] is what [rglob] or [glob] yields for [*.csv]. *)
Definition _scan_csvs (it : list Path) : list Path :=
  filter (fun p => is_probably_temp p = false) it.

(** Lines 150-154, the body of the loop over the scan for one path;
    [st_mtime p] is [None] when [stat] raises FileNotFoundError. *)
Definition poll_path (st_mtime : Path -> option Z) (fs : gmap Path str)
    (self : PollingWatcher) (p : Path) : PollingWatcher :=
  match st_mtime p with
  | None => self
  | Some mtime =>
      let last := _seen self !! p in
      if match last with
         | None => true
         | Some last => last <? mtime
         end
      then {| _seen := <[p := mtime]> (_seen self);
              conv_work_q := enqueue fs (conv_work_q self) p |}
      else self
  end.

(** Lines 149-154, one pass of the loop of [_run]. *)
Definition poll_pass (st_mtime : Path -> option Z) (fs : gmap Path str)
    (it : list Path) (self : PollingWatcher) : PollingWatcher :=
  foldl (poll_path st_mtime fs) self (_scan_csvs it).

(** * Files present at the start (source lines 180-186)

    [p.is_file()] is the existence of [p], directories being no part of
    the file system of the model. *)
Definition emit (fs : gmap Path str) (work_q : list (option Path))
    (p : Path) : list (option Path) :=
  if exists_ fs p && is_csv p && negb (is_probably_temp p)
  then enqueue fs work_q p
  else work_q.

(** [it] is what [rglob] or [glob] yields, as [cfg.recursive] chooses. *)
Definition process_existing_ (fs : gmap Path str) (it : list Path)
    (work_q : list (option Path)) : list (option Path) :=
  foldl (emit fs) work_q it.

(** * Vocabulary of the properties *)

(** The [i]-th name probed for [base], line 73. *)
Definition candidate (base : Path) (i : nat) : Path :=
  parent base ++ [stem base ++ txt "_" ++ str_of_nat i ++ suffix base].

(** The sibling of line 83: the final name with [.tmp] appended. *)
Definition tmp_path_of (out_path : Path) : Path :=
  parent out_path ++ [name out_path ++ txt ".tmp"].

(** The final output path lines 79-81 resolve to, as a function of the
    file system. *)
Definition resolve_path (cfg : Config) (csv_path : Path)
    (fs : gmap Path str) : outcome Path :=
  match with_suffix csv_path
          (if json_lines cfg then txt ".jsonl" else txt ".json") with
  | None => Raise ValueError
  | Some o =>
      let base := joinpath (out_dir cfg) (name o) in
      if overwrite cfg || negb (exists_ fs base) then Ok base
      else unique_loop fs base 1 (S (size fs))
  end.

(** Every state the file system takes from [w] to [w'], [files w']
    included, agrees with [files w] on the paths outside [P], and nothing
    is logged. *)
Definition within (P : Path -> Prop) (w w' : World) : Prop :=
  exists new, seen w' = new ++ seen w
    /\ Forall (fun fs => forall p, ~ P p -> fs !! p = files w !! p)
              (files w' :: new)
    /\ log w' = log w.

(** A run that keeps within [P] and ends. *)
Definition tame {A} (P : Path -> Prop) (m : M A) : Prop :=
  forall w, within P w (m w).2 /\ (m w).1 <> Loops.

Definition logged (entry : LogEntry) (w : World) : World :=
  {| files := files w; now := now w; ops := ops w; log := entry :: log w;
     seen := seen w |}.

Definition ticked (w : World) : World :=
  {| files := files w; now := now w; ops := S (ops w); log := log w;
     seen := seen w |}.

(** The text of the document for [rows]: one line per row, or an array of
    the rows separated by commas. *)
Definition document (cfg : Config) (rows : list pydict) : str :=
  if json_lines cfg
  then rows ≫= (fun row => json_dumps None row ++ [LF])
  else txt "[" ++ join (txt ",") (json_dumps (indent cfg) <$> rows)
       ++ txt "]".

(** [m], when it returns, has appended [t] to the file at [tmp]. *)
Definition appends (tmp : Path) (m : M unit) (t : str) : Prop :=
  forall w w' c, m w = (Ok tt, w') -> files w !! tmp = Some c ->
                 files w' !! tmp = Some (c ++ t).

Section ConversionParts.

Variable fault : nat -> bool.
Variable sniff : str -> option (ascii * ascii).

(** Lines 105-113: the two attempts. *)
Definition write_phase (cfg : Config) (text : str) (tmp_path : Path)
    : M unit :=
  let kw := reader_kwargs sniff cfg (take 4096 text) in
  try_except (header_attempt fault cfg text kw tmp_path)
             (fun _ => positional_attempt fault cfg text kw tmp_path).

(** [rows] is the whole sequence of records of [text] in one of the two
    modes, read to its end without an error. *)
Definition published_rows (cfg : Config) (text : str) (rows : list pydict)
    : Prop :=
  let kw := reader_kwargs sniff cfg (take 4096 text) in
  exists d, make_dialect kw.1 kw.2 = inr d
    /\ (csv_reader d text).2 = None
    /\ ((header_rejected (head (csv_reader d text).1) = false
         /\ rows = (header_rows (csv_reader d text)).1)
        \/ rows = (positional_rows (csv_reader d text)).1).

(** Lines 82-114, once the output path is resolved. *)
Definition convert_tail (cfg : Config) (csv_path out_path : Path)
    : M unit :=
  mkdir fault (parent out_path) ;;
  tmp_path <- tmp_of out_path ;;
  f <- open_r fault csv_path ;;
  write_phase cfg f tmp_path ;;
  os_replace fault tmp_path out_path ;;
  logging (InfoWrote out_path).

End ConversionParts.

Definition no_fault : nat -> bool := fun _ => false.

(** [m] returns in every world. *)
Definition returns (m : M unit) : Prop :=
  forall w, exists w', m w = (Ok tt, w').

(** The records a conversion publishes when nothing fails: those of header
    mode when the header test accepts the first row, else those of
    positional mode. *)
Definition records (d : Dialect) (text : str) : list pydict :=
  let rows := csv_reader d text in
  if header_rejected (head rows.1) then (positional_rows rows).1
  else (header_rows rows).1.

Section WorkerBody.

Variable fault : nat -> bool.
Variable env : nat -> gmap Path str -> gmap Path str.
Variable sniff : str -> option (ascii * ascii).
Variable cfg : Config.

(** Lines 52-54, the part of the loop body inside [try]. *)
Definition pipeline (path : Path) : M unit :=
  stable <- _wait_stable fault env path 600 3 ;;
  if negb stable then logging (WarningNeverStabilized path)
  else _convert_file fault sniff cfg path.

End WorkerBody.

(** The loop of lines 60-68 as a function of what its polls observe, each
    the size of the file or [None] when it is gone: the result and the
    number of polls made. *)
Fixpoint stable_loop (checks last stable : nat) (obs : list (option nat))
    : bool * nat :=
  match obs with
  | [] => (false, 0%nat)
  | None :: _ => (false, 1%nat)
  | Some size :: obs' =>
      if (size =? last)%nat then
        if (checks <=? stable + 1)%nat then (true, 1%nat)
        else let r := stable_loop checks last (stable + 1) obs' in
             (r.1, S r.2)
      else let r := stable_loop checks size 0 obs' in (r.1, S r.2)
  end.

Section Polls.

Variable env : nat -> gmap Path str -> gmap Path str.
Variable path : Path.
Variable window : Z.

(** The world after [time.sleep(window)], and after the [stat] that
    follows it. *)
Definition slept (w : World) : World :=
  {| files := env (ops w) (files w); now := now w + window;
     ops := S (ops w); log := log w;
     seen := env (ops w) (files w) :: seen w |}.

Definition polled (w : World) : World := ticked (slept w).

(** The world after [k] polls. *)
Fixpoint after (k : nat) (w : World) : World :=
  match k with
  | O => w
  | S k' => after k' (polled w)
  end.

(** What the next [n] polls observe. *)
Fixpoint samples (n : nat) (w : World) : list (option nat) :=
  match n with
  | O => []
  | S n' => (length <$> files (slept w) !! path) :: samples n' (polled w)
  end.

End Polls.

Definition col (idx : nat) : option str :=
  Some (txt "col" ++ str_of_nat (idx + 1)).

(** [cfg] with the two overrides set. *)
Definition with_overrides (cfg : Config) (d q : str) : Config :=
  {| watch_dir := watch_dir cfg; out_dir := out_dir cfg;
     recursive := recursive cfg; process_existing := process_existing cfg;
     json_lines := json_lines cfg; overwrite := overwrite cfg;
     indent := indent cfg; delimiter := Some d; quotechar := Some q;
     encoding := encoding cfg; debounce_sec := debounce_sec cfg;
     poll_interval := poll_interval cfg |}.

(** The timer the map holds for a path is a timer for that path that is
    neither cancelled nor finished. *)
Definition registered_pending (d : Debouncer) : Prop :=
  forall p i, _timers d !! p = Some i ->
    exists tm, threads d !! i = Some tm /\ tm_path tm = p
               /\ tm_finished tm = false.

(** A timer that will not call the action any more. *)
Definition dead (tm : Timer) : Prop :=
  tm_finished tm = true /\ tm_phase tm <> Running.

Section BurstStates.

Variable fs_at : Z -> gmap Path str.
Variable path : Path.

(** After the last notification for [path], [gap] milliseconds ago: its
    timer is the one in the map, it waits for the instant the
    notification fixed, or it has seen that instant pass and is about to
    run; every other timer for [path] is dead; the action has not been
    called for [path]. *)
Definition armed (gap : Z) (d : Debouncer) : Prop :=
  exists i tm,
    _timers d !! path = Some i /\ threads d !! i = Some tm
    /\ tm_path tm = path /\ tm_finished tm = false
    /\ tm_deadline tm = clock d - gap + delay d
    /\ (tm_phase tm = Waiting
        \/ (tm_phase tm = Running /\ delay d <= gap))
    /\ (forall j tm', threads d !! j = Some tm' -> tm_path tm' = path ->
                      j <> i -> dead tm')
    /\ calls_for path d = 0%nat /\ jobs_for path d = 0%nat.

(** That timer has run: the map holds nothing for [path], every timer for
    [path] is dead, the action was called once, and the queue holds one
    job for [path] or none, as [enqueue] decided at the instant of the
    call. *)
Definition fired (gap : Z) (d : Debouncer) : Prop :=
  _timers d !! path = None
  /\ (forall j tm', threads d !! j = Some tm' -> tm_path tm' = path ->
                    dead tm')
  /\ calls_for path d = 1%nat
  /\ (exists t, jobs_for path d
                = if accepts (fs_at t) path then 1%nat else 0%nat)
  /\ delay d <= gap.

(** The invariant of a burst: the map is well formed, and the timer of
    the last notification for [path] is armed or has fired. *)
Definition coalesced (gap : Z) (d : Debouncer) : Prop :=
  registered_pending d /\ (armed gap d \/ fired gap d).

End BurstStates.

(** Inputs of the examples. *)

Definition sniff_fails : str -> option (ascii * ascii) := fun _ => None.

Definition sniff_comma : str -> option (ascii * ascii) :=
  fun _ => Some (","%char, DQ).

Definition excel : Dialect :=
  {| dl_delimiter := ","%char; dl_quotechar := DQ |}.

(** A configuration with the defaults of the command line. *)
Definition default_config (jsonl ow : bool) : Config :=
  {| watch_dir := [txt "watch"]; out_dir := [txt "out"];
     recursive := false; process_existing := false;
     json_lines := jsonl; overwrite := ow; indent := None;
     delimiter := None; quotechar := None; encoding := txt "utf-8-sig";
     debounce_sec := 1250; poll_interval := 2000 |}.

Definition data_csv : Path := [txt "watch"; txt "data.csv"].

Definition data_json : Path := [txt "out"; txt "data.json"].

(** A world whose only file is [watch/data.csv]. *)
Definition world_with (text : str) : World :=
  {| files := {[ data_csv := text ]}; now := 0; ops := 0; log := [];
     seen := [] |}.

(** The lines [a,b], [1,2], [3,4], separated by line feeds. *)
Definition ab_csv : str :=
  txt "a,b" ++ [LF] ++ txt "1,2" ++ [LF] ++ txt "3,4".

(** Vocabulary of the further properties. *)

(** A cell that needs no quoting: it holds neither the delimiter, nor the
    quote character, nor a line break, and is no longer than the field
    limit of the reader. *)
Definition plain_cell (d : Dialect) (cell : str) : Prop :=
  Forall (fun c => c <> dl_delimiter d /\ c <> dl_quotechar d
                   /\ c <> LF /\ c <> CR) cell
  /\ (N.of_nat (length cell) <= field_limit)%N.

(** A row of such cells; the row of one empty cell is left out, its line
    being that of the row without cells. *)
Definition plain_row (d : Dialect) (row : list str) : Prop :=
  Forall (plain_cell d) row /\ row <> [[]].

Global Instance plain_cell_dec d cell : Decision (plain_cell d cell).
Proof. unfold plain_cell. apply _. Defined.

Global Instance plain_row_dec d row : Decision (plain_row d row).
Proof. unfold plain_row. apply _. Defined.

(** The text of rows of plain cells: the cells joined by the delimiter,
    every line ended by [nl]. *)
Definition csv_text (d : Dialect) (nl : str) (rows : list (list str)) : str :=
  rows ≫= (fun row => join [dl_delimiter d] row ++ nl).

(** The end of a line as the reader meets it: one of the three line
    breaks, or none at the end of the text. *)
Definition line_end (nl : str) : Prop :=
  nl = [LF] \/ nl = [CR; LF] \/ nl = [CR] \/ nl = [].

(** A character of a cell as it is written between quotes: the quote
    character twice, any other as it is. *)
Definition doubled (d : Dialect) (c : ascii) : str :=
  if ch_eqb c (dl_quotechar d) then [dl_quotechar d; dl_quotechar d]
  else [c].

(** A cell written between quote characters, every quote character in it
    doubled. *)
Definition quoted_cell (d : Dialect) (cell : str) : str :=
  [dl_quotechar d] ++ (cell ≫= doubled d) ++ [dl_quotechar d].

(** The text of rows of quoted cells. *)
Definition quoted_text (d : Dialect) (nl : str) (rows : list (list str))
    : str :=
  rows ≫= (fun row => join [dl_delimiter d] (quoted_cell d <$> row) ++ nl).

(** A cell no longer than the field limit. *)
Definition within_limit (cell : str) : Prop :=
  (N.of_nat (length cell) <= field_limit)%N.

Global Instance within_limit_dec cell : Decision (within_limit cell).
Proof. unfold within_limit. apply _. Defined.

(** The machine on the first characters of a line, the marker of the end
    of the line not yet fed. *)
Fixpoint parse_chars (d : Dialect) (self : Reader) (s : str)
    : exn + Reader :=
  match s with
  | [] => inr self
  | c :: s' =>
      match parse_process_char d self (Some c) with
      | inl e => inl e
      | inr self' => parse_chars d self' s'
      end
  end.

(** The reader between two characters of a line: [self] was its state
    when the line began, [cur] holds the characters of the line read so
    far, most recent first, and the machine is in [now] after them. *)
Definition reader_at (d : Dialect) (self : Reader) (cur : str)
    (now : Reader) : Prop :=
  parse_chars d self (reverse cur) = inr now.

(** The records of the rows a reader returned without an error: those of
    header mode, blank rows skipped, when the header test accepts the
    first row; else those of positional mode. *)
Definition records_of_rows (rows : list (list str)) : list pydict :=
  match rows with
  | hs :: rest =>
      if header_rejected (Some hs) then positional_row <$> rows
      else dict_row hs <$> filter (fun r => r <> []) rest
  | [] => []
  end.

(** A text without a character below 32, the control characters of
    ASCII; in particular without LF and CR. *)
Definition no_control (s : str) : Prop :=
  Forall (fun c => (32 <= nat_of_ascii c)%nat) s.

(** [cfg] with another indent. *)
Definition with_indent (cfg : Config) (i : option Z) : Config :=
  {| watch_dir := watch_dir cfg; out_dir := out_dir cfg;
     recursive := recursive cfg; process_existing := process_existing cfg;
     json_lines := json_lines cfg; overwrite := overwrite cfg;
     indent := i; delimiter := delimiter cfg; quotechar := quotechar cfg;
     encoding := encoding cfg; debounce_sec := debounce_sec cfg;
     poll_interval := poll_interval cfg |}.

(** What a write that the reader interrupts leaves of the document: the
    records before the error, without the closing bracket in array
    mode. *)
Definition partial_document (cfg : Config) (rows : list pydict) : str :=
  if json_lines cfg
  then rows ≫= (fun row => json_dumps None row ++ [LF])
  else txt "[" ++ join (txt ",") (json_dumps (indent cfg) <$> rows).

(** The number of notifications for [path] among the events. *)
Fixpoint notified (path : Path) (es : list Event) : nat :=
  match es with
  | [] => 0
  | Notify p :: es' =>
      (if bool_decide (p = path) then 1 else 0) + notified path es'
  | _ :: es' => notified path es'
  end.

(** A timer for [path] whose thread has not ended. *)
Definition alive (path : Path) (tm : Timer) : bool :=
  bool_decide (tm_path tm = path)
  && match tm_phase tm with Exited => false | _ => true end.

Definition live (path : Path) (d : Debouncer) : nat :=
  length (filter (fun tm => alive path tm = true) (threads d)).

(** The notifications a step of the observer amounts to. *)
Definition events_of (s : WatchStep) : list Event :=
  match s with
  | Dispatch event =>
      if is_directory event || negb (is_csv (src_path event)) then []
      else [Notify (src_path event)]
  | Elapse => [Tick]
  | WakeTimer t => [Wake t]
  | RunTimer t => [Run t]
  end.

(** The number of events for the file [path] handed to the handler. *)
Definition dispatched (path : Path) (steps : list WatchStep) : nat :=
  length (filter (fun s => match s with
                           | Dispatch event =>
                               negb (is_directory event)
                               && bool_decide (src_path event = path)
                           | _ => false
                           end = true) steps).

(** What is in the queue passed the test of [enqueue] when it was put
    there. *)
Definition accepted (fs_at : Z -> gmap Path str) (o : option Path) : Prop :=
  exists p t, o = Some p /\ accepts (fs_at t) p = true.

(** Timer [i] is the timer for [path] due at [deadline], and it is about
    to call the action only when that instant has come. *)
Definition due (i : nat) (path : Path) (deadline : Z) (d : Debouncer)
    : Prop :=
  exists tm, threads d !! i = Some tm /\ tm_path tm = path
    /\ tm_deadline tm = deadline
    /\ (tm_phase tm = Running -> deadline <= clock d).

(** The scan finds [p] with a modification time that the watcher has not
    seen yet: the path is new to it, or the time is later than the one it
    remembers. *)
Definition newer (seen : gmap Path Z) (st_mtime : Path -> option Z)
    (p : Path) : bool :=
  match st_mtime p with
  | None => false
  | Some mtime =>
      match seen !! p with
      | None => true
      | Some last => last <? mtime
      end
  end.

(** * Properties *)

Lemma ch_eqb_true a b : ch_eqb a b = true <-> a = b.
Proof. apply Ascii.eqb_eq. Qed.

Lemma ch_eqb_refl a : ch_eqb a a = true.
Proof. by apply ch_eqb_true. Qed.

Lemma ch_eqb_false a b : ch_eqb a b = false <-> a <> b.
Proof. apply Ascii.eqb_neq. Qed.

(** ** The filter at the queue *)

Lemma is_probably_temp_spec (path : Path) :
  is_probably_temp path = true <->
  (exists p, p ∈ TEMP_PREFIXES /\ p `prefix_of` name path)
  \/ (exists s, s ∈ TEMP_SUFFIXES /\ s `suffix_of` name path).
Proof.
  unfold is_probably_temp.
  destruct (existsb (startswith (name path)) TEMP_PREFIXES) eqn:Hp.
  - split; [intros _|done]. left.
    apply existsb_exists in Hp as (p & Hin & Hs).
    exists p. split; [by apply list_elem_of_In|].
    by apply bool_decide_eq_true in Hs.
  - destruct (existsb (endswith (name path)) TEMP_SUFFIXES) eqn:Hs.
    + split; [intros _|done]. right.
      apply existsb_exists in Hs as (s & Hin & Hs).
      exists s. split; [by apply list_elem_of_In|].
      by apply bool_decide_eq_true in Hs.
    + split; [done|]. intros [(p & Hin & Hpre)|(s & Hin & Hsuf)].
      * assert (existsb (startswith (name path)) TEMP_PREFIXES = true)
          as Hc; [|congruence].
        apply existsb_exists. exists p.
        split; [by apply list_elem_of_In|]. by apply bool_decide_eq_true.
      * assert (existsb (endswith (name path)) TEMP_SUFFIXES = true)
          as Hc; [|congruence].
        apply existsb_exists. exists s.
        split; [by apply list_elem_of_In|]. by apply bool_decide_eq_true.
Qed.

Lemma is_csv_spec (path : Path) :
  is_csv path = true <-> lower (suffix path) = txt ".csv".
Proof.
  unfold is_csv, CSV_EXTENSIONS.
  rewrite bool_decide_eq_true, list_elem_of_singleton. done.
Qed.

(** C6.  [enqueue] either appends the path to the queue or leaves the queue
    as it is.  It appends exactly when the extension of the path, lowered,
    is [.csv], the name is not temp-like and the file exists.  A name is
    temp-like exactly when it starts with one of [.~], [~$], [.] or ends
    with one of [.tmp], [.partial], [.part], [.crdownload]; for such a
    name the queue is left as it is. *)
Theorem enqueue_filter (fs : gmap Path str) (work_q : list (option Path))
    (path : Path) :
  (enqueue fs work_q path = work_q ++ [Some path]
   \/ enqueue fs work_q path = work_q)
  /\ (enqueue fs work_q path = work_q ++ [Some path] <->
      lower (suffix path) = txt ".csv"
      /\ is_probably_temp path = false
      /\ is_Some (fs !! path))
  /\ (is_probably_temp path = true <->
      (exists p, p ∈ [txt ".~"; txt "~$"; txt "."]
                 /\ p `prefix_of` name path)
      \/ (exists s, s ∈ [txt ".tmp"; txt ".partial"; txt ".part";
                         txt ".crdownload"]
                    /\ s `suffix_of` name path))
  /\ (is_probably_temp path = true -> enqueue fs work_q path = work_q).
Proof.
  assert (Hne : work_q <> work_q ++ [Some path]).
  { intros Heq. apply (f_equal length) in Heq.
    rewrite length_app in Heq. simpl in Heq. lia. }
  split_and!.
  - unfold enqueue. destruct (_ || _); auto.
  - unfold enqueue. rewrite <- is_csv_spec.
    unfold exists_.
    destruct (is_csv path), (is_probably_temp path); simpl;
      try (split; [intros Heq; by destruct Hne|intros (?&?&?); done]).
    case_bool_decide; simpl.
    + split; auto.
    + split; [intros Heq; by destruct Hne|intros (?&?&?); done].
  - apply is_probably_temp_spec.
  - intros Ht. unfold enqueue. rewrite Ht.
    by rewrite orb_true_r.
Qed.

(** ** Names of paths *)

Lemma rfind_from_app c l1 l2 i acc :
  rfind_from c (l1 ++ l2) i acc
  = rfind_from c l2 (i + Z.of_nat (length l1)) (rfind_from c l1 i acc).
Proof.
  revert i acc. induction l1 as [|x l1 IH]; intros i acc; simpl.
  - f_equal. lia.
  - rewrite IH. f_equal. lia.
Qed.

Lemma rfind_from_notin c l i acc : c ∉ l -> rfind_from c l i acc = acc.
Proof.
  revert i acc. induction l as [|x l IH]; intros i acc Hn; simpl; [done|].
  apply not_elem_of_cons in Hn as [Hx Hl].
  rewrite IH by done.
  destruct (ch_eqb x c) eqn:E; [|done].
  apply ch_eqb_true in E. congruence.
Qed.

Lemma rfind_dot (nm ext : str) :
  "."%char ∉ ext ->
  rfind (nm ++ "."%char :: ext) "."%char = Z.of_nat (length nm).
Proof.
  intros Hn. unfold rfind. rewrite rfind_from_app. cbn [rfind_from].
  rewrite ch_eqb_refl. rewrite rfind_from_notin by done. lia.
Qed.

Lemma dot_inside (nm ext : str) :
  nm <> [] -> ext <> [] ->
  (0 <? Z.of_nat (length nm))
  && (Z.of_nat (length nm)
      <? Z.of_nat (length (nm ++ "."%char :: ext)) - 1) = true.
Proof.
  intros Hnm Hext. rewrite length_app. cbn [length].
  destruct nm; [done|]. destruct ext; [done|]. cbn [length].
  apply andb_true_intro. split; apply Z.ltb_lt; lia.
Qed.

Lemma suffix_of_name_dot (nm ext : str) :
  nm <> [] -> ext <> [] -> "."%char ∉ ext ->
  suffix_of_name (nm ++ "."%char :: ext) = "."%char :: ext.
Proof.
  intros Hnm Hext Hn. unfold suffix_of_name. rewrite rfind_dot by done.
  rewrite dot_inside by done. rewrite Nat2Z.id.
  by rewrite drop_app_length.
Qed.

Lemma stem_of_name_dot (nm ext : str) :
  nm <> [] -> ext <> [] -> "."%char ∉ ext ->
  stem_of_name (nm ++ "."%char :: ext) = nm.
Proof.
  intros Hnm Hext Hn. unfold stem_of_name. rewrite rfind_dot by done.
  rewrite dot_inside by done. rewrite Nat2Z.id.
  by rewrite take_app_length.
Qed.

Lemma name_snoc (d : Path) (n : str) : name (d ++ [n]) = n.
Proof. unfold name. apply last_last. Qed.

Lemma parent_snoc (d : Path) (n : str) : parent (d ++ [n]) = d.
Proof. unfold parent. apply removelast_last. Qed.

Lemma with_name_snoc (d : Path) (n n' : str) :
  n <> [] -> with_name (d ++ [n]) n' = Some (d ++ [n']).
Proof.
  intros Hn. unfold with_name. rewrite name_snoc, parent_snoc.
  by rewrite bool_decide_eq_false_2.
Qed.

Lemma with_suffix_dot (d : Path) (nm ext suf : str) :
  nm <> [] -> ext <> [] -> "."%char ∉ ext ->
  with_suffix (d ++ [nm ++ "."%char :: ext]) suf = Some (d ++ [nm ++ suf]).
Proof.
  intros Hnm Hext Hn. unfold with_suffix, suffix.
  rewrite name_snoc, parent_snoc, suffix_of_name_dot by done.
  rewrite bool_decide_eq_false_2 by (by destruct nm).
  rewrite bool_decide_eq_false_2 by done.
  rewrite length_app. simpl length.
  replace (length nm + S (length ext) - S (length ext))%nat
    with (length nm) by lia.
  by rewrite take_app_length.
Qed.

Lemma txt_inj (x y : string) : txt x = txt y -> x = y.
Proof.
  unfold txt. intros H.
  rewrite <- (string_of_list_ascii_of_string x),
          <- (string_of_list_ascii_of_string y).
  by rewrite H.
Qed.

Lemma str_of_nat_inj (i j : nat) : str_of_nat i = str_of_nat j -> i = j.
Proof. unfold str_of_nat. intros H%txt_inj. by apply (inj pretty). Qed.

(** ** Output naming *)

Lemma candidate_inj base i j : candidate base i = candidate base j -> i = j.
Proof.
  unfold candidate. intros H.
  apply app_inv_head in H. injection H as H.
  apply app_inv_head in H. injection H as H.
  apply app_inv_tail in H. by apply str_of_nat_inj.
Qed.

Lemma candidate_dot (dir : Path) (nm ext : str) (i : nat) :
  nm <> [] -> ext <> [] -> "."%char ∉ ext ->
  candidate (dir ++ [nm ++ "."%char :: ext]) i
  = dir ++ [nm ++ txt "_" ++ str_of_nat i ++ "."%char :: ext].
Proof.
  intros Hnm Hext Hdot. unfold candidate, stem, suffix.
  by rewrite parent_snoc, name_snoc, stem_of_name_dot, suffix_of_name_dot.
Qed.

Lemma unique_loop_step fs base i fuel :
  name base <> [] ->
  unique_loop fs base i (S fuel)
  = if exists_ fs (candidate base i) then unique_loop fs base (S i) fuel
    else Ok (candidate base i).
Proof.
  intros Hn. cbn [unique_loop]. unfold with_name.
  by rewrite bool_decide_eq_false_2.
Qed.

Lemma unique_loop_noname fs base i fuel :
  name base = [] -> unique_loop fs base i (S fuel) = Raise ValueError.
Proof.
  intros Hn. cbn [unique_loop]. unfold with_name.
  by rewrite bool_decide_eq_true_2.
Qed.

(** The loop returns the first free candidate, if one lies within its
    fuel. *)
Lemma unique_loop_first_free fs base fuel i k :
  name base <> [] ->
  (i <= k < i + fuel)%nat ->
  fs !! candidate base k = None ->
  exists k', (i <= k' <= k)%nat
    /\ unique_loop fs base i fuel = Ok (candidate base k')
    /\ fs !! candidate base k' = None
    /\ forall j, (i <= j < k')%nat -> is_Some (fs !! candidate base j).
Proof.
  intros Hn. revert i.
  induction fuel as [|fuel IH]; intros i Hk Hfree; [lia|].
  rewrite unique_loop_step by done. unfold exists_.
  case_bool_decide as Hi.
  - assert (i <> k) by (intros ->; rewrite Hfree in Hi; by destruct Hi).
    destruct (IH (S i)) as (k' & Hk' & Hrun & Hnone & Hbelow);
      [lia|done|].
    exists k'. split; [lia|]. split; [done|]. split; [done|].
    intros j Hj. destruct (decide (j = i)) as [->|]; [done|].
    apply Hbelow. lia.
  - exists i. split; [lia|]. split; [done|]. split; [|intros j; lia].
    by apply eq_None_not_Some.
Qed.

(** Among the first [size fs + 1] candidates one is free: they are
    pairwise distinct, and [fs] holds only [size fs] files. *)
Lemma candidate_free_exists (fs : gmap Path str) base :
  exists k, (1 <= k < 1 + S (size fs))%nat
    /\ fs !! candidate base k = None.
Proof.
  set (cs := candidate base <$> seq 1 (S (size fs))).
  destruct (decide (Forall (fun p => is_Some (fs !! p)) cs)) as [Hall|Hex].
  - exfalso.
    assert (NoDup cs) as Hnd.
    { apply NoDup_fmap_2; [|apply NoDup_seq].
      intros i j. apply candidate_inj. }
    assert (list_to_set cs ⊆ dom fs) as Hsub.
    { intros p Hp. apply elem_of_list_to_set in Hp.
      apply elem_of_dom. by eapply Forall_forall in Hall. }
    apply subseteq_size in Hsub.
    rewrite size_list_to_set in Hsub by done.
    rewrite size_dom in Hsub.
    unfold cs in Hsub. rewrite length_fmap, length_seq in Hsub. lia.
  - apply not_Forall_Exists in Hex; [|intros p; apply _].
    apply Exists_exists in Hex as (p & Hp & Hnone).
    apply list_elem_of_fmap in Hp as (k & -> & Hk).
    apply elem_of_seq in Hk.
    exists k. split; [lia|]. by apply eq_None_not_Some.
Qed.

(** With overwriting off and the base name taken, the candidates are probed
    from 1 upwards and the first free one is returned; the loop ends. *)
Lemma unique_out_path_probe (cfg : Config) (base : Path) (w : World) :
  name base <> [] ->
  overwrite cfg = false -> is_Some (files w !! base) ->
  exists k, (1 <= k)%nat
    /\ _unique_out_path cfg base w = (Ok (candidate base k), w)
    /\ files w !! candidate base k = None
    /\ forall j, (1 <= j < k)%nat -> is_Some (files w !! candidate base j).
Proof.
  intros Hn Hov Hex. unfold _unique_out_path. rewrite Hov.
  unfold exists_ at 1.
  rewrite bool_decide_eq_true_2 by done. cbn [orb negb].
  destruct (candidate_free_exists (files w) base) as (k & Hk & Hfree).
  destruct (unique_loop_first_free (files w) base (S (size (files w))) 1 k)
    as (k' & Hk' & Hrun & Hnone & Hbelow); [done|lia|done|].
  exists k'. rewrite Hrun. split; [lia|]. by split.
Qed.

Lemma unique_out_path_keep (cfg : Config) (base : Path) (w : World) :
  overwrite cfg = true \/ files w !! base = None ->
  _unique_out_path cfg base w = (Ok base, w).
Proof.
  intros H. unfold _unique_out_path, exists_.
  destruct H as [->|H]; [done|].
  rewrite bool_decide_eq_false_2; [by rewrite orb_true_r|].
  rewrite H. by intros [? ?].
Qed.

(** [_unique_out_path] changes nothing and always ends: with a path, or
    with the ValueError of a base without a name. *)
Lemma unique_out_path_total (cfg : Config) (base : Path) (w : World) :
  (exists out, _unique_out_path cfg base w = (Ok out, w)
     /\ (overwrite cfg = false -> files w !! out = None))
  \/ _unique_out_path cfg base w = (Raise ValueError, w).
Proof.
  destruct (overwrite cfg) eqn:Hov.
  { left. exists base. split; [|done].
    apply unique_out_path_keep. by left. }
  destruct (files w !! base) as [c|] eqn:Hb.
  - destruct (decide (name base = [])) as [Hn|Hn].
    + right. unfold _unique_out_path, exists_. rewrite Hov, Hb.
      rewrite bool_decide_eq_true_2 by done. cbn [orb negb].
      by rewrite unique_loop_noname.
    + left. destruct (unique_out_path_probe cfg base w)
        as (k & _ & Hrun & Hnone & _); [done|done|by rewrite Hb|].
      exists (candidate base k). by split.
  - left. exists base. split; [|done].
    apply unique_out_path_keep. by right.
Qed.

(** ** Reasoning about runs *)

Lemma within_refl P w : within P w w.
Proof. exists []. split; [done|]. split; [|done]. by repeat constructor. Qed.

Lemma within_trans P w1 w2 w3 :
  within P w1 w2 -> within P w2 w3 -> within P w1 w3.
Proof.
  intros (n1 & Hs1 & Hf1 & Hl1) (n2 & Hs2 & Hf2 & Hl2).
  exists (n2 ++ n1). split; [by rewrite Hs2, Hs1, app_assoc|].
  split; [|congruence].
  apply Forall_cons in Hf1 as [Hw2 Hn1].
  apply Forall_cons in Hf2 as [Hw3 Hn2].
  assert (forall fs : gmap Path str,
            (forall p, ~ P p -> fs !! p = files w2 !! p) ->
            forall p, ~ P p -> fs !! p = files w1 !! p) as Hstep.
  { intros fs H p Hp. rewrite H by done. by apply Hw2. }
  apply Forall_cons. split; [by apply Hstep|].
  apply Forall_app. split; [|done].
  eapply Forall_impl; [exact Hn2|]. intros fs H. by apply Hstep.
Qed.

Lemma within_mono (P Q : Path -> Prop) w w' :
  (forall p, P p -> Q p) -> within P w w' -> within Q w w'.
Proof.
  intros HPQ (new & Hs & Hf & Hl). exists new. split; [done|].
  split; [|done].
  eapply Forall_impl; [exact Hf|]. intros fs H p Hp. apply H. auto.
Qed.

Lemma within_files P w w' p :
  within P w w' -> ~ P p -> files w' !! p = files w !! p.
Proof.
  intros (new & _ & Hf & _) Hp. apply Forall_cons in Hf as [H _].
  by apply H.
Qed.

Lemma within_log P w w' : within P w w' -> log w' = log w.
Proof. by intros (new & _ & _ & Hl). Qed.

(** A world that differs from [w] in its clock or counter only. *)
Lemma within_same P (w w' : World) :
  files w' = files w -> seen w' = seen w -> log w' = log w ->
  within P w w'.
Proof.
  intros Hf Hs Hl. exists []. split; [by rewrite Hs|]. split; [|done].
  constructor; [|constructor]. intros p _. by rewrite Hf.
Qed.

(** A world whose file system went from [files w] to [fs] in one step. *)
Lemma within_step (P : Path -> Prop) (w w' : World)
    (fs : gmap Path str) :
  files w' = fs -> seen w' = fs :: seen w -> log w' = log w ->
  (forall p, ~ P p -> fs !! p = files w !! p) -> within P w w'.
Proof.
  intros Hf Hs Hl H. exists [fs]. split; [by rewrite Hs|]. split; [|done].
  rewrite Hf. by repeat constructor.
Qed.

Lemma bind_unfold {A B} (m : M A) (k : A -> M B) w :
  bind m k w = match m w with
               | (Ok a, w') => k a w'
               | (Raise e, w') => (Raise e, w')
               | (Loops, w') => (Loops, w')
               end.
Proof. done. Qed.

Lemma bind_Ok_inv {A B} (m : M A) (k : A -> M B) w b w2 :
  bind m k w = (Ok b, w2) ->
  exists a w1, m w = (Ok a, w1) /\ k a w1 = (Ok b, w2).
Proof.
  rewrite bind_unfold. destruct (m w) as [[a|e|] w1]; [eauto|done|done].
Qed.

Lemma bind_Ok {A B} (m : M A) (k : A -> M B) w a w1 :
  m w = (Ok a, w1) -> bind m k w = k a w1.
Proof. intros H. by rewrite bind_unfold, H. Qed.

Lemma bind_Raise {A B} (m : M A) (k : A -> M B) w e w1 :
  m w = (Raise e, w1) -> bind m k w = (Raise e, w1).
Proof. intros H. by rewrite bind_unfold, H. Qed.

Lemma tame_ret {A} P (a : A) : tame P (ret a).
Proof. intros w. split; [apply within_refl|done]. Qed.

Lemma tame_raise {A} P e : tame P (@raise A e).
Proof. intros w. split; [apply within_refl|done]. Qed.

Lemma tame_bind {A B} P (m : M A) (k : A -> M B) :
  tame P m -> (forall a, tame P (k a)) -> tame P (bind m k).
Proof.
  intros Hm Hk w. rewrite bind_unfold.
  destruct (Hm w) as [Hw Hl]. destruct (m w) as [[a|e|] w1];
    cbn [fst snd] in *; [|done|done].
  destruct (Hk a w1) as [Hw1 Hl1]. split; [|done].
  by eapply within_trans.
Qed.

Lemma tame_try_except {A} P (m : M A) (h : exn -> M A) :
  tame P m -> (forall e, tame P (h e)) -> tame P (try_except m h).
Proof.
  intros Hm Hh w. unfold try_except.
  destruct (Hm w) as [Hw Hl]. destruct (m w) as [[a|e|] w1];
    cbn [fst snd] in *; [done| |done].
  destruct (Hh e w1) as [Hw1 Hl1]. split; [|done].
  by eapply within_trans.
Qed.

Lemma tame_lift {A} P (r : exn + A) : tame P (lift r).
Proof. destruct r; [apply tame_raise|apply tame_ret]. Qed.

Lemma tame_lift_option {A} P e (o : option A) : tame P (lift_option e o).
Proof. destruct o; [apply tame_ret|apply tame_raise]. Qed.

Lemma tame_get_files P : tame P get_files.
Proof. intros w. split; [apply within_refl|done]. Qed.

Section Runs.

Variable fault : nat -> bool.
Variable sniff : str -> option (ascii * ascii).

Local Abbreviation write_phase := (write_phase fault sniff).
Local Abbreviation published_rows := (published_rows sniff).
Local Abbreviation convert_tail := (convert_tail fault sniff).

Lemma tame_syscall P : tame P (syscall fault).
Proof.
  intros w. unfold syscall.
  destruct (fault (ops w)); (split; [by apply within_same|done]).
Qed.

Lemma tame_update (P : Path -> Prop) (f : gmap Path str -> gmap Path str) :
  (forall fs p, ~ P p -> f fs !! p = fs !! p) ->
  tame P (fs <- get_files ;; set_files (f fs)).
Proof.
  intros Hf w. split; [|done]. cbn.
  eapply within_step; [done|done|done|]. intros p Hp. by apply Hf.
Qed.

Lemma tame_open_w tmp : tame (eq tmp) (open_w fault tmp).
Proof.
  unfold open_w. apply tame_bind; [apply tame_syscall|]. intros _.
  apply (tame_update _ (fun fs => <[tmp := []]> fs)).
  intros fs p Hp. by rewrite lookup_insert_ne.
Qed.

Lemma tame_write tmp s : tame (eq tmp) (write fault tmp s).
Proof.
  unfold write. apply tame_bind; [apply tame_syscall|]. intros _.
  apply (tame_update _
           (fun fs => <[tmp := default [] (fs !! tmp) ++ s]> fs)).
  intros fs p Hp. by rewrite lookup_insert_ne.
Qed.

Lemma tame_with_open_w tmp body :
  tame (eq tmp) body -> tame (eq tmp) (with_open_w fault tmp body).
Proof.
  intros Hb. unfold with_open_w.
  apply tame_bind; [apply tame_open_w|]. intros _ w.
  destruct (Hb w) as [Hw Hl]. destruct (body w) as [[[]|e|] w1];
    cbn [fst snd] in *; [| |done].
  - destruct (tame_syscall (eq tmp) w1) as [Hw1 Hl1]. unfold close.
    split; [by eapply within_trans|done].
  - destruct (tame_syscall (eq tmp) w1) as [Hw1 Hl1]. unfold close.
    destruct (syscall fault w1) as [[[]|e'|] w2]; cbn [fst snd] in *;
      (split; [by eapply within_trans|done]).
Qed.

Lemma tame_stream_end P e : tame P (stream_end e).
Proof. destruct e; [apply tame_raise|apply tame_ret]. Qed.

Lemma tame_lines_loop tmp rows : tame (eq tmp) (lines_loop fault tmp rows).
Proof.
  induction rows as [|row rows IH]; cbn [lines_loop]; [apply tame_ret|].
  apply tame_bind; [apply tame_write|]. intros _.
  apply tame_bind; [apply tame_write|]. intros _. apply IH.
Qed.

Lemma tame_array_loop cfg tmp first rows :
  tame (eq tmp) (array_loop fault (indent cfg) tmp first rows).
Proof.
  revert first. induction rows as [|row rows IH]; intros first;
    cbn [array_loop]; [apply tame_ret|].
  apply tame_bind.
  { destruct first; cbn [negb]; [apply tame_ret|apply tame_write]. }
  intros _. apply tame_bind; [apply tame_write|]. intros _. apply IH.
Qed.

Lemma tame_write_json cfg rows tmp :
  tame (eq tmp) (_write_json fault cfg rows tmp).
Proof.
  unfold _write_json. destruct (json_lines cfg).
  - apply tame_with_open_w. apply tame_bind; [apply tame_lines_loop|].
    intros _. apply tame_stream_end.
  - apply tame_with_open_w. apply tame_bind; [apply tame_write|].
    intros _. apply tame_bind; [apply tame_array_loop|].
    intros _. apply tame_bind; [apply tame_stream_end|].
    intros _. apply tame_write.
Qed.

Lemma tame_header_attempt cfg text kw tmp :
  tame (eq tmp) (header_attempt fault cfg text kw tmp).
Proof.
  unfold header_attempt. apply tame_bind; [apply tame_lift|]. intros d.
  apply tame_bind; [apply tame_lift|]. intros fieldnames.
  destruct (header_rejected fieldnames);
    [apply tame_raise|apply tame_write_json].
Qed.

Lemma tame_positional_attempt cfg text kw tmp :
  tame (eq tmp) (positional_attempt fault cfg text kw tmp).
Proof.
  unfold positional_attempt. apply tame_bind; [apply tame_lift|].
  intros d. apply tame_write_json.
Qed.

(** *** What a successful write leaves in the temporary file *)

Lemma syscall_Ok_inv w u w' :
  syscall fault w = (Ok u, w') ->
  files w' = files w /\ seen w' = seen w /\ log w' = log w
  /\ now w' = now w /\ ops w' = S (ops w) /\ fault (ops w) = false.
Proof.
  unfold syscall. destruct (fault (ops w)); [done|].
  intros [= <- <-]. done.
Qed.

Lemma appends_ret tmp : appends tmp (ret tt) [].
Proof. intros w w' c [= <-] Hc. by rewrite app_nil_r. Qed.

Lemma appends_write tmp s : appends tmp (write fault tmp s) s.
Proof.
  intros w w' c H Hc. unfold write in H.
  apply bind_Ok_inv in H as (u & w1 & H1 & H).
  apply syscall_Ok_inv in H1 as (Hf & _).
  cbn in H. injection H as <-. cbn.
  rewrite lookup_insert_eq, Hf, Hc. done.
Qed.

Lemma appends_bind tmp (m1 m2 : M unit) t1 t2 :
  appends tmp m1 t1 -> appends tmp m2 t2 ->
  appends tmp (m1 ;; m2) (t1 ++ t2).
Proof.
  intros H1 H2 w w' c H Hc.
  apply bind_Ok_inv in H as ([] & w1 & Hm1 & Hm2).
  rewrite app_assoc. eapply H2; [done|]. by eapply H1.
Qed.

Lemma appends_stream_end tmp e : appends tmp (stream_end e) [].
Proof. destruct e; [done|apply appends_ret]. Qed.

Lemma appends_lines_loop tmp rows :
  appends tmp (lines_loop fault tmp rows)
    (rows ≫= fun row => json_dumps None row ++ [LF]).
Proof.
  induction rows as [|row rows IH]; cbn [lines_loop];
    [apply appends_ret|].
  rewrite bind_cons, <- app_assoc.
  apply appends_bind; [apply appends_write|].
  apply appends_bind; [apply appends_write|]. apply IH.
Qed.

Lemma appends_array_loop_rest cfg tmp rows :
  appends tmp (array_loop fault (indent cfg) tmp false rows)
    (rows ≫= fun row => txt "," ++ json_dumps (indent cfg) row).
Proof.
  induction rows as [|row rows IH]; cbn [array_loop negb];
    [apply appends_ret|].
  rewrite bind_cons, <- app_assoc.
  apply appends_bind; [apply appends_write|].
  apply appends_bind; [apply appends_write|]. apply IH.
Qed.

Lemma join_comma (x : str) (l : list str) :
  join (txt ",") (x :: l) = x ++ (l ≫= fun y => txt "," ++ y).
Proof.
  revert x. induction l as [|y l IH]; intros x.
  - cbn. by rewrite app_nil_r.
  - change (join (txt ",") (x :: y :: l))
      with (x ++ txt "," ++ join (txt ",") (y :: l)).
    rewrite IH, bind_cons. by rewrite <- app_assoc.
Qed.

Lemma appends_array_loop cfg tmp rows :
  appends tmp (array_loop fault (indent cfg) tmp true rows)
    (join (txt ",") (json_dumps (indent cfg) <$> rows)).
Proof.
  destruct rows as [|row rows]; [apply appends_ret|].
  rewrite fmap_cons, join_comma, list_fmap_bind.
  cbn [array_loop negb].
  change (json_dumps (indent cfg) row ++ ?t)
    with ([] ++ json_dumps (indent cfg) row ++ t).
  apply appends_bind; [apply appends_ret|].
  apply appends_bind; [apply appends_write|].
  apply appends_array_loop_rest.
Qed.

Lemma with_open_w_Ok tmp body t w w' :
  appends tmp body t ->
  with_open_w fault tmp body w = (Ok tt, w') ->
  files w' !! tmp = Some t.
Proof.
  intros Hb H. unfold with_open_w in H.
  apply bind_Ok_inv in H as ([] & w1 & Ho & H).
  unfold open_w in Ho. apply bind_Ok_inv in Ho as (u & w0 & Hs & Ho).
  cbn in Ho. injection Ho as <-.
  destruct (body _) as [[[]|e|] w2] eqn:Hbody.
  - unfold close in H. apply syscall_Ok_inv in H as (-> & _).
    eapply (Hb _ _ []) in Hbody; [done|]. cbn. by rewrite lookup_insert_eq.
  - destruct (close fault w2) as [[[]|e'|] w3]; done.
  - done.
Qed.

(** When [_write_json] returns, the iterator ended without an exception
    and the temporary file holds the whole document. *)
Lemma with_open_w_Ok_body tmp body w w' :
  with_open_w fault tmp body w = (Ok tt, w') ->
  exists w1 w2, body w1 = (Ok tt, w2).
Proof.
  intros H. unfold with_open_w in H.
  apply bind_Ok_inv in H as ([] & w1 & _ & H).
  destruct (body w1) as [[[]|e|] w2] eqn:Hbody; [eauto| |done].
  destruct (close fault w2) as [[[]|e'|] w3]; done.
Qed.

Lemma write_json_Ok cfg rows tmp w w' :
  _write_json fault cfg rows tmp w = (Ok tt, w') ->
  rows.2 = None /\ files w' !! tmp = Some (document cfg rows.1).
Proof.
  unfold _write_json, document. intros H.
  destruct (json_lines cfg).
  - split.
    + apply with_open_w_Ok_body in H as (w1 & w2 & H).
      apply bind_Ok_inv in H as ([] & w3 & _ & H). by destruct rows.2.
    + eapply with_open_w_Ok; [|exact H].
      rewrite <- (app_nil_r (rows.1 ≫= _)).
      apply appends_bind; [apply appends_lines_loop|].
      apply appends_stream_end.
  - split.
    + apply with_open_w_Ok_body in H as (w1 & w2 & H).
      apply bind_Ok_inv in H as ([] & w3 & _ & H).
      apply bind_Ok_inv in H as ([] & w4 & _ & H).
      apply bind_Ok_inv in H as ([] & w5 & H & _). by destruct rows.2.
    + eapply with_open_w_Ok; [|exact H].
      apply appends_bind; [apply appends_write|].
      apply appends_bind; [apply appends_array_loop|].
      change (txt "]") with ([] ++ txt "]").
      apply appends_bind; [apply appends_stream_end|].
      apply appends_write.
Qed.

Lemma tame_write_phase cfg text tmp :
  tame (eq tmp) (write_phase cfg text tmp).
Proof.
  unfold write_phase. apply tame_try_except;
    [apply tame_header_attempt|intros _; apply tame_positional_attempt].
Qed.

Lemma lift_Ok_inv {A} (r : exn + A) w a w' :
  lift r w = (Ok a, w') -> r = inr a /\ w' = w.
Proof. destruct r; cbn; [done|]. by intros [= -> ->]. Qed.

Lemma header_rows_2 (rows : stream (list str)) :
  (header_rows rows).2 = rows.2.
Proof. unfold header_rows. by destruct rows.1. Qed.

Lemma fieldnames_of_head rows fieldnames :
  fieldnames_of rows = inr fieldnames -> fieldnames = head rows.1.
Proof.
  destruct rows as [[|r rs] [e|]]; cbn; congruence.
Qed.

Lemma header_attempt_Ok cfg text tmp w w' :
  header_attempt fault cfg text
    (reader_kwargs sniff cfg (take 4096 text)) tmp w = (Ok tt, w') ->
  exists rows, published_rows cfg text rows
    /\ files w' !! tmp = Some (document cfg rows).
Proof.
  unfold header_attempt. intros H.
  apply bind_Ok_inv in H as (d & w1 & Hd & H).
  apply lift_Ok_inv in Hd as [Hd ->].
  apply bind_Ok_inv in H as (fieldnames & w1 & Hf & H).
  apply lift_Ok_inv in Hf as [Hf ->].
  destruct (header_rejected fieldnames) eqn:Hrej; [done|].
  apply write_json_Ok in H as [Hend Hdoc].
  rewrite header_rows_2 in Hend.
  apply fieldnames_of_head in Hf as ->.
  exists (header_rows (csv_reader d text)).1. split; [|done].
  exists d. split; [done|]. split; [done|]. left. done.
Qed.

Lemma positional_attempt_Ok cfg text tmp w w' :
  positional_attempt fault cfg text
    (reader_kwargs sniff cfg (take 4096 text)) tmp w = (Ok tt, w') ->
  exists rows, published_rows cfg text rows
    /\ files w' !! tmp = Some (document cfg rows).
Proof.
  unfold positional_attempt. intros H.
  apply bind_Ok_inv in H as (d & w1 & Hd & H).
  apply lift_Ok_inv in Hd as [Hd ->].
  apply write_json_Ok in H as [Hend Hdoc].
  exists (positional_rows (csv_reader d text)).1. split; [|done].
  exists d. split; [done|]. split; [done|]. by right.
Qed.

Lemma write_phase_Ok cfg text tmp w w' :
  write_phase cfg text tmp w = (Ok tt, w') ->
  exists rows, published_rows cfg text rows
    /\ files w' !! tmp = Some (document cfg rows).
Proof.
  unfold write_phase, try_except. cbn zeta.
  destruct (header_attempt _ _ _ _ _ w) as [[[]|e|] w1] eqn:Hh.
  - intros [= <-]. by eapply header_attempt_Ok.
  - intros H. by eapply positional_attempt_Ok.
  - done.
Qed.

(** *** The output path and its temporary sibling *)

Lemma suffix_of_name_take (n : str) :
  take (length n - length (suffix_of_name n)) n ++ suffix_of_name n = n.
Proof.
  unfold suffix_of_name.
  destruct ((0 <? rfind n ".") && _) eqn:Hc.
  - apply andb_true_iff in Hc as [H0 H1].
    apply Z.ltb_lt in H0, H1.
    rewrite length_drop.
    replace (length n - (length n - Z.to_nat (rfind n ".")))%nat
      with (Z.to_nat (rfind n ".")) by lia.
    apply take_drop.
  - rewrite app_nil_r. apply take_ge. cbn. lia.
Qed.

Lemma with_suffix_append (out : Path) (s : str) :
  name out <> [] ->
  with_suffix out (suffix out ++ s) = Some (parent out ++ [name out ++ s]).
Proof.
  intros Hn. unfold with_suffix. rewrite bool_decide_eq_false_2 by done.
  case_bool_decide as Hs.
  - by rewrite Hs.
  - unfold suffix. rewrite app_assoc. by rewrite suffix_of_name_take.
Qed.

Lemma with_suffix_name (p o : Path) (s : str) :
  s <> [] -> with_suffix p s = Some o -> name o <> [].
Proof.
  intros Hs. unfold with_suffix. case_bool_decide; [done|].
  intros [= <-]. rewrite name_snoc. intros Hc.
  assert (forall a : str, a ++ s <> []) as Hne.
  { intros a Ha. apply app_eq_nil in Ha as [_ ?]. done. }
  case_bool_decide; by apply Hne in Hc.
Qed.

Lemma path_snoc (p : Path) : name p <> [] -> p = parent p ++ [name p].
Proof.
  intros Hn. unfold parent, name. apply app_removelast_last.
  intros ->. by apply Hn.
Qed.

Lemma tmp_path_of_neq (out : Path) : tmp_path_of out <> out.
Proof.
  unfold tmp_path_of. intros H.
  assert (name (parent out ++ [name out ++ txt ".tmp"]) = name out) as Hn
    by (by rewrite H).
  rewrite name_snoc in Hn. apply (f_equal length) in Hn.
  rewrite length_app in Hn. cbn in Hn. lia.
Qed.

Lemma tmp_path_of_suffix (out : Path) :
  txt ".tmp" `suffix_of` name (tmp_path_of out).
Proof. unfold tmp_path_of. rewrite name_snoc. by exists (name out). Qed.

Lemma unique_loop_Ok fs base i fuel out :
  unique_loop fs base i fuel = Ok out ->
  name out <> [] /\ fs !! out = None.
Proof.
  revert i. induction fuel as [|fuel IH]; intros i; [done|].
  destruct (decide (name base = [])) as [Hn|Hn].
  { by rewrite unique_loop_noname. }
  rewrite unique_loop_step by done. unfold exists_.
  case_bool_decide as Hi; [apply IH|].
  intros [= <-]. split.
  - unfold candidate. rewrite name_snoc.
    destruct (stem base); done.
  - by apply eq_None_not_Some.
Qed.

Lemma resolve_path_Ok cfg csv_path fs out :
  resolve_path cfg csv_path fs = Ok out ->
  name out <> [] /\ (overwrite cfg = false -> fs !! out = None).
Proof.
  unfold resolve_path.
  destruct (with_suffix csv_path _) as [o|] eqn:Ho; [|done].
  apply with_suffix_name in Ho; [|by destruct (json_lines cfg)].
  destruct (overwrite cfg) eqn:Hov; cbn [orb].
  { intros [= <-]. unfold joinpath. by rewrite name_snoc. }
  unfold exists_. case_bool_decide as Hex; cbn [negb].
  - intros H%unique_loop_Ok. by destruct H.
  - intros [= <-]. unfold joinpath. rewrite name_snoc. split; [done|].
    intros _. by apply eq_None_not_Some.
Qed.

Lemma resolve_path_ends cfg csv_path fs :
  resolve_path cfg csv_path fs <> Loops.
Proof.
  unfold resolve_path.
  destruct (with_suffix csv_path _) as [o|] eqn:Ho; [|done].
  cbn zeta.
  destruct (unique_out_path_total cfg (joinpath (out_dir cfg) (name o))
              {| files := fs; now := 0; ops := 0; log := []; seen := [] |})
    as [(out & H & _)|H];
    unfold _unique_out_path in H; cbn [files] in H;
    destruct (overwrite cfg || negb (exists_ fs _)); congruence.
Qed.

Lemma convert_file_unfold cfg csv_path w :
  _convert_file fault sniff cfg csv_path w
  = let w0 := logged (InfoConverting (rel_of cfg csv_path)) w in
    match resolve_path cfg csv_path (files w) with
    | Ok out => convert_tail cfg csv_path out w0
    | Raise e => (Raise e, w0)
    | Loops => (Loops, w0)
    end.
Proof.
  unfold _convert_file, resolve_path, out_base.
  rewrite bind_unfold. cbn [logging].
  fold (logged (InfoConverting (rel_of cfg csv_path)) w).
  destruct (with_suffix csv_path _) as [o|]; [|done].
  cbn -[unique_loop]. rewrite bind_unfold.
  unfold _unique_out_path. cbn [files logged].
  destruct (overwrite cfg || negb (exists_ (files w) _)); [done|].
  by destruct (unique_loop _ _ _ _).
Qed.

Lemma tame_open_r P p : tame P (open_r fault p).
Proof.
  unfold open_r. apply tame_bind; [apply tame_syscall|]. intros _.
  apply tame_bind; [apply tame_get_files|]. intros fs.
  apply tame_lift_option.
Qed.

Lemma open_r_Ok p w text w' :
  open_r fault p w = (Ok text, w') -> files w !! p = Some text.
Proof.
  unfold open_r. intros H.
  apply bind_Ok_inv in H as (u & w1 & Hs & H).
  apply syscall_Ok_inv in Hs as (Hf & _).
  rewrite bind_unfold in H. cbn [get_files] in H. rewrite Hf in H.
  destruct (files w !! p); unfold lift_option, ret, raise in H;
    by simplify_eq.
Qed.

Lemma syscall_run w :
  syscall fault w
  = (if fault (ops w) then Raise OSError else Ok tt, ticked w).
Proof. unfold syscall. by destruct (fault (ops w)). Qed.

Lemma within_ticked P w : within P w (ticked w).
Proof. by apply within_same. Qed.

Lemma os_replace_run (P : Path -> Prop) src dst w :
  match os_replace fault src dst w with
  | (Ok _, w') =>
      exists c, files w !! src = Some c
        /\ files w' = <[dst := c]> (delete src (files w))
        /\ seen w' = files w' :: seen w /\ log w' = log w
  | (Raise _, w') => within P w w'
  | (Loops, _) => False
  end.
Proof.
  unfold os_replace. rewrite bind_unfold, syscall_run.
  destruct (fault (ops w)); [apply within_ticked|].
  rewrite bind_unfold. cbn [get_files]. rewrite bind_unfold.
  cbn [ticked files].
  destruct (files w !! src) as [c|] eqn:Hc;
    unfold lift_option, ret, raise, set_files; cbn [files seen log].
  - by exists c.
  - apply within_ticked.
Qed.

(** What the part of a conversion after the naming does: unless it
    returns, only the temporary sibling may have changed; when it returns,
    the temporary file held the whole document of one mode, and the last
    step moved it to the output path. *)
Lemma convert_tail_run cfg csv_path out w :
  name out <> [] ->
  match convert_tail cfg csv_path out w with
  | (Ok _, w') =>
      exists text rows w1,
        files w !! csv_path = Some text
        /\ published_rows cfg text rows
        /\ within (eq (tmp_path_of out)) w w1
        /\ files w1 !! tmp_path_of out = Some (document cfg rows)
        /\ files w' = <[out := document cfg rows]>
                        (delete (tmp_path_of out) (files w1))
        /\ seen w' = files w' :: seen w1
        /\ log w' = InfoWrote out :: log w
  | (Raise _, w') => within (eq (tmp_path_of out)) w w'
  | (Loops, _) => False
  end.
Proof.
  intros Hn. unfold convert_tail, mkdir.
  set (tmp := tmp_path_of out).
  rewrite bind_unfold, syscall_run.
  destruct (fault (ops w)); [apply within_ticked|].
  rewrite bind_unfold. unfold tmp_of. rewrite with_suffix_append by done.
  cbn [lift_option ret]. fold (tmp_path_of out). fold tmp.
  rewrite bind_unfold.
  destruct (tame_open_r (eq tmp) csv_path (ticked w)) as [Hw2 Hl2].
  destruct (open_r fault csv_path (ticked w)) as [[text|e|] w2] eqn:Hopen;
    cbn [fst snd] in *; [| |done].
  2:{ eapply within_trans; [apply within_ticked|done]. }
  apply open_r_Ok in Hopen. cbn [ticked files] in Hopen.
  assert (within (eq tmp) w w2) as Hww2.
  { eapply within_trans; [apply within_ticked|done]. }
  clear Hw2 Hl2.
  rewrite bind_unfold. fold (write_phase cfg text tmp).
  destruct (tame_write_phase cfg text tmp w2) as [Hw3 Hl3].
  destruct (write_phase cfg text tmp w2) as [[[]|e|] w3] eqn:Hwrite;
    cbn [fst snd] in *; [| |done].
  2:{ by eapply within_trans. }
  apply write_phase_Ok in Hwrite as (rows & Hrows & Hdoc).
  assert (within (eq tmp) w w3) as Hww3 by (by eapply within_trans).
  rewrite bind_unfold.
  pose proof (os_replace_run (eq tmp) tmp out w3) as Hrep.
  destruct (os_replace fault tmp out w3) as [[[]|e|] w4];
    [| |done].
  2:{ by eapply within_trans. }
  destruct Hrep as (c & Hc & Hfs & Hseen & Hlog).
  rewrite Hdoc in Hc. injection Hc as <-.
  cbn [logging]. exists text, rows, w3.
  cbn [files seen log]. rewrite Hlog, (within_log _ _ _ Hww3). done.
Qed.

(** The same for the whole of [_convert_file]. *)
Lemma convert_file_run cfg csv_path w :
  match _convert_file fault sniff cfg csv_path w with
  | (Ok _, w') =>
      exists out text rows w1,
        resolve_path cfg csv_path (files w) = Ok out
        /\ files w !! csv_path = Some text
        /\ published_rows cfg text rows
        /\ (exists new,
              seen w1 = new ++ seen w
              /\ Forall (fun fs => forall p, p <> tmp_path_of out ->
                                   fs !! p = files w !! p)
                        (files w1 :: new))
        /\ files w1 !! tmp_path_of out = Some (document cfg rows)
        /\ files w' = <[out := document cfg rows]>
                        (delete (tmp_path_of out) (files w1))
        /\ seen w' = files w' :: seen w1
        /\ log w' = InfoWrote out :: InfoConverting (rel_of cfg csv_path)
                       :: log w
  | (Raise _, w') =>
      exists new,
        seen w' = new ++ seen w
        /\ Forall (fun fs => forall p,
                     (forall out, resolve_path cfg csv_path (files w)
                                  = Ok out -> p <> tmp_path_of out) ->
                     fs !! p = files w !! p)
                  (files w' :: new)
  | (Loops, _) => False
  end.
Proof.
  rewrite convert_file_unfold. cbn zeta.
  pose proof (resolve_path_ends cfg csv_path (files w)) as Hends.
  destruct (resolve_path cfg csv_path (files w)) as [out|e|] eqn:Hres;
    [| |done].
  - apply resolve_path_Ok in Hres as [Hn _].
    pose proof (convert_tail_run cfg csv_path out
                  (logged (InfoConverting (rel_of cfg csv_path)) w) Hn)
      as Hrun.
    destruct (convert_tail _ _ _ _) as [[[]|e|] w']; [| |done].
    + destruct Hrun as (text & rows & w1 & Ht & Hr & Hw & Hd & Hf & Hs & Hl).
      exists out, text, rows, w1. split; [done|]. split; [done|].
      split; [done|]. split.
      { destruct Hw as (new & Hse & Hfo & _). exists new. split; [done|].
        eapply Forall_impl; [exact Hfo|]. intros fs H p Hp.
        apply H. congruence. }
      done.
    + destruct Hrun as (new & Hse & Hfo & _). exists new. split; [done|].
      eapply Forall_impl; [exact Hfo|]. intros fs H p Hp.
      apply H. intros <-. by eapply Hp.
  - exists []. split; [done|]. by repeat constructor.
Qed.

End Runs.

(** ** Atomic publication *)


(** ** Runs without injected failures *)

Lemma returns_ret : returns (ret tt).
Proof. intros w. by exists w. Qed.

Lemma returns_bind (m1 m2 : M unit) :
  returns m1 -> returns m2 -> returns (m1 ;; m2).
Proof.
  intros H1 H2 w. destruct (H1 w) as (w1 & Hw1).
  destruct (H2 w1) as (w2 & Hw2). exists w2.
  by rewrite (bind_Ok _ _ _ _ _ Hw1).
Qed.

Lemma returns_syscall : returns (syscall no_fault).
Proof. intros w. exists (ticked w). by rewrite syscall_run. Qed.

Lemma returns_write tmp s : returns (write no_fault tmp s).
Proof.
  intros w. unfold write. rewrite bind_unfold, syscall_run.
  cbn [no_fault]. rewrite bind_unfold. cbn [get_files]. eauto.
Qed.

Lemma returns_open_w tmp : returns (open_w no_fault tmp).
Proof.
  intros w. unfold open_w. rewrite bind_unfold, syscall_run.
  cbn [no_fault]. rewrite bind_unfold. cbn [get_files]. eauto.
Qed.

Lemma returns_with_open_w tmp body :
  returns body -> returns (with_open_w no_fault tmp body).
Proof.
  intros Hb w. unfold with_open_w.
  destruct (returns_open_w tmp w) as (w1 & Hw1).
  rewrite (bind_Ok _ _ _ _ _ Hw1).
  destruct (Hb w1) as (w2 & ->). apply returns_syscall.
Qed.

Lemma returns_lines_loop tmp rows : returns (lines_loop no_fault tmp rows).
Proof.
  induction rows as [|row rows IH]; cbn [lines_loop]; [apply returns_ret|].
  apply returns_bind; [apply returns_write|].
  apply returns_bind; [apply returns_write|apply IH].
Qed.

Lemma returns_array_loop cfg tmp first rows :
  returns (array_loop no_fault (indent cfg) tmp first rows).
Proof.
  revert first. induction rows as [|row rows IH]; intros first;
    cbn [array_loop]; [apply returns_ret|].
  apply returns_bind.
  { destruct first; cbn [negb]; [apply returns_ret|apply returns_write]. }
  apply returns_bind; [apply returns_write|apply IH].
Qed.

(** Without failures, [_write_json] on a sequence of rows that ends
    without an exception returns and leaves the document at [tmp]. *)
Lemma write_json_returns cfg (rows : stream pydict) tmp w :
  rows.2 = None ->
  exists w', _write_json no_fault cfg rows tmp w = (Ok tt, w')
    /\ files w' = <[tmp := document cfg rows.1]> (files w)
    /\ log w' = log w.
Proof.
  intros Hend.
  assert (returns (_write_json no_fault cfg rows tmp)) as Hret.
  { unfold _write_json. rewrite Hend. cbn [stream_end].
    destruct (json_lines cfg); apply returns_with_open_w.
    - apply returns_bind; [apply returns_lines_loop|apply returns_ret].
    - apply returns_bind; [apply returns_write|].
      apply returns_bind; [apply returns_array_loop|].
      apply returns_bind; [apply returns_ret|apply returns_write]. }
  destruct (Hret w) as (w' & Hw'). exists w'. split; [done|].
  pose proof (tame_write_json no_fault cfg rows tmp w) as [Hin _].
  rewrite Hw' in Hin. cbn [snd] in Hin.
  apply write_json_Ok in Hw' as [_ Hdoc].
  split; [|by eapply within_log].
  apply map_eq. intros p. destruct (decide (p = tmp)) as [->|Hp].
  - by rewrite lookup_insert_eq.
  - rewrite lookup_insert_ne by done. eapply within_files; [done|].
    congruence.
Qed.

Section NoFault.

Variable sniff : str -> option (ascii * ascii).

Lemma write_phase_returns cfg text tmp d w :
  make_dialect (reader_kwargs sniff cfg (take 4096 text)).1
               (reader_kwargs sniff cfg (take 4096 text)).2 = inr d ->
  (csv_reader d text).2 = None ->
  exists w', write_phase no_fault sniff cfg text tmp w = (Ok tt, w')
    /\ files w' = <[tmp := document cfg (records d text)]> (files w)
    /\ log w' = log w.
Proof.
  intros Hd Hend. unfold write_phase, try_except, records. cbn zeta.
  unfold header_attempt, positional_attempt. rewrite Hd.
  rewrite !bind_unfold. cbn [lift ret].
  assert (fieldnames_of (csv_reader d text)
          = inr (head (csv_reader d text).1)) as ->.
  { destruct (csv_reader d text) as [[|r rs] [e|]]; cbn in *; congruence. }
  rewrite bind_unfold. cbn [lift ret].
  destruct (header_rejected (head (csv_reader d text).1)).
  - cbn [raise]. rewrite bind_unfold. cbn [ret].
    apply write_json_returns. done.
  - destruct (write_json_returns cfg (header_rows (csv_reader d text))
                tmp w) as (w' & Hw' & Hf & Hl).
    { by rewrite header_rows_2. }
    rewrite Hw'. eauto.
Qed.

(** A conversion without failures, on an existing input whose reader
    raises nothing, returns; the file system gains the document at the
    resolved output path and nothing else changes, but that a file
    standing at the temporary path is gone. *)
Lemma convert_file_returns cfg csv_path text out d w :
  files w !! csv_path = Some text ->
  resolve_path cfg csv_path (files w) = Ok out ->
  make_dialect (reader_kwargs sniff cfg (take 4096 text)).1
               (reader_kwargs sniff cfg (take 4096 text)).2 = inr d ->
  (csv_reader d text).2 = None ->
  exists w', _convert_file no_fault sniff cfg csv_path w = (Ok tt, w')
    /\ files w' = <[out := document cfg (records d text)]>
                    (delete (tmp_path_of out) (files w))
    /\ log w' = InfoWrote out :: InfoConverting (rel_of cfg csv_path)
                   :: log w.
Proof.
  intros Ht Hres Hd Hend. rewrite convert_file_unfold, Hres. cbn zeta.
  apply resolve_path_Ok in Hres as [Hn _].
  unfold convert_tail, mkdir. rewrite bind_unfold, syscall_run.
  cbn [no_fault]. rewrite bind_unfold. unfold tmp_of.
  rewrite with_suffix_append by done. cbn [lift_option ret].
  fold (tmp_path_of out).
  rewrite bind_unfold. unfold open_r. rewrite bind_unfold, syscall_run.
  cbn [no_fault]. rewrite bind_unfold. cbn [get_files ticked files logged].
  rewrite Ht. cbn [lift_option ret].
  rewrite bind_unfold. fold (write_phase no_fault sniff cfg text
                               (tmp_path_of out)).
  destruct (write_phase_returns cfg text (tmp_path_of out) d
              (ticked (ticked (logged (InfoConverting (rel_of cfg csv_path))
                                 w)))) as (w3 & -> & Hf3 & Hl3); [done..|].
  rewrite bind_unfold. unfold os_replace.
  rewrite bind_unfold, syscall_run. cbn [no_fault].
  rewrite bind_unfold. cbn [get_files ticked files].
  rewrite bind_unfold, Hf3, lookup_insert_eq. cbn [lift_option ret].
  cbn [set_files logging]. eexists. split; [done|].
  cbn [files log ticked logged]. split.
  - by rewrite delete_insert_eq.
  - by rewrite Hl3.
Qed.

End NoFault.

(** A path that passes the extension test resolves to an output path. *)
Lemma resolve_path_csv (cfg : Config) (csv_path : Path)
    (fs : gmap Path str) :
  is_csv csv_path = true ->
  exists out, resolve_path cfg csv_path fs = Ok out.
Proof.
  intros Hcsv. apply is_csv_spec in Hcsv.
  assert (name csv_path <> []) as Hn.
  { intros Hn. unfold suffix in Hcsv. rewrite Hn in Hcsv. done. }
  unfold resolve_path, with_suffix.
  rewrite bool_decide_eq_false_2 by done.
  set (o := parent csv_path ++ _). cbn zeta.
  assert (name (joinpath (out_dir cfg) (name o)) <> []) as Hb.
  { unfold joinpath, o. rewrite !name_snoc. intros Hc.
    assert (forall a : str,
              a ++ (if json_lines cfg then txt ".jsonl" else txt ".json")
              <> []) as Hne.
    { intros a Ha. apply app_eq_nil in Ha as [_ Ha].
      by destruct (json_lines cfg). }
    case_bool_decide; by apply Hne in Hc. }
  pose (w := {| files := fs; now := 0; ops := 0; log := []; seen := [] |}).
  destruct (overwrite cfg) eqn:Hov; cbn [orb]; [eauto|].
  unfold exists_. case_bool_decide as Hex; cbn [negb]; [|eauto].
  destruct (unique_out_path_probe cfg _ w Hb Hov Hex)
    as (k & _ & Hrun & _).
  unfold _unique_out_path in Hrun. rewrite Hov in Hrun.
  unfold exists_ in Hrun. cbn [files w] in Hrun.
  rewrite bool_decide_eq_true_2 in Hrun by done. cbn [orb negb] in Hrun.
  injection Hrun as Hrun. eauto.
Qed.

(** ** Concrete inputs *)

Lemma csv_reader_ab :
  csv_reader excel ab_csv
  = ([[txt "a"; txt "b"]; [txt "1"; txt "2"]; [txt "3"; txt "4"]], None)
  /\ csv_reader excel (ab_csv ++ [LF]) = csv_reader excel ab_csv.
Proof. by vm_compute. Qed.


(** ** The round trip of the sample file *)

(** C2, as stated, fails: in array mode without indent the output is not
    the text without spaces, and in line mode the two lines are not the
    objects without spaces; [json.dumps] puts a space after each comma and
    each colon inside an object. *)
Lemma roundtrip_not_spaceless :
  let array := _convert_file no_fault sniff_comma
                 (default_config false false) data_csv
                 (world_with ab_csv) in
  let lines := _convert_file no_fault sniff_comma
                 (default_config true false) data_csv
                 (world_with ab_csv) in
  files array.2 !! data_json
    <> Some (jtxt "[{'a':'1','b':'2'},{'a':'3','b':'4'}]")
  /\ files array.2 !! data_json
     = Some (jtxt "[{'a': '1', 'b': '2'},{'a': '3', 'b': '4'}]")
  /\ files lines.2 !! [txt "out"; txt "data.jsonl"]
     <> Some (jtxt "{'a':'1','b':'2'}" ++ [LF]
              ++ jtxt "{'a':'3','b':'4'}" ++ [LF])
  /\ files lines.2 !! [txt "out"; txt "data.jsonl"]
     = Some (jtxt "{'a': '1', 'b': '2'}" ++ [LF]
             ++ jtxt "{'a': '3', 'b': '4'}" ++ [LF]).
Proof. vm_compute. split_and!; done. Qed.

(** C2, as the program has it.  Let a CSV file hold the header row [a,b]
    and the data rows [1,2] and [3,4], with or without a final line feed,
    under a name that passes the extension test; let no delimiter or quote
    character be configured and the sniffer infer the comma and the double
    quote, or fail; let no system call fail.  Then the conversion returns.
    In array mode without indent the output file holds
    [[{"a": "1", "b": "2"},{"a": "3", "b": "4"}]]: a comma without space
    between the records, a space after each comma and colon inside them.
    In line mode it holds two lines, one object of that form each, in the
    order of the rows. *)
Theorem roundtrip_sample (sniff : str -> option (ascii * ascii))
    (cfg : Config) (csv_path : Path) (w : World) (text : str) :
  is_csv csv_path = true ->
  files w !! csv_path = Some text ->
  text = ab_csv \/ text = ab_csv ++ [LF] ->
  truthy (delimiter cfg) = false -> truthy (quotechar cfg) = false ->
  sniff (take 4096 text) = None
  \/ sniff (take 4096 text) = Some (","%char, DQ) ->
  exists out w',
    resolve_path cfg csv_path (files w) = Ok out
    /\ _convert_file no_fault sniff cfg csv_path w = (Ok tt, w')
    /\ (json_lines cfg = false -> indent cfg = None ->
        files w' !! out
        = Some (jtxt "[{'a': '1', 'b': '2'},{'a': '3', 'b': '4'}]"))
    /\ (json_lines cfg = true ->
        files w' !! out
        = Some (jtxt "{'a': '1', 'b': '2'}" ++ [LF]
                ++ jtxt "{'a': '3', 'b': '4'}" ++ [LF])).
Proof.
  intros Hcsv Ht Htext Hd Hq Hsniff.
  destruct (resolve_path_csv cfg csv_path (files w) Hcsv) as (out & Hres).
  assert (reader_kwargs sniff cfg (take 4096 text) = (txt ",", [DQ]))
    as Hkw.
  { unfold reader_kwargs. rewrite Hd, Hq. cbn [negb].
    by destruct Hsniff as [-> | ->]. }
  assert (csv_reader excel text = csv_reader excel ab_csv) as Hrows.
  { destruct Htext as [-> | ->]; [done|apply csv_reader_ab]. }
  destruct (convert_file_returns sniff cfg csv_path text out excel w)
    as (w' & Hrun & Hf & _); [done|done|by rewrite Hkw| |].
  { rewrite Hrows. by vm_compute. }
  exists out, w'. split; [done|]. split; [done|].
  rewrite Hf, lookup_insert_eq. unfold records. rewrite Hrows.
  unfold document. split.
  - intros -> ->. by vm_compute.
  - intros ->. by vm_compute.
Qed.

Lemma roundtrip_sample_witness :
  exists out w',
    resolve_path (default_config false false) data_csv
      (files (world_with ab_csv)) = Ok out
    /\ _convert_file no_fault sniff_comma (default_config false false)
         data_csv (world_with ab_csv) = (Ok tt, w')
    /\ (json_lines (default_config false false) = false ->
        indent (default_config false false) = None ->
        files w' !! out
        = Some (jtxt "[{'a': '1', 'b': '2'},{'a': '3', 'b': '4'}]"))
    /\ (json_lines (default_config false false) = true ->
        files w' !! out
        = Some (jtxt "{'a': '1', 'b': '2'}" ++ [LF]
                ++ jtxt "{'a': '3', 'b': '4'}" ++ [LF])).
Proof.
  apply (roundtrip_sample sniff_comma (default_config false false)
           data_csv (world_with ab_csv) ab_csv).
  - by vm_compute.
  - by vm_compute.
  - by left.
  - reflexivity.
  - reflexivity.
  - by right.
Defined.

(** ** The empty input *)

Lemma csv_reader_empty d : csv_reader d [] = ([], None).
Proof. done. Qed.

(** C10.  Let the input file be empty, under a name that passes the
    extension test; let the delimiter and the quote character, configured
    or inferred, be single characters; let no system call fail.  Then the
    reader yields no first row, header mode is rejected with the
    ValueError of line 107 before anything is written, the positional
    retry yields no record, and the conversion returns: the output path
    holds the two characters [[]] in array mode and the empty text in line
    mode, put there by the last step alone, every earlier state of the file
    system having the output path as it was. *)
Theorem empty_input_published (sniff : str -> option (ascii * ascii))
    (cfg : Config) (csv_path : Path) (w : World) (d : Dialect) :
  is_csv csv_path = true ->
  files w !! csv_path = Some [] ->
  make_dialect (reader_kwargs sniff cfg []).1
               (reader_kwargs sniff cfg []).2 = inr d ->
  fieldnames_of (csv_reader d []) = inr None
  /\ header_rejected None = true
  /\ (forall tmp w0,
        header_attempt no_fault cfg [] (reader_kwargs sniff cfg []) tmp w0
        = (Raise ValueError, w0))
  /\ positional_rows (csv_reader d []) = ([], None)
  /\ exists out w' older,
       resolve_path cfg csv_path (files w) = Ok out
       /\ _convert_file no_fault sniff cfg csv_path w = (Ok tt, w')
       /\ files w' !! out = Some (if json_lines cfg then [] else txt "[]")
       /\ seen w' = files w' :: older ++ seen w
       /\ Forall (fun fs => fs !! out = files w !! out) older.
Proof.
  intros Hcsv Ht Hd. split; [done|]. split; [done|]. split.
  { intros tmp w0. unfold header_attempt. by rewrite Hd. }
  split; [done|].
  destruct (resolve_path_csv cfg csv_path (files w) Hcsv) as (out & Hres).
  destruct (convert_file_returns sniff cfg csv_path [] out d w)
    as (w' & Hrun & Hf & _); [done..|].
  pose proof (convert_file_run no_fault sniff cfg csv_path w) as Hstates.
  rewrite Hrun in Hstates.
  destruct Hstates as (out' & text & rows & w1 & Hres' & _ & _
                       & (new & Hse & Hfo) & _ & _ & Hs & _).
  rewrite Hres in Hres'. injection Hres' as <-.
  exists out, w', new. split; [done|]. split; [done|]. split.
  - rewrite Hf, lookup_insert_eq. unfold records, document.
    rewrite csv_reader_empty. cbn. by destruct (json_lines cfg).
  - split; [by rewrite Hs, Hse|].
    apply Forall_cons in Hfo as [_ Hfo].
    eapply Forall_impl; [exact Hfo|]. intros fs H. apply H.
    intros Heq. by apply (tmp_path_of_neq out).
Qed.

Lemma empty_input_published_witness :
  exists out w' older,
    resolve_path (default_config false false) data_csv
      (files (world_with [])) = Ok out
    /\ _convert_file no_fault sniff_fails (default_config false false)
         data_csv (world_with []) = (Ok tt, w')
    /\ files w' !! out = Some (txt "[]")
    /\ seen w' = files w' :: older ++ seen (world_with [])
    /\ Forall (fun fs => fs !! out = files (world_with []) !! out) older.
Proof.
  apply (empty_input_published sniff_fails (default_config false false)
           data_csv (world_with []) excel).
  - by vm_compute.
  - by vm_compute.
  - reflexivity.
Defined.

(** ** The headerless fallback *)

Lemma dict_set_fresh (d : pydict) k v :
  k ∉ d.*1 -> dict_set d k v = d ++ [(k, v)].
Proof.
  induction d as [|[k' v'] d IH]; intros Hk; [done|].
  cbn [dict_set]. rewrite fmap_cons in Hk.
  apply not_elem_of_cons in Hk as [Hne Hk]. cbn in Hne.
  rewrite bool_decide_eq_false_2 by congruence.
  by rewrite IH.
Qed.

Lemma foldl_dict_set_nodup (acc items : pydict) :
  NoDup ((acc ++ items).*1) ->
  foldl (fun d kv => dict_set d kv.1 kv.2) acc items = acc ++ items.
Proof.
  revert acc. induction items as [|[k v] items IH]; intros acc Hnd.
  - by rewrite app_nil_r.
  - cbn [foldl fst snd]. rewrite dict_set_fresh.
    + rewrite IH; rewrite <- app_assoc; done.
    + rewrite fmap_app, fmap_cons in Hnd. cbn in Hnd.
      apply NoDup_app in Hnd as (_ & Hdis & _).
      intros Hin. apply (Hdis k Hin). left.
Qed.

(** A comprehension over items with distinct keys builds the dictionary of
    those items, in their order. *)
Lemma dict_of_items_nodup (items : pydict) :
  NoDup items.*1 -> dict_of_items items = items.
Proof. intros Hnd. unfold dict_of_items. by rewrite foldl_dict_set_nodup. Qed.

Lemma col_inj : Inj (=) (=) col.
Proof.
  intros i j [= H]. apply str_of_nat_inj in H. lia.
Qed.

(** A positional record has one entry per cell, in column order, the cell
    at 0-based index [idx] under the key [col{idx+1}]. *)
Lemma positional_row_cells (row : list str) :
  positional_row row = imap (fun idx val => (col idx, JStr val)) row.
Proof.
  unfold positional_row. apply dict_of_items_nodup.
  rewrite fmap_imap.
  rewrite (imap_ext _ (fun idx _ => col idx)) by done.
  rewrite imap_seq_0. apply NoDup_fmap_2; [apply col_inj|apply NoDup_seq].
Qed.

Lemma header_rejected_blank (rows : list (list str)) :
  head rows = None
  \/ (exists hs cell, head rows = Some hs /\ cell ∈ hs /\ strip cell = []) ->
  header_rejected (head rows) = true.
Proof.
  intros [->|(hs & cell & -> & Hin & Hs)]; [done|].
  unfold header_rejected. destruct hs as [|h hs]; [done|].
  apply existsb_exists. exists cell.
  split; [by apply list_elem_of_In|]. by apply bool_decide_eq_true.
Qed.

(** C3.  Let the reader, built with a valid dialect, return no first row
    or a first row with a cell that is empty once stripped.  Then, under
    any injected failures, the header-mode attempt raises before it writes
    anything, and the conversion serializes what a fresh reader yields on
    the text from its start, every row mapped to a positional record, the
    first row included.  A positional record has one entry per cell of its
    row, in column order, keyed [col1], [col2], ...  When the reader raises
    nothing and no system call fails, the conversion returns and the
    output file holds the document of exactly these records. *)
Theorem headerless_fallback (fault : nat -> bool)
    (sniff : str -> option (ascii * ascii)) (cfg : Config) (text : str)
    (d : Dialect) :
  make_dialect (reader_kwargs sniff cfg (take 4096 text)).1
               (reader_kwargs sniff cfg (take 4096 text)).2 = inr d ->
  head (csv_reader d text).1 = None
  \/ (exists hs cell, head (csv_reader d text).1 = Some hs
                      /\ cell ∈ hs /\ strip cell = []) ->
  (forall tmp w, exists e,
      header_attempt fault cfg text
        (reader_kwargs sniff cfg (take 4096 text)) tmp w = (Raise e, w))
  /\ (forall tmp w,
        write_phase fault sniff cfg text tmp w
        = _write_json fault cfg
            (stream_map positional_row (csv_reader d text)) tmp w)
  /\ (forall row,
        positional_row row
        = imap (fun idx cell =>
                  (Some (txt "col" ++ str_of_nat (idx + 1)), JStr cell))
               row)
  /\ ((csv_reader d text).2 = None ->
      forall csv_path w out,
        files w !! csv_path = Some text ->
        resolve_path cfg csv_path (files w) = Ok out ->
        exists w',
          _convert_file no_fault sniff cfg csv_path w = (Ok tt, w')
          /\ files w' !! out
             = Some (document cfg
                       (positional_row <$> (csv_reader d text).1))).
Proof.
  intros Hd Hrej. apply header_rejected_blank in Hrej.
  assert (forall tmp w, exists e,
            header_attempt fault cfg text
              (reader_kwargs sniff cfg (take 4096 text)) tmp w
            = (Raise e, w)) as Hhead.
  { intros tmp w. unfold header_attempt. rewrite Hd.
    rewrite bind_unfold. cbn [lift ret]. rewrite bind_unfold.
    destruct (fieldnames_of (csv_reader d text)) as [e|fieldnames] eqn:Hf;
      cbn [lift ret raise]; [eauto|].
    apply fieldnames_of_head in Hf as ->. rewrite Hrej. eauto. }
  split; [done|]. split; [|split; [apply positional_row_cells|]].
  - intros tmp w. unfold write_phase, try_except. cbn zeta.
    destruct (Hhead tmp w) as (e & ->).
    unfold positional_attempt. by rewrite Hd.
  - intros Hend csv_path w out Ht Hres.
    destruct (convert_file_returns sniff cfg csv_path text out d w)
      as (w' & Hrun & Hf & _); [done..|].
    exists w'. split; [done|].
    rewrite Hf, lookup_insert_eq. unfold records. by rewrite Hrej.
Qed.

(** The sample of the specification: the first cell of the first row is
    empty. *)
Lemma headerless_fallback_witness :
  let text := txt ",b" ++ [LF] ++ txt "1,2" in
  (forall row,
     positional_row row
     = imap (fun idx cell =>
               (Some (txt "col" ++ str_of_nat (idx + 1)), JStr cell)) row)
  /\ exists w',
       _convert_file no_fault sniff_fails (default_config false false)
         data_csv (world_with text) = (Ok tt, w')
       /\ files w' !! data_json
          = Some (jtxt "[{'col1': '', 'col2': 'b'},{'col1': '1', 'col2': '2'}]").
Proof.
  cbn zeta.
  destruct (headerless_fallback no_fault sniff_fails
              (default_config false false)
              (txt ",b" ++ [LF] ++ txt "1,2") excel)
    as (_ & _ & Hcells & Hrun).
  - reflexivity.
  - right. exists [[]; txt "b"], []. split; [by vm_compute|].
    split; [by left|done].
  - split; [exact Hcells|].
    destruct (Hrun eq_refl data_csv
                (world_with (txt ",b" ++ [LF] ++ txt "1,2")) data_json)
      as (w' & Hw' & Hout); [by vm_compute|by vm_compute|].
    exists w'. split; [done|]. rewrite Hout. by vm_compute.
Defined.

(** ** The dialect fallback *)

Lemma bind_ext {A B} (m : M A) (k k' : A -> M B) w :
  (forall a w', m w = (Ok a, w') -> k a w' = k' a w') ->
  bind m k w = bind m k' w.
Proof.
  intros H. rewrite !bind_unfold.
  destruct (m w) as [[a|e|] w']; [by apply H|done|done].
Qed.

(** Two configurations that differ in the overrides only convert alike
    when they hand the same delimiter and quote character to the readers
    for the text of the input. *)
Lemma convert_file_overrides fault sniff cfg d q csv_path w :
  (forall text, files w !! csv_path = Some text ->
     reader_kwargs sniff cfg (take 4096 text)
     = reader_kwargs sniff (with_overrides cfg d q) (take 4096 text)) ->
  _convert_file fault sniff cfg csv_path w
  = _convert_file fault sniff (with_overrides cfg d q) csv_path w.
Proof.
  intros Hkw. unfold _convert_file.
  apply bind_ext. intros [] w0 Hlog.
  assert (files w0 = files w) as Hf0.
  { unfold logging in Hlog. by simplify_eq. }
  apply bind_ext. intros base w1 Hbase.
  assert (w1 = w0) as ->.
  { unfold out_base in Hbase.
    apply bind_Ok_inv in Hbase as (o & w2 & Ho & Hret).
    destruct (with_suffix _ _); unfold lift_option, ret, raise in *;
      by simplify_eq. }
  apply bind_ext. intros out w2 Hout.
  assert (w2 = w0) as ->.
  { unfold _unique_out_path in Hout.
    destruct (_ || _); by simplify_eq. }
  apply bind_ext. intros [] w3 Hmk.
  apply syscall_Ok_inv in Hmk as (Hf3 & _).
  apply bind_ext. intros tmp w4 Htmp.
  assert (w4 = w3) as ->.
  { unfold tmp_of in Htmp.
    destruct (with_suffix _ _); unfold lift_option, ret, raise in *;
      by simplify_eq. }
  apply bind_ext. intros text w5 Hopen.
  apply open_r_Ok in Hopen. rewrite Hf3, Hf0 in Hopen.
  cbn zeta. rewrite (Hkw text Hopen).
  change (header_attempt fault (with_overrides cfg d q))
    with (header_attempt fault cfg).
  change (positional_attempt fault (with_overrides cfg d q))
    with (positional_attempt fault cfg).
  done.
Qed.

(** C8.  When no delimiter and no quote character is configured and the
    sniffer fails on the sample of the input, the conversion (its result
    and every file it leaves, under any injected failures) is the one
    obtained by configuring the comma as the delimiter and the double quote
    as the quote character.  A configured delimiter, and a configured quote
    character, is what the readers get whatever the sniffer infers. *)
Theorem dialect_fallback (fault : nat -> bool)
    (sniff : str -> option (ascii * ascii)) (cfg : Config)
    (csv_path : Path) (w : World) :
  (truthy (delimiter cfg) = false -> truthy (quotechar cfg) = false ->
   (forall text, files w !! csv_path = Some text ->
                 sniff (take 4096 text) = None) ->
   _convert_file fault sniff cfg csv_path w
   = _convert_file fault sniff (with_overrides cfg (txt ",") [DQ])
       csv_path w)
  /\ (forall sample d, delimiter cfg = Some d -> d <> [] ->
        (reader_kwargs sniff cfg sample).1 = d)
  /\ (forall sample q, quotechar cfg = Some q -> q <> [] ->
        (reader_kwargs sniff cfg sample).2 = q).
Proof.
  split; [|split].
  - intros Hd Hq Hsniff. apply convert_file_overrides.
    intros text Ht. unfold reader_kwargs. rewrite Hd, Hq.
    cbn [negb]. by rewrite (Hsniff text Ht).
  - intros sample d Hd Hne. unfold reader_kwargs. rewrite Hd.
    by destruct d.
  - intros sample q Hq Hne. unfold reader_kwargs. rewrite Hq.
    by destruct q.
Qed.

Lemma dialect_fallback_witness :
  _convert_file no_fault sniff_fails (default_config false false) data_csv
    (world_with ab_csv)
  = _convert_file no_fault sniff_fails
      (with_overrides (default_config false false) (txt ",") [DQ])
      data_csv (world_with ab_csv)
  /\ (reader_kwargs sniff_comma
        (with_overrides (default_config false false) (txt ";") (txt "'"))
        ab_csv) = (txt ";", txt "'").
Proof.
  destruct (dialect_fallback no_fault sniff_fails
              (default_config false false) data_csv (world_with ab_csv))
    as (Hfall & _ & _).
  destruct (dialect_fallback no_fault sniff_comma
              (with_overrides (default_config false false) (txt ";")
                 (txt "'")) data_csv (world_with ab_csv))
    as (_ & Hd & Hq).
  split.
  - apply Hfall; reflexivity.
  - apply injective_projections.
    + apply Hd; [reflexivity|discriminate].
    + apply Hq; [reflexivity|discriminate].
Defined.

(** ** Output naming, end to end *)

Lemma extensions_no_dot :
  ("."%char ∉ txt "csv") /\ ("."%char ∉ txt "json")
  /\ ("."%char ∉ txt "jsonl").
Proof. split_and!; apply (bool_decide_unpack _); by vm_compute. Qed.

Section OutputNaming.

Variables (cfg : Config) (dir : Path) (nm : str).
Hypothesis Hnm : nm <> [].

Let ext : str := if json_lines cfg then txt ".jsonl" else txt ".json".
Let csv_path : Path := dir ++ [nm ++ txt ".csv"].
Let base : Path := out_dir cfg ++ [nm ++ ext].
Let cand (i : nat) : Path :=
  out_dir cfg ++ [nm ++ txt "_" ++ str_of_nat i ++ ext].

Lemma out_base_csv w : out_base cfg csv_path w = (Ok base, w).
Proof.
  unfold out_base, csv_path.
  change (txt ".csv") with ("."%char :: txt "csv").
  rewrite with_suffix_dot; [|done|done|apply extensions_no_dot].
  rewrite bind_unfold. cbn [lift_option ret]. by rewrite name_snoc.
Qed.

Lemma candidate_base i : candidate base i = cand i.
Proof.
  unfold base, cand, ext.
  destruct (json_lines cfg).
  - change (txt ".jsonl") with ("."%char :: txt "jsonl").
    rewrite candidate_dot; [done|done|done|apply extensions_no_dot].
  - change (txt ".json") with ("."%char :: txt "json").
    rewrite candidate_dot; [done|done|done|apply extensions_no_dot].
Qed.

Lemma name_base : name base <> [].
Proof. unfold base. rewrite name_snoc. by destruct nm. Qed.

Lemma resolve_path_csv_path fs :
  resolve_path cfg csv_path fs
  = if overwrite cfg || negb (exists_ fs base) then Ok base
    else unique_loop fs base 1 (S (size fs)).
Proof.
  unfold resolve_path, csv_path.
  change (txt ".csv") with ("."%char :: txt "csv").
  fold ext. rewrite with_suffix_dot; [|done|done|apply extensions_no_dot].
  unfold joinpath. by rewrite name_snoc.
Qed.

Lemma ext_length : (4 < length ext)%nat.
Proof. unfold ext. destruct (json_lines cfg); cbn; lia. Qed.

Lemma names_differ (a b : str) :
  length a <> length b -> out_dir cfg ++ [nm ++ a] <> out_dir cfg ++ [nm ++ b].
Proof.
  intros Hl H. apply app_inv_head in H. injection H as H.
  apply app_inv_head in H. by subst.
Qed.

Lemma tmp_path_of_snoc (d : Path) (n : str) :
  tmp_path_of (d ++ [n]) = d ++ [n ++ txt ".tmp"].
Proof. unfold tmp_path_of. by rewrite parent_snoc, name_snoc. Qed.

Lemma base_cand_differ :
  base <> cand 1 /\ cand 1 <> tmp_path_of base
  /\ base <> tmp_path_of (cand 1).
Proof.
  unfold base, cand. rewrite !tmp_path_of_snoc, <- !app_assoc.
  assert (str_of_nat 1 = txt "1") as -> by (by vm_compute).
  split_and!; apply names_differ; rewrite ?length_app;
    change (length (txt "_")) with 1%nat;
    change (length (txt "1")) with 1%nat;
    change (length (txt ".tmp")) with 4%nat; lia.
Qed.

(** Two conversions in a row of the same source, with overwriting off and
    neither [nm.ext] nor [nm_1.ext] in the output directory at the start. *)
Lemma convert_twice fault sniff w w1 w2 :
  overwrite cfg = false ->
  files w !! base = None -> files w !! cand 1 = None ->
  _convert_file fault sniff cfg csv_path w = (Ok tt, w1) ->
  _convert_file fault sniff cfg csv_path w1 = (Ok tt, w2) ->
  is_Some (files w1 !! base) /\ files w1 !! cand 1 = None
  /\ files w2 !! base = files w1 !! base /\ is_Some (files w2 !! cand 1)
  /\ log w2 = InfoWrote (cand 1) :: InfoConverting (rel_of cfg csv_path)
               :: InfoWrote base :: InfoConverting (rel_of cfg csv_path)
               :: log w.
Proof.
  intros Hov Hb Hc H1 H2.
  destruct base_cand_differ as (Hbc & Hct & Hbt).
  pose proof (convert_file_run fault sniff cfg csv_path w) as R1.
  rewrite H1 in R1.
  destruct R1 as (out1 & text1 & rows1 & v1 & Hres1 & _ & _
                  & (new1 & _ & Hfo1) & _ & Hf1 & _ & Hl1).
  rewrite resolve_path_csv_path in Hres1. unfold exists_ in Hres1.
  rewrite Hov, bool_decide_eq_false_2 in Hres1
    by (rewrite Hb; by intros [? ?]).
  cbn in Hres1. injection Hres1 as <-.
  apply Forall_cons in Hfo1 as [Hv1 _].
  assert (is_Some (files w1 !! base)) as Hb1.
  { rewrite Hf1, lookup_insert_eq. eauto. }
  assert (files w1 !! cand 1 = None) as Hc1.
  { rewrite Hf1, lookup_insert_ne, lookup_delete_ne by done.
    rewrite Hv1 by done. done. }
  pose proof (convert_file_run fault sniff cfg csv_path w1) as R2.
  rewrite H2 in R2.
  destruct R2 as (out2 & text2 & rows2 & v2 & Hres2 & _ & _
                  & (new2 & _ & Hfo2) & _ & Hf2 & _ & Hl2).
  rewrite resolve_path_csv_path in Hres2. unfold exists_ in Hres2.
  rewrite Hov, bool_decide_eq_true_2 in Hres2 by done.
  cbn [orb negb] in Hres2.
  destruct (unique_loop_first_free (files w1) base (S (size (files w1)))
              1 1) as (k & Hk & Hrun & _);
    [apply name_base|lia|by rewrite candidate_base|].
  assert (k = 1)%nat as -> by lia.
  rewrite Hrun, candidate_base in Hres2. injection Hres2 as <-.
  apply Forall_cons in Hfo2 as [Hv2 _].
  split; [done|]. split; [done|]. split; [|split].
  - rewrite Hf2, lookup_insert_ne, lookup_delete_ne by done.
    by apply Hv2.
  - rewrite Hf2, lookup_insert_eq. eauto.
  - by rewrite Hl2, Hl1.
Qed.

End OutputNaming.

(** C7.  For an input [dir/nm.csv] with a non-empty [nm]: the output path
    before probing is [nm.json] in array mode and [nm.jsonl] in line mode,
    in the output directory.  It is kept when overwriting is on or no file
    has that name.  With overwriting off and the name taken, the names
    [nm_1.ext], [nm_2.ext], ... are probed in order from 1, the loop ends,
    and the first free one is returned.  When neither [nm.ext] nor
    [nm_1.ext] exists at the start and the same source is converted twice
    with overwriting off, both conversions returning, the first writes
    [nm.ext], the second leaves it as it is and writes [nm_1.ext], a
    different path. *)
Theorem output_naming (fault : nat -> bool)
    (sniff : str -> option (ascii * ascii)) (cfg : Config) (dir : Path)
    (nm : str) (w : World) :
  nm <> [] ->
  let ext := if json_lines cfg then txt ".jsonl" else txt ".json" in
  let csv_path := dir ++ [nm ++ txt ".csv"] in
  let base := out_dir cfg ++ [nm ++ ext] in
  let cand := fun i : nat =>
    out_dir cfg ++ [nm ++ txt "_" ++ str_of_nat i ++ ext] in
  out_base cfg csv_path w = (Ok base, w)
  /\ (overwrite cfg = true \/ files w !! base = None ->
      _unique_out_path cfg base w = (Ok base, w))
  /\ (overwrite cfg = false -> is_Some (files w !! base) ->
      exists k, (1 <= k)%nat
        /\ _unique_out_path cfg base w = (Ok (cand k), w)
        /\ files w !! cand k = None
        /\ forall j, (1 <= j < k)%nat -> is_Some (files w !! cand j))
  /\ (overwrite cfg = false ->
      files w !! base = None -> files w !! cand 1%nat = None ->
      forall w1 w2,
        _convert_file fault sniff cfg csv_path w = (Ok tt, w1) ->
        _convert_file fault sniff cfg csv_path w1 = (Ok tt, w2) ->
        base <> cand 1%nat
        /\ is_Some (files w1 !! base) /\ files w1 !! cand 1%nat = None
        /\ files w2 !! base = files w1 !! base
        /\ is_Some (files w2 !! cand 1%nat)
        /\ log w2 = InfoWrote (cand 1%nat)
                     :: InfoConverting (rel_of cfg csv_path)
                     :: InfoWrote base
                     :: InfoConverting (rel_of cfg csv_path) :: log w).
Proof.
  intros Hnm. cbn zeta. split; [by apply out_base_csv|].
  split; [apply unique_out_path_keep|]. split.
  - intros Hov Hex.
    destruct (unique_out_path_probe cfg _ w (name_base cfg dir nm Hnm) Hov Hex)
      as (k & Hk & Hrun & Hfree & Hbelow).
    exists k. rewrite <- (candidate_base cfg nm Hnm k). split; [done|].
    split; [done|]. split; [done|].
    intros j Hj. rewrite <- (candidate_base cfg nm Hnm j). by apply Hbelow.
  - intros Hov Hb Hc w1 w2 H1 H2.
    split; [apply (base_cand_differ cfg nm)|].
    by eapply (convert_twice cfg dir nm Hnm).
Qed.

Lemma output_naming_witness :
  exists w1 w2,
    _convert_file no_fault sniff_fails (default_config false false)
      ([txt "watch"] ++ [txt "data" ++ txt ".csv"]) (world_with ab_csv)
    = (Ok tt, w1)
    /\ _convert_file no_fault sniff_fails (default_config false false)
         ([txt "watch"] ++ [txt "data" ++ txt ".csv"]) w1
       = (Ok tt, w2)
    /\ is_Some (files w2 !! ([txt "out"] ++ [txt "data" ++ txt ".json"]))
    /\ is_Some (files w2 !! ([txt "out"]
                             ++ [txt "data" ++ txt "_" ++ str_of_nat 1
                                 ++ txt ".json"])).
Proof.
  destruct (convert_file_returns sniff_fails (default_config false false)
              ([txt "watch"] ++ [txt "data" ++ txt ".csv"]) ab_csv
              data_json excel (world_with ab_csv))
    as (w1 & Hr1 & Hf1 & _); [by vm_compute..|].
  destruct (convert_file_returns sniff_fails (default_config false false)
              ([txt "watch"] ++ [txt "data" ++ txt ".csv"]) ab_csv
              [txt "out"; txt "data_1.json"] excel w1)
    as (w2 & Hr2 & Hf2 & _);
    [rewrite Hf1; by vm_compute|rewrite Hf1; by vm_compute
    |by vm_compute|by vm_compute|].
  exists w1, w2. split; [exact Hr1|]. split; [exact Hr2|].
  destruct (output_naming no_fault sniff_fails (default_config false false)
              [txt "watch"] (txt "data") (world_with ab_csv))
    as (_ & _ & _ & Htwice); [discriminate|].
  destruct (Htwice eq_refl) with w1 w2 as (_ & H1 & _ & H2 & H3 & _);
    [by vm_compute|by vm_compute|exact Hr1|exact Hr2|].
  split; [|exact H3].
  destruct H1 as [c Hc]. exists c. rewrite <- Hc. exact H2.
Defined.

(** ** The worker loop *)

Section Worker.

Variable fault : nat -> bool.
Variable env : nat -> gmap Path str -> gmap Path str.
Variable sniff : str -> option (ascii * ascii).
Variable cfg : Config.

Local Abbreviation pipeline := (pipeline fault env sniff cfg).

Lemma process_job_pipeline path :
  process_job fault env sniff cfg path
  = try_except (pipeline path)
      (fun e => logging (ErrorFailedToConvert path e)).
Proof. done. Qed.

Lemma stat_or_missing_ends path w :
  (stat_or_missing fault path w).1 <> Loops.
Proof.
  unfold stat_or_missing, try_except_FileNotFoundError, stat_st_size.
  rewrite !bind_unfold, syscall_run.
  destruct (fault (ops w)); [done|].
  rewrite !bind_unfold. cbn [get_files].
  destruct (files (ticked w) !! path); cbn; done.
Qed.

Lemma wait_loop_ends path window checks n last stable w :
  (wait_loop fault env path window checks n last stable w).1 <> Loops.
Proof.
  revert last stable w. induction n as [|n IH]; intros last stable w;
    [done|].
  cbn [wait_loop]. rewrite bind_unfold. cbn [sleep].
  rewrite bind_unfold.
  pose proof (stat_or_missing_ends path
                {| files := env (ops w) (files w); now := now w + window;
                   ops := S (ops w); log := log w;
                   seen := env (ops w) (files w) :: seen w |}) as Hs.
  destruct (stat_or_missing fault path _) as [[[size|]|e|] w1];
    cbn [fst] in *; [|done|done|done].
  destruct (size =? last)%nat; [|apply IH].
  destruct (checks <=? stable + 1)%nat; [done|apply IH].
Qed.

Lemma wait_stable_ends path window checks w :
  (_wait_stable fault env path window checks w).1 <> Loops.
Proof.
  unfold _wait_stable. rewrite bind_unfold.
  pose proof (stat_or_missing_ends path w) as Hs.
  destruct (stat_or_missing fault path w) as [[[last|]|e|] w1];
    cbn [fst] in *; [|done|done|done].
  apply wait_loop_ends.
Qed.

Lemma pipeline_ends path w : (pipeline path w).1 <> Loops.
Proof.
  unfold pipeline. rewrite bind_unfold.
  pose proof (wait_stable_ends path 600 3 w) as Hs.
  destruct (_wait_stable fault env path 600 3 w) as [[[]|e|] w1];
    cbn [fst] in *; [| |done|done]; cbn [negb].
  - pose proof (convert_file_run fault sniff cfg path w1) as Hrun.
    by destruct (_convert_file fault sniff cfg path w1) as [[[]|e|] w2].
  - done.
Qed.

Lemma process_job_returns path w :
  exists w', process_job fault env sniff cfg path w = (Ok tt, w').
Proof.
  rewrite process_job_pipeline. unfold try_except.
  pose proof (pipeline_ends path w) as He.
  destruct (pipeline path w) as [[[]|e|] w1]; cbn [fst] in *;
    [eauto|cbn; eauto|done].
Qed.

Lemma worker_main_app q1 q2 w :
  None ∉ q1 ->
  _worker_main fault env sniff cfg (q1 ++ q2) w
  = _worker_main fault env sniff cfg q2
      (_worker_main fault env sniff cfg q1 w).2
  /\ (_worker_main fault env sniff cfg q1 w).1 = Ok tt.
Proof.
  revert w. induction q1 as [|[path|] q1 IH]; intros w Hq.
  - done.
  - apply not_elem_of_cons in Hq as [_ Hq].
    cbn [_worker_main app]. rewrite !bind_unfold.
    destruct (process_job_returns path w) as (w' & ->). by apply IH.
  - exfalso. apply Hq. left.
Qed.

Lemma worker_main_returns q w :
  exists w', _worker_main fault env sniff cfg q w = (Ok tt, w').
Proof.
  revert w. induction q as [|[path|] q IH]; intros w; [by exists w| |by exists w].
  cbn [_worker_main]. rewrite bind_unfold.
  destruct (process_job_returns path w) as (w' & ->). apply IH.
Qed.

End Worker.

(** C9.  The body of the worker loop returns for every dequeued path, in
    every world and under every injected failure: no exception leaves it.
    When the stability check or the conversion raises, the body logs the
    failure with the path and the exception and does nothing else.  A
    conversion that raises leaves every state of the file system equal to
    the initial one at every path but the temporary sibling of the
    resolved output path; the output path itself is untouched.  So the
    worker, on a queue that begins with the paths [q1], whatever became of
    them, goes on with the rest of the queue, and it returns on every
    queue. *)
Theorem worker_isolation (fault : nat -> bool)
    (env : nat -> gmap Path str -> gmap Path str)
    (sniff : str -> option (ascii * ascii)) (cfg : Config) :
  (forall path w,
     exists w', process_job fault env sniff cfg path w = (Ok tt, w'))
  /\ (forall path w e w1,
        pipeline fault env sniff cfg path w = (Raise e, w1) ->
        process_job fault env sniff cfg path w
        = (Ok tt, logged (ErrorFailedToConvert path e) w1))
  /\ (forall path w e w',
        _convert_file fault sniff cfg path w = (Raise e, w') ->
        exists new, seen w' = new ++ seen w
          /\ Forall (fun fs =>
                match resolve_path cfg path (files w) with
                | Ok out =>
                    fs !! out = files w !! out
                    /\ forall p, p <> tmp_path_of out ->
                                 fs !! p = files w !! p
                | _ => fs = files w
                end) (files w' :: new))
  /\ (forall q1 q2 w,
        None ∉ q1 ->
        _worker_main fault env sniff cfg (q1 ++ q2) w
        = _worker_main fault env sniff cfg q2
            (_worker_main fault env sniff cfg q1 w).2)
  /\ (forall q w,
        exists w', _worker_main fault env sniff cfg q w = (Ok tt, w')).
Proof.
  split; [apply process_job_returns|]. split.
  { intros path w e w1 H. rewrite process_job_pipeline. unfold try_except.
    by rewrite H. }
  split.
  { intros path w e w' H.
    pose proof (convert_file_run fault sniff cfg path w) as Hrun.
    rewrite H in Hrun. destruct Hrun as (new & Hse & Hfo).
    exists new. split; [done|].
    eapply Forall_impl; [exact Hfo|]. intros fs Hfs.
    destruct (resolve_path cfg path (files w)) as [out|e'|] eqn:Hres.
    - assert (forall p, p <> tmp_path_of out -> fs !! p = files w !! p)
        as Hp.
      { intros p Hp. apply Hfs. by intros out' [= <-]. }
      split; [|done]. apply Hp. intros Heq.
      by apply (tmp_path_of_neq out).
    - apply map_eq. intros p. apply Hfs. intros out' [=].
    - apply map_eq. intros p. apply Hfs. intros out' [=]. }
  split; [intros q1 q2 w Hq; by apply worker_main_app|].
  apply worker_main_returns.
Qed.

(** ** Stability detection *)

(** Any change of size restarts the count: the counter the loop had is
    forgotten. *)
Lemma stable_loop_reset checks last stable size obs :
  size <> last ->
  stable_loop checks last stable (Some size :: obs)
  = ((stable_loop checks size 0 obs).1, S (stable_loop checks size 0 obs).2).
Proof.
  intros Hne. cbn [stable_loop].
  by rewrite (proj2 (Nat.eqb_neq size last) Hne).
Qed.

Lemma stable_loop_polls checks last stable obs :
  ((stable_loop checks last stable obs).2 <= length obs)%nat.
Proof.
  revert last stable. induction obs as [|[size|] obs IH]; intros last stable;
    cbn [stable_loop length]; [cbn [snd]; lia| |cbn [snd]; lia].
  destruct (size =? last)%nat.
  - destruct (checks <=? stable + 1)%nat; cbn [snd]; [lia|].
    specialize (IH last (stable + 1)%nat). lia.
  - cbn [snd]. specialize (IH size 0%nat). lia.
Qed.

Lemma fmap_Some_cons_inv (x : nat) (o : option nat) (l : list (option nat))
    (pre run : list nat) (rest : list (option nat)) :
  Some x :: o :: l = (Some <$> pre) ++ (Some <$> run) ++ rest ->
  (2 <= length run)%nat ->
  (pre = [] /\ exists run', run = x :: run'
      /\ o :: l = (Some <$> run') ++ rest)
  \/ (exists pre', pre = x :: pre'
        /\ o :: l = (Some <$> pre') ++ (Some <$> run) ++ rest).
Proof.
  intros H Hlen. destruct pre as [|p pre'].
  - left. split; [done|]. destruct run as [|r run']; [cbn in Hlen; lia|].
    cbn in H. injection H as -> H. eauto.
  - right. cbn in H. injection H as -> H. eauto.
Qed.

(** The loop succeeds exactly when its observations, the one before the
    loop included, begin with sizes only and among them [checks + 1] equal
    ones in a row (the counter [stable] standing for as many further equal
    observations before the first). *)
Lemma stable_loop_true checks last stable obs :
  (stable < checks)%nat ->
  (stable_loop checks last stable obs).1 = true <->
  (exists rest, obs = (Some <$> replicate (checks - stable) last) ++ rest)
  \/ (exists pre s rest,
        Some last :: obs
        = (Some <$> pre) ++ (Some <$> replicate (S checks) s) ++ rest).
Proof.
  revert last stable.
  induction obs as [|[size|] obs IH]; intros last stable Hst.
  - cbn [stable_loop fst]. split; [done|].
    intros [(rest & H)|(pre & s & rest & H)].
    + destruct (checks - stable)%nat eqn:E; [lia|done].
    + apply (f_equal length) in H.
      rewrite !length_app, !length_fmap, length_replicate in H.
      cbn in H. lia.
  - cbn [stable_loop].
    destruct (Nat.eqb_spec size last) as [->|Hne].
    + destruct (Nat.leb_spec checks (stable + 1)) as [Hle|Hgt].
      * cbn [fst]. split; [intros _|done]. left. exists obs.
        replace (checks - stable)%nat with 1%nat by lia. done.
      * cbn [fst]. rewrite IH by lia. split.
        -- intros [(rest & ->)|(pre & s & rest & H)].
           ++ left. exists rest.
              replace (checks - stable)%nat
                with (S (checks - (stable + 1))) by lia. done.
           ++ right. exists (last :: pre), s, rest. cbn. by rewrite H.
        -- intros [(rest & H)|(pre & s & rest & H)].
           ++ left. exists rest.
              replace (checks - stable)%nat
                with (S (checks - (stable + 1))) in H by lia.
              cbn in H. by injection H.
           ++ apply fmap_Some_cons_inv in H
                as [(-> & run' & Hrun & H)|(pre' & -> & H)];
                [| |rewrite length_replicate; lia].
              ** left. cbn in Hrun. injection Hrun as -> <-.
                 destruct checks as [|c]; [lia|]. cbn in H.
                 injection H as H.
                 replace c with ((S c - (stable + 1)) + stable)%nat in H
                   by lia.
                 rewrite replicate_add, fmap_app, <- app_assoc in H. eauto.
              ** right. eauto.
    + cbn [fst]. rewrite IH by lia. split.
      * intros [(rest & ->)|(pre & s & rest & H)].
        -- right. exists [last], size, rest.
           rewrite Nat.sub_0_r. done.
        -- right. exists (last :: pre), s, rest. cbn. by rewrite H.
      * intros [(rest & H)|(pre & s & rest & H)].
        -- destruct (checks - stable)%nat eqn:E; [lia|].
           cbn in H. injection H as H _. done.
        -- apply fmap_Some_cons_inv in H
             as [(-> & run' & Hrun & H)|(pre' & -> & H)];
             [| |rewrite length_replicate; lia].
           ++ cbn in Hrun. injection Hrun as -> <-.
              destruct checks as [|c]; [lia|]. cbn in H.
              injection H as H _. done.
           ++ right. eauto.
  - cbn [stable_loop fst]. split; [done|].
    intros [(rest & H)|(pre & s & rest & H)].
    + destruct (checks - stable)%nat eqn:E; [lia|done].
    + apply fmap_Some_cons_inv in H
        as [(-> & run' & Hrun & H)|(pre' & -> & H)];
        [| |rewrite length_replicate; lia].
      * cbn in Hrun. injection Hrun as -> <-.
        destruct checks as [|c]; [lia|]. done.
      * destruct pre' as [|p pre']; [|done].
        cbn in H. done.
Qed.

(** Three equal sizes at the polls are not enough when they differ from
    the size before them; a fourth equal observation is. *)
Example stable_loop_three_equal :
  stable_loop 3 10 0
    [Some 20; Some 20; Some 20; Some 30; Some 40; Some 50]%nat
  = (false, 6%nat)
  /\ stable_loop 3 10 0
       [Some 20; Some 20; Some 20; Some 20; Some 40; Some 50]%nat
     = (true, 4%nat).
Proof. done. Qed.

(** When the file is gone at a poll before which the loop has not
    succeeded, the loop fails at that poll. *)
Lemma stable_loop_gone checks last stable sizes rest :
  (stable_loop checks last stable (Some <$> sizes)).1 = false ->
  stable_loop checks last stable ((Some <$> sizes) ++ None :: rest)
  = (false, S (length sizes)).
Proof.
  revert last stable. induction sizes as [|size sizes IH];
    intros last stable; [done|].
  cbn [fmap list_fmap app stable_loop length].
  destruct (size =? last)%nat.
  - destruct (checks <=? stable + 1)%nat; [done|].
    cbn [fst]. intros H. by rewrite (IH _ _ H).
  - cbn [fst]. intros H. by rewrite (IH _ _ H).
Qed.

Section Stability.

Variable env : nat -> gmap Path str -> gmap Path str.
Variable path : Path.
Variable window : Z.

Local Abbreviation slept := (slept env window).
Local Abbreviation polled := (polled env window).
Local Abbreviation after := (after env window).
Local Abbreviation samples := (samples env path window).

Lemma stat_or_missing_no_fault w :
  stat_or_missing no_fault path w
  = (Ok (length <$> files w !! path), ticked w).
Proof.
  unfold stat_or_missing, try_except_FileNotFoundError, stat_st_size.
  rewrite !bind_unfold, syscall_run. cbn [no_fault].
  rewrite !bind_unfold. cbn [get_files ticked files].
  by destruct (files w !! path).
Qed.

Lemma wait_loop_samples checks n last stable w :
  wait_loop no_fault env path window checks n last stable w
  = (Ok (stable_loop checks last stable (samples n w)).1,
     after (stable_loop checks last stable (samples n w)).2 w).
Proof.
  revert last stable w. induction n as [|n IH]; intros last stable w;
    [done|].
  cbn [wait_loop samples stable_loop]. rewrite bind_unfold.
  unfold sleep. fold (slept w). cbv beta iota.
  rewrite bind_unfold, stat_or_missing_no_fault. fold (polled w).
  destruct (files (slept w) !! path) as [c|]; cbn [fmap option_fmap
    option_map]; [|done].
  destruct (length c =? last)%nat.
  - destruct (checks <=? stable + 1)%nat; [done|]. by rewrite IH.
  - by rewrite IH.
Qed.

Lemma after_now k w : now (after k w) = now w + window * Z.of_nat k.
Proof.
  revert w. induction k as [|k IH]; intros w; [cbn; lia|].
  cbn [after]. rewrite IH. cbn [polled ticked slept now]. lia.
Qed.

Lemma after_log k w : log (after k w) = log w.
Proof.
  revert w. induction k as [|k IH]; intros w; [done|].
  cbn [after]. by rewrite IH.
Qed.

Lemma samples_length n w : length (samples n w) = n.
Proof.
  revert w. induction n as [|n IH]; intros w; [done|].
  cbn [samples length]. by rewrite IH.
Qed.

End Stability.

Lemma run_of_sizes (o : list (option nat)) (pre : list nat) (s : nat)
    (n : nat) (rest : list (option nat)) :
  o = (Some <$> pre) ++ (Some <$> replicate (S (S n)) s) ++ rest ->
  o !! length pre = Some (Some s) /\ o !! S (length pre) = Some (Some s).
Proof.
  intros ->. split.
  - rewrite lookup_app_r by (rewrite length_fmap; lia).
    rewrite length_fmap, Nat.sub_diag. done.
  - rewrite lookup_app_r by (rewrite length_fmap; lia).
    rewrite length_fmap.
    replace (S (length pre) - length pre)%nat with 1%nat by lia. done.
Qed.

Lemma fmap_Some_run (sizes pre run : list nat) (rest : list (option nat)) :
  Some <$> sizes = (Some <$> pre) ++ (Some <$> run) ++ rest ->
  exists rest', sizes = pre ++ run ++ rest'.
Proof.
  intros H. apply fmap_app_inv in H as (l1 & l2 & H1 & H2 & ->).
  symmetry in H2. apply fmap_app_inv in H2 as (l3 & l4 & H3 & H4 & ->).
  apply (inj (fmap Some)) in H1, H3. subst. eauto.
Qed.

(** C4.  Let no system call fail, and let [o] be what [_wait_stable]
    observes when called from the worker (window 0.6 s, 3 checks): the
    size at the first [stat], then the sizes at up to 6 polls, [None]
    where the file is gone.  The call returns, after at most 6 polls,
    each 600 ms after the observation before it.  It returns True exactly
    when [o] begins with sizes only and among them four equal ones in a
    row: three polls in a row that find the size of the observation
    before them.  A poll that finds another size continues the loop with
    the counter at zero.  When the file is gone at an observation before
    which no such run occurred, the call returns False with no further
    poll.  When every observation differs from the one before it, the
    call returns False and the worker logs the warning and does nothing
    else: the file system is what the other processes made of it. *)
Theorem stability_detection (env : nat -> gmap Path str -> gmap Path str)
    (sniff : str -> option (ascii * ascii)) (cfg : Config) (path : Path)
    (w : World) :
  let w0 := ticked w in
  let o := (length <$> files w !! path) :: samples env path 600 6 w0 in
  exists (b : bool) (polls : nat),
    _wait_stable no_fault env path 600 3 w
    = (Ok b, after env 600 polls w0)
    /\ (polls <= 6)%nat
    /\ now (after env 600 polls w0) = now w + 600 * Z.of_nat polls
    /\ (b = true <->
        exists pre s rest,
          o = (Some <$> pre) ++ (Some <$> replicate 4 s) ++ rest)
    /\ (forall n last stable w1 c,
          files (slept env 600 w1) !! path = Some c ->
          length c <> last ->
          wait_loop no_fault env path 600 3 (S n) last stable w1
          = wait_loop no_fault env path 600 3 n (length c) 0
              (polled env 600 w1))
    /\ (forall sizes rest,
          o = (Some <$> sizes) ++ None :: rest ->
          ~ (exists pre s rest', sizes = pre ++ replicate 4 s ++ rest') ->
          b = false /\ polls = length sizes)
    /\ ((forall j x y, o !! j = Some x -> o !! S j = Some y -> x <> y) ->
        b = false
        /\ process_job no_fault env sniff cfg path w
           = (Ok tt, logged (WarningNeverStabilized path)
                       (after env 600 polls w0))).
Proof.
  cbn zeta.
  assert (forall n last stable w1 c,
            files (slept env 600 w1) !! path = Some c ->
            length c <> last ->
            wait_loop no_fault env path 600 3 (S n) last stable w1
            = wait_loop no_fault env path 600 3 n (length c) 0
                (polled env 600 w1)) as Hreset.
  { intros n last stable w1 c Hc Hne. rewrite !wait_loop_samples.
    cbn [samples]. rewrite Hc. cbn [fmap option_fmap option_map].
    by rewrite stable_loop_reset. }
  set (obs := samples env path 600 6 (ticked w)).
  assert (forall b polls,
            _wait_stable no_fault env path 600 3 w
            = (Ok b, after env 600 polls (ticked w)) ->
            (b = true <->
             exists pre s rest,
               (length <$> files w !! path) :: obs
               = (Some <$> pre) ++ (Some <$> replicate 4 s) ++ rest) ->
            (forall j x y,
               ((length <$> files w !! path) :: obs) !! j = Some x ->
               ((length <$> files w !! path) :: obs) !! S j = Some y ->
               x <> y) ->
            b = false
            /\ process_job no_fault env sniff cfg path w
               = (Ok tt, logged (WarningNeverStabilized path)
                           (after env 600 polls (ticked w)))) as Hworker.
  { intros b polls Hrun Hiff Hchg.
    assert (b = false) as ->.
    { destruct b; [|done]. destruct (proj1 Hiff eq_refl)
        as (pre & s & rest & Ho).
      apply run_of_sizes in Ho as [H1 H2]. by destruct (Hchg _ _ _ H1 H2). }
    split; [done|]. unfold process_job, try_except.
    rewrite bind_unfold, Hrun. done. }
  unfold _wait_stable. rewrite bind_unfold, stat_or_missing_no_fault.
  destruct (files w !! path) as [c|] eqn:Hc;
    cbn [fmap option_fmap option_map].
  - rewrite wait_loop_samples. fold obs.
    set (r := stable_loop 3 (length c) 0 obs).
    assert (r.1 = true <->
            exists pre s rest,
              Some (length c) :: obs
              = (Some <$> pre) ++ (Some <$> replicate 4 s) ++ rest)
      as Hiff.
    { unfold r. rewrite stable_loop_true by lia. split.
      - intros [(rest & H)|H]; [|done].
        exists [], (length c), rest. rewrite H. done.
      - intros H. by right. }
    exists r.1, r.2. split; [done|]. split.
    { pose proof (stable_loop_polls 3 (length c) 0 obs) as Hp.
      assert (length obs = 6%nat) as Hlen by apply samples_length.
      by rewrite Hlen in Hp. }
    split; [by rewrite after_now|]. split; [done|]. split; [done|].
    split.
    + intros sizes rest Ho Hno.
      destruct sizes as [|last sizes]; [done|].
      change ((Some <$> last :: sizes) ++ None :: rest)
        with (Some last :: ((Some <$> sizes) ++ None :: rest)) in Ho.
      injection Ho as <- Ho.
      assert ((stable_loop 3 (length c) 0 (Some <$> sizes)).1 = false)
        as Hfalse.
      { apply not_true_is_false. intros Ht.
        apply stable_loop_true in Ht as [(rest' & H)|(pre & s & rest' & H)];
          [| |lia].
        - apply Hno.
          apply (fmap_Some_run sizes [] (replicate 3 (length c))) in H
            as (rest'' & ->).
          by exists [], (length c), rest''.
        - apply Hno.
          apply (fmap_Some_run (length c :: sizes) pre (replicate 4 s)) in H
            as (rest'' & ->).
          eauto. }
      unfold r. rewrite Ho, (stable_loop_gone _ _ _ _ _ Hfalse). done.
    + intros Hchg. apply Hworker; [|exact Hiff|exact Hchg].
      unfold _wait_stable.
      rewrite bind_unfold, stat_or_missing_no_fault, Hc.
      cbn [fmap option_fmap option_map]. by rewrite wait_loop_samples.
  - exists false, 0%nat. split; [done|]. split; [lia|].
    split; [cbn; lia|].
    assert (false = true <->
            exists pre s rest,
              None :: obs
              = (Some <$> pre) ++ (Some <$> replicate 4 s) ++ rest)
      as Hiff.
    { split; [done|]. intros (pre & s & rest & H). by destruct pre. }
    split; [done|]. split; [done|]. split.
    + intros sizes rest Ho _. destruct sizes; [done|]. done.
    + intros Hchg. eapply Hworker; [|done|done].
      unfold _wait_stable.
      by rewrite bind_unfold, stat_or_missing_no_fault, Hc.
Qed.

(** ** Invariants of the debouncer *)

Section DebounceInvariants.

Variable fs_at : Z -> gmap Path str.

Lemma registered_pending_new delay_sec :
  registered_pending (new_debouncer delay_sec).
Proof. intros p i H. cbn in H. by rewrite lookup_empty in H. Qed.

Lemma trigger_unfold path d :
  trigger path d
  = let ts := match _timers d !! path with
              | Some t => threads (cancel t d)
              | None => threads d
              end in
    {| delay := delay d;
       _timers := <[path := length (threads d)]> (_timers d);
       threads := ts ++ [{| tm_path := path;
                            tm_deadline := clock d + delay d;
                            tm_finished := false; tm_phase := Waiting |}];
       clock := clock d; work_q := work_q d; calls := calls d |}.
Proof.
  unfold trigger. destruct (_timers d !! path) as [t|]; [|done].
  cbn. unfold with_threads, with_timers. cbn. by rewrite length_alter.
Qed.

Lemma trigger_threads_old path d j :
  (j < length (threads d))%nat ->
  threads (trigger path d) !! j
  = match _timers d !! path with
    | Some t => threads (cancel t d) !! j
    | None => threads d !! j
    end.
Proof.
  intros Hj. rewrite trigger_unfold. cbn.
  destruct (_timers d !! path) as [t|].
  - rewrite lookup_app_l; [done|]. cbn. by rewrite length_alter.
  - by rewrite lookup_app_l.
Qed.

Lemma trigger_threads_new path d :
  threads (trigger path d) !! length (threads d)
  = Some {| tm_path := path; tm_deadline := clock d + delay d;
            tm_finished := false; tm_phase := Waiting |}.
Proof.
  rewrite trigger_unfold. cbn.
  destruct (_timers d !! path) as [t|].
  - rewrite lookup_app_r; cbn; rewrite length_alter; [|done].
    by rewrite Nat.sub_diag.
  - rewrite lookup_app_r by done. by rewrite Nat.sub_diag.
Qed.

Lemma trigger_threads_inv path d j tm :
  threads (trigger path d) !! j = Some tm ->
  (j < length (threads d))%nat \/ j = length (threads d).
Proof.
  intros H. apply lookup_lt_Some in H. rewrite trigger_unfold in H.
  cbn in H. rewrite length_app in H. cbn in H.
  destruct (_timers d !! path); cbn in H; rewrite ?length_alter in H; lia.
Qed.

Lemma registered_pending_trigger path d :
  registered_pending d -> registered_pending (trigger path d).
Proof.
  intros Hd p i Hpi. rewrite trigger_unfold in Hpi. cbn in Hpi.
  destruct (decide (p = path)) as [->|Hne].
  - rewrite lookup_insert_eq in Hpi. injection Hpi as <-.
    rewrite trigger_threads_new. eauto.
  - rewrite lookup_insert_ne in Hpi by done.
    destruct (Hd p i Hpi) as (tm & Hi & Hp & Hf).
    rewrite trigger_threads_old by (by eapply lookup_lt_Some).
    destruct (_timers d !! path) as [t|] eqn:Ht; [|eauto].
    destruct (Hd path t Ht) as (tm' & Ht' & Hp' & _).
    cbn. rewrite list_lookup_alter_ne; [eauto|].
    intros ->. congruence.
Qed.

Lemma registered_pending_wake t d :
  registered_pending d -> registered_pending (wake t d).
Proof.
  intros Hd. unfold wake.
  destruct (threads d !! t) as [tm|] eqn:Ht; [|done].
  assert (forall ph, registered_pending (set_phase t ph d)) as Hset.
  { intros ph p i Hpi. destruct (Hd p i Hpi) as (tm' & Hi & Hp & Hf).
    cbn. destruct (decide (t = i)) as [->|Hne].
    - rewrite list_lookup_alter_eq, Hi. cbn. eauto.
    - rewrite list_lookup_alter_ne by done. eauto. }
  destruct (tm_phase tm); [|done|done].
  destruct (tm_finished tm); [apply Hset|].
  destruct (tm_deadline tm <=? clock d); [apply Hset|done].
Qed.

Lemma registered_pending_run t d :
  registered_pending d -> registered_pending (run fs_at t d).
Proof.
  intros Hd. unfold run.
  destruct (threads d !! t) as [tm|] eqn:Ht; [|done].
  destruct (tm_phase tm); [done| |done].
  intros p i Hpi. cbn in Hpi.
  destruct (decide (p = tm_path tm)) as [->|Hne].
  { by rewrite lookup_delete_eq in Hpi. }
  rewrite lookup_delete_ne in Hpi by done.
  destruct (Hd p i Hpi) as (tm' & Hi & Hp & Hf).
  cbn. rewrite list_lookup_alter_ne; [eauto|].
  intros ->. congruence.
Qed.

Lemma registered_pending_step d e :
  registered_pending d -> registered_pending (step fs_at d e).
Proof.
  intros Hd. destruct e as [path| |t|t]; cbn [step].
  - by apply registered_pending_trigger.
  - done.
  - by apply registered_pending_wake.
  - by apply registered_pending_run.
Qed.

Lemma registered_pending_run_events es d :
  registered_pending d -> registered_pending (run_events fs_at es d).
Proof.
  revert d. induction es as [|e es IH]; intros d Hd; [done|].
  apply IH. by apply registered_pending_step.
Qed.

Lemma delay_step d e : delay (step fs_at d e) = delay d.
Proof.
  destruct e as [path| |t|t]; cbn [step].
  - by rewrite trigger_unfold.
  - done.
  - unfold wake. destruct (threads d !! t) as [tm|]; [|done].
    destruct (tm_phase tm); [|done|done].
    destruct (tm_finished tm); [done|].
    by destruct (tm_deadline tm <=? clock d).
  - unfold run. destruct (threads d !! t) as [tm|]; [|done].
    by destruct (tm_phase tm).
Qed.

End DebounceInvariants.

Lemma jobs_enqueue (fs : gmap Path str) (wq : list (option Path))
    (q path : Path) :
  length (filter (fun o => o = Some path) (enqueue fs wq q))
  = (length (filter (fun o => o = Some path) wq)
     + if bool_decide (q = path) && accepts fs q then 1 else 0)%nat.
Proof.
  unfold enqueue, accepts.
  destruct (is_csv q), (is_probably_temp q), (exists_ fs q);
    cbn [negb orb andb]; rewrite ?andb_false_r; try lia.
  rewrite andb_true_r, filter_app, length_app.
  case_bool_decide as Hq.
  - subst. by rewrite filter_cons_True.
  - rewrite filter_cons_False; [done|]. congruence.
Qed.

Section Burst.

Variable fs_at : Z -> gmap Path str.
Variable path : Path.

Local Abbreviation armed := (armed path).
Local Abbreviation fired := (fired fs_at path).
Local Abbreviation coalesced := (coalesced fs_at path).

Lemma armed_tick gap d : armed gap d -> armed (gap + 1) (tick d).
Proof.
  intros (i & tm & Hi & Ht & Hp & Hf & Hd & Hph & Hdead & Hc & Hj).
  exists i, tm. cbn. split_and!; try done; [lia|].
  destruct Hph as [?|[? ?]]; [by left|right; split; [done|lia]].
Qed.

Lemma fired_tick gap d : fired gap d -> fired (gap + 1) (tick d).
Proof.
  intros (Hm & Hdead & Hc & Hj & Hg). split_and!; try done. cbn. lia.
Qed.

Lemma armed_trigger_same gap d :
  armed gap d -> gap < delay d -> armed 0 (trigger path d).
Proof.
  intros (i & tm & Hi & Ht & Hp & Hf & Hd & Hph & Hdead & Hc & Hj) Hgap.
  destruct Hph as [Hph|[_ ?]]; [|lia].
  exists (length (threads d)),
    {| tm_path := path; tm_deadline := clock d + delay d;
       tm_finished := false; tm_phase := Waiting |}.
  split; [rewrite trigger_unfold; cbn; by rewrite lookup_insert_eq|].
  split; [apply trigger_threads_new|]. split; [done|]. split; [done|].
  split; [rewrite trigger_unfold; cbn; lia|]. split; [by left|].
  split; [|by rewrite trigger_unfold].
  intros j tm' Hj' Hp' Hne.
  destruct (trigger_threads_inv _ _ _ _ Hj') as [Hlt|?]; [|done].
  rewrite trigger_threads_old, Hi in Hj' by done. cbn in Hj'.
  destruct (decide (i = j)) as [<-|Hij].
  - rewrite list_lookup_alter_eq, Ht in Hj'. cbn in Hj'.
    injection Hj' as <-. split; cbn; [done|]. by rewrite Hph.
  - rewrite list_lookup_alter_ne in Hj' by done. by eapply Hdead.
Qed.

Lemma armed_trigger_other gap d q :
  registered_pending d -> q <> path ->
  armed gap d -> armed gap (trigger q d).
Proof.
  intros Hreg Hq (i & tm & Hi & Ht & Hp & Hf & Hd & Hph & Hdead & Hc & Hj).
  assert (forall j tm', threads d !! j = Some tm' -> tm_path tm' = path ->
            threads (trigger q d) !! j = Some tm') as Hkeep.
  { intros j tm' Hj' Hp'.
    rewrite trigger_threads_old by (by eapply lookup_lt_Some).
    destruct (_timers d !! q) as [t|] eqn:Hqt; [|done].
    destruct (Hreg q t Hqt) as (tq & Htq & Hpq & _).
    cbn. rewrite list_lookup_alter_ne; [done|]. intros ->. congruence. }
  exists i, tm.
  split; [rewrite trigger_unfold; cbn; by rewrite lookup_insert_ne|].
  split; [by apply Hkeep|]. split; [done|]. split; [done|].
  split; [by rewrite trigger_unfold|]. split; [by rewrite trigger_unfold|].
  split; [|by rewrite trigger_unfold].
  intros j tm' Hj' Hp' Hne.
  destruct (trigger_threads_inv _ _ _ _ Hj') as [Hlt| ->].
  - destruct (lookup_lt_is_Some_2 _ _ Hlt) as [tm0 Htm0].
    destruct (decide (tm_path tm0 = path)) as [Hp0|Hp0].
    + rewrite (Hkeep _ _ Htm0 Hp0) in Hj'. injection Hj' as <-.
      by eapply Hdead.
    + exfalso. rewrite trigger_threads_old in Hj' by done.
      destruct (_timers d !! q) as [t|]; [|congruence].
      cbn in Hj'. destruct (decide (t = j)) as [->|Htj].
      * rewrite list_lookup_alter_eq, Htm0 in Hj'. cbn in Hj'.
        injection Hj' as <-. done.
      * rewrite list_lookup_alter_ne in Hj' by done. congruence.
  - rewrite trigger_threads_new in Hj'. injection Hj' as <-. done.
Qed.

Lemma fired_trigger_other gap d q :
  registered_pending d -> q <> path ->
  fired gap d -> fired gap (trigger q d).
Proof.
  intros Hreg Hq (Hm & Hdead & Hc & Hj & Hg).
  split; [rewrite trigger_unfold; cbn; by rewrite lookup_insert_ne|].
  split; [|by rewrite trigger_unfold].
  intros j tm' Hj' Hp'.
  destruct (trigger_threads_inv _ _ _ _ Hj') as [Hlt| ->].
  - rewrite trigger_threads_old in Hj' by done.
    destruct (_timers d !! q) as [t|] eqn:Hqt; [|by eapply Hdead].
    destruct (Hreg q t Hqt) as (tq & Htq & Hpq & _).
    cbn in Hj'. destruct (decide (t = j)) as [->|Htj].
    + rewrite list_lookup_alter_eq, Htq in Hj'. cbn in Hj'.
      injection Hj' as <-. cbn in Hp'. congruence.
    + rewrite list_lookup_alter_ne in Hj' by done. by eapply Hdead.
  - rewrite trigger_threads_new in Hj'. injection Hj' as <-. done.
Qed.

Lemma set_phase_lookup t ph d j :
  threads (set_phase t ph d) !! j
  = if decide (t = j)
    then (fun tm => {| tm_path := tm_path tm; tm_deadline := tm_deadline tm;
                       tm_finished := tm_finished tm; tm_phase := ph |})
           <$> threads d !! j
    else threads d !! j.
Proof.
  cbn. destruct (decide (t = j)) as [->|Hne].
  - by rewrite list_lookup_alter_eq.
  - by rewrite list_lookup_alter_ne.
Qed.

(** What a step of [wake] leaves of a timer: its path and its event, and
    a phase that is [Running] only if the timer was running already, or
    was not cancelled and has seen its instant pass. *)
Lemma wake_lookup t d j tm' :
  threads (wake t d) !! j = Some tm' ->
  exists tm, threads d !! j = Some tm
    /\ tm_path tm' = tm_path tm /\ tm_finished tm' = tm_finished tm
    /\ tm_deadline tm' = tm_deadline tm
    /\ (tm_phase tm' = tm_phase tm
        \/ (tm_phase tm = Waiting /\ tm_finished tm = true
            /\ tm_phase tm' = Exited)
        \/ (tm_phase tm = Waiting /\ tm_finished tm = false
            /\ tm_deadline tm <= clock d /\ tm_phase tm' = Running)).
Proof.
  unfold wake. intros H.
  destruct (threads d !! t) as [tm0|] eqn:Ht; [|eauto 10].
  destruct (tm_phase tm0) eqn:Hph; [|eauto 10|eauto 10].
  destruct (tm_finished tm0) eqn:Hfin.
  - rewrite set_phase_lookup in H. destruct (decide (t = j)) as [->|];
      [|eauto 10].
    rewrite Ht in H. cbn in H. injection H as <-. cbn. eauto 10.
  - destruct (Z.leb_spec (tm_deadline tm0) (clock d)); [|eauto 10].
    rewrite set_phase_lookup in H. destruct (decide (t = j)) as [->|];
      [|eauto 10].
    rewrite Ht in H. cbn in H. injection H as <-. cbn.
    exists tm0. split_and!; try done. right. right. done.
Qed.

Lemma wake_same t d :
  _timers (wake t d) = _timers d /\ clock (wake t d) = clock d
  /\ delay (wake t d) = delay d /\ calls (wake t d) = calls d
  /\ work_q (wake t d) = work_q d.
Proof.
  unfold wake. destruct (threads d !! t) as [tm|]; [|done].
  destruct (tm_phase tm); [|done|done].
  destruct (tm_finished tm); [done|].
  by destruct (tm_deadline tm <=? clock d).
Qed.

Lemma wake_lookup_Some t d j tm :
  threads d !! j = Some tm -> is_Some (threads (wake t d) !! j).
Proof.
  intros Hj. unfold wake.
  destruct (threads d !! t) as [tm0|] eqn:Ht; [|eauto].
  destruct (tm_phase tm0); [|eauto|eauto].
  destruct (tm_finished tm0).
  - rewrite set_phase_lookup. destruct (decide (t = j)); rewrite Hj; eauto.
  - destruct (tm_deadline tm0 <=? clock d); [|eauto].
    rewrite set_phase_lookup. destruct (decide (t = j)); rewrite Hj; eauto.
Qed.

Lemma dead_wake t d j tm tm' :
  threads d !! j = Some tm -> dead tm ->
  threads (wake t d) !! j = Some tm' -> dead tm'.
Proof.
  intros Hj [Hfin Hph] Hj'.
  apply wake_lookup in Hj' as (tm0 & Hj0 & _ & Hf' & _ & Hcases).
  rewrite Hj in Hj0. injection Hj0 as <-.
  split; [congruence|].
  destruct Hcases as [->|[(_ & _ & ->)|(_ & ? & _)]];
    [done|done|congruence].
Qed.

Lemma armed_wake gap d t : armed gap d -> armed gap (wake t d).
Proof.
  intros (i & tm & Hi & Ht & Hp & Hf & Hd & Hph & Hdead & Hc & Hj).
  destruct (wake_same t d) as (Hm & Hcl & Hdl & Hca & Hwq).
  destruct (wake_lookup_Some t d i tm Ht) as [tm' Ht'].
  pose proof Ht' as Hinv.
  apply wake_lookup in Hinv as (tm0 & Ht0 & Hp' & Hf' & Hd' & Hcases).
  rewrite Ht in Ht0. injection Ht0 as <-.
  exists i, tm'. rewrite Hm, Hcl, Hdl.
  split; [done|]. split; [done|]. split; [congruence|].
  split; [congruence|]. split; [congruence|]. split.
  { destruct Hcases as [->|[(_ & ? & _)|(_ & _ & Hle & ->)]];
      [done|congruence|].
    right. split; [done|lia]. }
  split; [|by unfold calls_for, jobs_for; rewrite Hca, Hwq].
  intros j tm'' Hj' Hp'' Hne.
  pose proof Hj' as Hinv.
  apply wake_lookup in Hinv as (tm0 & Hj0 & Hp0 & _).
  eapply dead_wake; [exact Hj0| |exact Hj'].
  eapply Hdead; [exact Hj0|congruence|done].
Qed.

Lemma fired_wake gap d t : fired gap d -> fired gap (wake t d).
Proof.
  intros (Hm & Hdead & Hc & Hj & Hg).
  destruct (wake_same t d) as (Hm' & Hcl & Hdl & Hca & Hwq).
  split; [by rewrite Hm'|]. split.
  { intros j tm' Hj' Hp'. pose proof Hj' as Hinv.
    apply wake_lookup in Hinv as (tm0 & Hj0 & Hp0 & _).
    eapply dead_wake; [exact Hj0| |exact Hj'].
    eapply Hdead; [exact Hj0|congruence]. }
  unfold calls_for, jobs_for in *. by rewrite Hca, Hwq, Hdl.
Qed.

Lemma run_cases t d :
  run fs_at t d = d
  \/ exists tm,
       threads d !! t = Some tm /\ tm_phase tm = Running
       /\ run fs_at t d
          = {| delay := delay d;
               _timers := delete (tm_path tm) (_timers d);
               threads :=
                 alter (fun tm => {| tm_path := tm_path tm;
                                     tm_deadline := tm_deadline tm;
                                     tm_finished := true;
                                     tm_phase := Exited |}) t (threads d);
               clock := clock d;
               work_q := enqueue (fs_at (clock d)) (work_q d) (tm_path tm);
               calls := tm_path tm :: calls d |}.
Proof.
  unfold run. destruct (threads d !! t) as [tm|] eqn:Ht; [|by left].
  destruct (tm_phase tm) eqn:Hph; [by left| |by left].
  right. exists tm. done.
Qed.

Lemma calls_for_cons q d d' :
  calls d' = q :: calls d ->
  calls_for path d'
  = (calls_for path d + if bool_decide (q = path) then 1 else 0)%nat.
Proof.
  intros H. unfold calls_for. rewrite H. case_bool_decide as Hq.
  - rewrite filter_cons_True by done. cbn. lia.
  - rewrite filter_cons_False by done. lia.
Qed.

Lemma armed_run gap d t :
  armed gap d -> armed gap (run fs_at t d) \/ fired gap (run fs_at t d).
Proof.
  intros Harmed. destruct (run_cases t d) as [->|(tm0 & Ht0 & Hph0 & ->)];
    [by left|].
  destruct Harmed
    as (i & tm & Hi & Ht & Hp & Hf & Hd & Hph & Hdead & Hc & Hj).
  destruct (decide (t = i)) as [->|Hti].
  - right. rewrite Ht in Ht0. injection Ht0 as <-.
    destruct Hph as [?|[_ Hgap]]; [congruence|].
    split; [cbn; rewrite Hp; apply lookup_delete_eq|]. split.
    { intros j tm' Hj' Hp'. cbn in Hj'.
      destruct (decide (i = j)) as [<-|Hij].
      - rewrite list_lookup_alter_eq, Ht in Hj'. cbn in Hj'.
        injection Hj' as <-. done.
      - rewrite list_lookup_alter_ne in Hj' by done. by eapply Hdead. }
    split.
    { rewrite (calls_for_cons (tm_path tm) d) by done.
      rewrite Hc, Hp, bool_decide_eq_true_2 by done. done. }
    split; [|done].
    exists (clock d). unfold jobs_for in *. cbn [work_q].
    rewrite jobs_enqueue, Hj, Hp, bool_decide_eq_true_2 by done. done.
  - left.
    assert (tm_path tm0 <> path) as Hq.
    { intros Hq. destruct (Hdead t tm0 Ht0 Hq Hti) as [_ ?]. done. }
    exists i, tm.
    split; [cbn; by rewrite lookup_delete_ne|].
    split; [cbn; by rewrite list_lookup_alter_ne|].
    split; [done|]. split; [done|]. split; [done|]. split; [done|].
    split.
    { intros j tm' Hj' Hp' Hne. cbn in Hj'.
      destruct (decide (t = j)) as [<-|Htj].
      - rewrite list_lookup_alter_eq, Ht0 in Hj'. cbn in Hj'.
        injection Hj' as <-. done.
      - rewrite list_lookup_alter_ne in Hj' by done. by eapply Hdead. }
    split.
    { rewrite (calls_for_cons (tm_path tm0) d) by done.
      rewrite Hc, bool_decide_eq_false_2 by done. done. }
    unfold jobs_for in *. cbn [work_q].
    rewrite jobs_enqueue, Hj, bool_decide_eq_false_2 by done. done.
Qed.

Lemma fired_run gap d t : fired gap d -> fired gap (run fs_at t d).
Proof.
  intros Hfired. destruct (run_cases t d) as [->|(tm0 & Ht0 & Hph0 & ->)];
    [done|].
  destruct Hfired as (Hm & Hdead & Hc & (t1 & Hj) & Hg).
  assert (tm_path tm0 <> path) as Hq.
  { intros Hq. destruct (Hdead t tm0 Ht0 Hq) as [_ ?]. done. }
  split; [cbn; by rewrite lookup_delete_ne|]. split.
  { intros j tm' Hj' Hp'. cbn in Hj'.
    destruct (decide (t = j)) as [<-|Htj].
    - rewrite list_lookup_alter_eq, Ht0 in Hj'. cbn in Hj'.
      injection Hj' as <-. done.
    - rewrite list_lookup_alter_ne in Hj' by done. by eapply Hdead. }
  split.
  { rewrite (calls_for_cons (tm_path tm0) d) by done.
    rewrite Hc, bool_decide_eq_false_2 by done. done. }
  split; [|done].
  exists t1. unfold jobs_for in *. cbn [work_q].
  rewrite jobs_enqueue, Hj, bool_decide_eq_false_2 by done. cbn. lia.
Qed.

Lemma coalesced_run_events es :
  forall gap d,
    0 <= gap ->
    coalesced gap d -> rapid path (delay d) gap es = true ->
    exists gap', 0 <= gap' /\ coalesced gap' (run_events fs_at es d).
Proof.
  induction es as [|e es IH]; intros gap d Hpos [Hreg Hst] Hrapid;
    [by exists gap|].
  cbn [run_events foldl]. fold (run_events fs_at es (step fs_at d e)).
  pose proof (registered_pending_step fs_at d e Hreg) as Hreg'.
  pose proof (delay_step fs_at d e) as Hdl.
  destruct e as [q| |t|t]; cbn [rapid] in Hrapid; cbn [step] in *.
  - case_bool_decide as Hq.
    + subst q. apply andb_true_iff in Hrapid as [Hgap Hrapid].
      apply Z.ltb_lt in Hgap.
      apply (IH 0); [lia| |by rewrite Hdl]. split; [done|].
      destruct Hst as [Ha|(_ & _ & _ & _ & Hle)]; [|lia].
      left. by apply (armed_trigger_same gap).
    + apply (IH gap); [done| |by rewrite Hdl]. split; [done|].
      destruct Hst as [Ha|Hf];
        [left; by apply armed_trigger_other
        |right; by apply fired_trigger_other].
  - apply (IH (gap + 1)); [lia| |by rewrite Hdl]. split; [done|].
    destruct Hst as [Ha|Hf];
      [left; by apply armed_tick|right; by apply fired_tick].
  - apply (IH gap); [done| |by rewrite Hdl]. split; [done|].
    destruct Hst as [Ha|Hf];
      [left; by apply armed_wake|right; by apply fired_wake].
  - apply (IH gap); [done| |by rewrite Hdl]. split; [done|].
    destruct Hst as [Ha|Hf]; [by apply armed_run|right; by apply fired_run].
Qed.

(** The first notification for [path] arms its timer. *)
Lemma armed_first delay_sec :
  armed 0 (trigger path (new_debouncer delay_sec)).
Proof.
  exists 0%nat,
    {| tm_path := path; tm_deadline := 0 + delay_sec;
       tm_finished := false; tm_phase := Waiting |}.
  rewrite trigger_unfold. cbn.
  split; [by rewrite lookup_insert_eq|]. split; [done|]. split; [done|].
  split; [done|]. split; [lia|]. split; [by left|]. split; [|done].
  intros [|j] tm' Hj' _ Hne; [done|]. done.
Qed.

(** An armed timer whose instant has passed fires when its thread takes
    its two steps. *)
Lemma armed_fires gap d i :
  armed gap d -> delay d <= gap -> _timers d !! path = Some i ->
  fired gap (run fs_at i (wake i d)).
Proof.
  intros Ha Hgap Hi.
  pose proof (armed_wake gap d i Ha) as Ha'.
  destruct (wake_same i d) as (Hm & Hcl & Hdl & _).
  destruct Ha as (i0 & tm & Hi0 & Ht & Hp & Hf & Hd & Hph & _).
  rewrite Hi in Hi0. injection Hi0 as <-.
  assert (exists tm', threads (wake i d) !! i = Some tm'
                      /\ tm_phase tm' = Running) as (tm' & Ht' & Hph').
  { unfold wake. rewrite Ht. destruct Hph as [Hph|[Hph _]]; rewrite Hph.
    - rewrite Hf. destruct (Z.leb_spec (tm_deadline tm) (clock d)); [|lia].
      rewrite set_phase_lookup, decide_True, Ht by done. cbn. eauto.
    - eauto. }
  destruct (armed_run gap (wake i d) i Ha') as [Hstill|Hfired]; [|done].
  exfalso. destruct Hstill as (i1 & tm1 & Hi1 & Ht1 & _ & Hf1 & _).
  destruct (run_cases i (wake i d)) as [Heq|(tm2 & Ht2 & _ & Heq)].
  - unfold run in Heq. rewrite Ht', Hph' in Heq.
    apply (f_equal calls) in Heq. cbn in Heq.
    apply (f_equal length) in Heq. cbn in Heq. lia.
  - rewrite Heq in Hi1. cbn in Hi1. rewrite Ht' in Ht2.
    injection Ht2 as <-.
    destruct Ha' as (i2 & tm3 & Hi2 & Ht3 & Hp3 & _).
    rewrite Hm, Hi in Hi2. injection Hi2 as <-.
    rewrite Ht' in Ht3. injection Ht3 as <-.
    rewrite Hp3, lookup_delete_eq in Hi1. done.
Qed.

Lemma armed_ticks n gap d :
  armed gap d ->
  armed (gap + Z.of_nat n) (run_events fs_at (replicate n Tick) d)
  /\ _timers (run_events fs_at (replicate n Tick) d) = _timers d
  /\ delay (run_events fs_at (replicate n Tick) d) = delay d.
Proof.
  revert gap d. induction n as [|n IH]; intros gap d Ha.
  - cbn. by rewrite Z.add_0_r.
  - cbn [replicate run_events foldl step].
    fold (run_events fs_at (replicate n Tick) (tick d)).
    destruct (IH (gap + 1) (tick d) (armed_tick gap d Ha)) as (H1 & H2 & H3).
    split; [|by rewrite H2, H3].
    replace (gap + Z.of_nat (S n)) with (gap + 1 + Z.of_nat n) by lia.
    done.
Qed.

End Burst.

Lemma delay_run_events fs_at es d :
  delay (run_events fs_at es d) = delay d.
Proof.
  revert d. induction es as [|e es IH]; intros d; [done|].
  cbn [run_events foldl]. fold (run_events fs_at es (step fs_at d e)).
  by rewrite IH, delay_step.
Qed.

(** After a first notification for [path] and any events in which the
    notifications for [path] follow each other rapidly, the timer of the
    last of them is armed or has fired. *)
Lemma burst_coalesced fs_at delay_sec path es :
  rapid path delay_sec 0 es = true ->
  exists gap, 0 <= gap
    /\ coalesced fs_at path gap
         (run_events fs_at (Notify path :: es) (new_debouncer delay_sec)).
Proof.
  intros Hrapid. cbn [run_events foldl step].
  fold (run_events fs_at es (trigger path (new_debouncer delay_sec))).
  apply (coalesced_run_events fs_at path es 0); [done| |].
  - split; [|left; apply armed_first].
    apply registered_pending_trigger, registered_pending_new.
  - by rewrite trigger_unfold.
Qed.



(** Outside a burst the map can lose track of a live timer.  The first
    timer has tested its event and is about to call [_run] when a second
    notification arrives, a whole delay after the first; [_run] then pops
    the entry of the second timer, so a third notification finds nothing
    to cancel, and three calls of the action follow three
    notifications. *)
Example late_notification_race :
  let fs_at := fun _ : Z =>
    ({[ data_csv := txt "a,b" ]} : gmap Path str) in
  let d := run_events fs_at
             [Notify data_csv; Tick; Tick; Tick; Wake 0;
              Notify data_csv; Run 0; Notify data_csv;
              Tick; Tick; Tick; Wake 1; Wake 2; Run 1; Run 2]
             (new_debouncer 3) in
  calls_for data_csv d = 3%nat /\ jobs_for data_csv d = 3%nat.
Proof. by vm_compute. Qed.


(** * Further properties *)

(** ** More on names *)

Lemma rfind_from_snoc c s x i acc :
  rfind_from c (s ++ [x]) i acc
  = if ch_eqb x c then i + Z.of_nat (length s) else rfind_from c s i acc.
Proof. rewrite rfind_from_app. cbn [rfind_from]. done. Qed.

Lemma rfind_from_cases c s i acc :
  (rfind_from c s i acc = acc /\ (c ∉ s))
  \/ exists pre post, s = pre ++ c :: post /\ (c ∉ post)
       /\ rfind_from c s i acc = i + Z.of_nat (length pre).
Proof.
  induction s as [|x s IH] using rev_ind.
  - left. split; [done|]. apply not_elem_of_nil.
  - rewrite rfind_from_snoc. destruct (ch_eqb x c) eqn:E.
    + apply ch_eqb_true in E as ->. right. exists s, [].
      split; [done|]. split; [apply not_elem_of_nil|done].
    + apply ch_eqb_false in E.
      destruct IH as [[-> Hn]|(pre & post & -> & Hn & ->)].
      * left. split; [done|]. rewrite not_elem_of_app, not_elem_of_cons.
        split; [done|]. split; [done|apply not_elem_of_nil].
      * right. exists pre, (post ++ [x]).
        split; [by rewrite <- app_assoc|]. split; [|done].
        rewrite not_elem_of_app, not_elem_of_cons.
        split; [done|]. split; [done|apply not_elem_of_nil].
Qed.

(** A name either has no suffix and is its own stem, or it is a non-empty
    stem, a dot, and a non-empty extension without a dot. *)
Lemma suffix_of_name_cases (n : str) :
  (suffix_of_name n = [] /\ stem_of_name n = n)
  \/ exists pre ext, n = pre ++ "."%char :: ext
       /\ pre <> [] /\ ext <> [] /\ ("."%char ∉ ext)
       /\ suffix_of_name n = "."%char :: ext /\ stem_of_name n = pre.
Proof.
  unfold suffix_of_name, stem_of_name, rfind.
  destruct (rfind_from_cases "."%char n 0 (-1))
    as [[-> _]|(pre & ext & -> & Hn & ->)]; [by left|].
  destruct ((0 <? _) && _) eqn:E; [|by left].
  right. exists pre, ext. apply andb_true_iff in E as [E1 E2].
  apply Z.ltb_lt in E1, E2. rewrite length_app in E2. cbn [length] in E2.
  split; [done|]. split; [intros ->; cbn in E1; lia|].
  split; [intros ->; cbn in E2; lia|]. split; [done|].
  replace (Z.to_nat (0 + Z.of_nat (length pre))) with (length pre) by lia.
  by rewrite drop_app_length, take_app_length.
Qed.

Lemma last_dot_unique (c : ascii) (p1 p2 e1 e2 : str) :
  p1 ++ c :: e1 = p2 ++ c :: e2 -> c ∉ e1 -> c ∉ e2 -> p1 = p2 /\ e1 = e2.
Proof.
  revert p2. induction p1 as [|x p1 IH]; intros [|y p2] H H1 H2.
  - by simplify_eq.
  - cbn in H. simplify_eq. exfalso. apply H1.
    rewrite elem_of_app, elem_of_cons. auto.
  - cbn in H. simplify_eq. exfalso. apply H2.
    rewrite elem_of_app, elem_of_cons. auto.
  - cbn in H. simplify_eq. destruct (IH p2) as [-> ->]; done.
Qed.

Lemma lower_length (s : str) : length (lower s) = length s.
Proof. apply length_fmap. Qed.

Lemma startswith_dot_tilde (n : str) :
  startswith n (txt ".~") = true -> startswith n (txt ".") = true.
Proof.
  unfold startswith. rewrite !bool_decide_eq_true.
  intros (k & ->). by exists ("~"%char :: k).
Qed.

Lemma csv_name_no_temp_suffix (n : str) :
  lower (suffix_of_name n) = txt ".csv" ->
  existsb (endswith n) TEMP_SUFFIXES = false.
Proof.
  intros Hl.
  destruct (suffix_of_name_cases n)
    as [[Hs _]|(pre & ext & -> & _ & _ & Hn & Hs & _)];
    [by rewrite Hs in Hl|].
  rewrite Hs in Hl.
  apply not_true_is_false. intros (t & Hin & He)%existsb_exists.
  apply bool_decide_eq_true in He as (k & He).
  assert (exists text, t = "."%char :: text /\ ("."%char ∉ text)
                       /\ lower ("."%char :: text) <> txt ".csv")
    as (text & -> & Ht & Hne).
  { cbn in Hin.
    destruct Hin as [<-|[<-|[<-|[<-|[]]]]]; eexists;
      (split; [reflexivity|]); split;
      try (apply (bool_decide_unpack _); by vm_compute);
      by vm_compute. }
  destruct (last_dot_unique _ _ _ _ _ He Hn Ht) as [_ ->]. exact (Hne Hl).
Qed.

(** X1.  For a path with the extension of a CSV file the suffix half of the
    temp test never fires. *)
Theorem csv_temp_by_prefix (path : Path) :
  is_csv path = true ->
  is_probably_temp path
  = startswith (name path) (txt ".") || startswith (name path) (txt "~$").
Proof.
  intros Hc%is_csv_spec. unfold is_probably_temp.
  unfold suffix in Hc. rewrite (csv_name_no_temp_suffix _ Hc).
  unfold TEMP_PREFIXES. cbn [existsb].
  pose proof (startswith_dot_tilde (name path)) as Hd.
  destruct (startswith (name path) (txt ".~")),
           (startswith (name path) (txt "~$")),
           (startswith (name path) (txt ".")); try done.
  all: by specialize (Hd eq_refl).
Qed.

(** The lock file of a spreadsheet is temp-like by its prefix. *)
Lemma csv_temp_by_prefix_witness :
  is_csv [txt "watch"; txt "~$data.csv"] = true
  /\ is_probably_temp [txt "watch"; txt "~$data.csv"]
     = startswith (name [txt "watch"; txt "~$data.csv"]) (txt ".")
       || startswith (name [txt "watch"; txt "~$data.csv"]) (txt "~$").
Proof.
  split; [by vm_compute|]. apply csv_temp_by_prefix. by vm_compute.
Defined.

(** ** What a conversion leaves alone *)

Lemma with_suffix_Some (p o : Path) (suf : str) :
  with_suffix p suf = Some o ->
  parent o = parent p /\ name o = stem p ++ suf /\ stem p <> [].
Proof.
  unfold with_suffix, stem, suffix.
  case_bool_decide as Hn; [done|]. intros [= <-].
  rewrite parent_snoc, name_snoc. split; [done|].
  destruct (suffix_of_name_cases (name p))
    as [[-> ->]|(pre & ext & Hp & Hpre & _ & _ & -> & ->)].
  - by rewrite bool_decide_eq_true_2.
  - rewrite bool_decide_eq_false_2 by done. split; [|done].
    rewrite Hp, length_app. cbn [length].
    replace (length pre + S (length ext) - S (length ext))%nat
      with (length pre) by lia.
    by rewrite take_app_length.
Qed.

Lemma unique_loop_candidate fs base i fuel out :
  unique_loop fs base i fuel = Ok out -> exists k, out = candidate base k.
Proof.
  revert i. induction fuel as [|fuel IH]; intros i; [done|].
  destruct (decide (name base = [])) as [Hn|Hn].
  - by rewrite unique_loop_noname.
  - rewrite unique_loop_step by done.
    destruct (exists_ fs (candidate base i)); [apply IH|].
    intros [= <-]. eauto.
Qed.

(** The shape of every output path: in the output directory, the stem of
    the input, perhaps a counter, and the extension of the mode. *)
Lemma resolve_path_shape cfg csv_path fs out :
  resolve_path cfg csv_path fs = Ok out ->
  exists nm e, nm <> [] /\ e <> [] /\ ("."%char ∉ e)
    /\ lower ("."%char :: e) <> txt ".csv"
    /\ out = out_dir cfg ++ [nm ++ "."%char :: e].
Proof.
  unfold resolve_path.
  destruct (with_suffix _ _) as [o|] eqn:Ho; [|done].
  apply with_suffix_Some in Ho as (_ & Hname & Hstem).
  set (e := if json_lines cfg then txt "jsonl" else txt "json").
  assert (e <> [] /\ ("."%char ∉ e) /\ lower ("."%char :: e) <> txt ".csv"
          /\ name o = stem csv_path ++ "."%char :: e) as (He & Hd & Hl & Hn).
  { unfold e. rewrite Hname. destruct (json_lines cfg);
      (split; [done|]); (split; [apply extensions_no_dot|]); done. }
  unfold joinpath. rewrite Hn.
  destruct (_ || _).
  - intros [= <-]. exists (stem csv_path), e. done.
  - intros (k & ->)%unique_loop_candidate.
    rewrite candidate_dot by done.
    exists (stem csv_path ++ txt "_" ++ str_of_nat k), e.
    split; [by destruct (stem csv_path)|]. rewrite <- !app_assoc. done.
Qed.

Lemma is_csv_false_dot (dir : Path) (nm e : str) :
  nm <> [] -> e <> [] -> "."%char ∉ e ->
  lower ("."%char :: e) <> txt ".csv" ->
  is_csv (dir ++ [nm ++ "."%char :: e]) = false.
Proof.
  intros Hnm He Hd Hl. apply not_true_is_false. intros H%is_csv_spec.
  unfold suffix in H. by rewrite name_snoc, suffix_of_name_dot in H.
Qed.

Lemma is_csv_tmp_path_of (out : Path) :
  name out <> [] -> is_csv (tmp_path_of out) = false.
Proof.
  intros Hn. unfold tmp_path_of.
  apply (is_csv_false_dot _ _ (txt "tmp")); try done.
  apply (bool_decide_unpack _). by vm_compute.
Qed.

(** X2.  A conversion, however it ends and whatever fails, changes no file
    that has the extension of a CSV file: what it writes is never taken
    for an input, and an input with that extension is left as it was. *)
Theorem conversion_changes_no_csv (fault : nat -> bool)
    (sniff : str -> option (ascii * ascii)) (cfg : Config)
    (csv_path : Path) (w : World) :
  let r := _convert_file fault sniff cfg csv_path w in
  exists new, seen r.2 = new ++ seen w
    /\ Forall (fun fs => forall p,
                 fs !! p <> files w !! p ->
                 is_csv p = false
                 /\ forall fs' q, enqueue fs' q p = q)
              (files r.2 :: new)
    /\ (is_csv csv_path = true ->
        Forall (fun fs => fs !! csv_path = files w !! csv_path)
               (files r.2 :: new)).
Proof.
  intros r.
  assert (forall p, is_csv p = false -> forall fs' q, enqueue fs' q p = q)
    as Henq.
  { intros p Hp fs' q. unfold enqueue. by rewrite Hp. }
  assert (exists new, seen r.2 = new ++ seen w
            /\ Forall (fun fs => forall p, fs !! p <> files w !! p ->
                                            is_csv p = false)
                      (files r.2 :: new)) as (new & Hseen & Hfo).
  { pose proof (convert_file_run fault sniff cfg csv_path w) as Hrun.
    fold r in Hrun. destruct r as [[[]|e|] w']; [| |done]; cbn [snd].
    - destruct Hrun as (out & text & rows & w1 & Hres & _ & _
                        & (new & Hs1 & Hfo) & _ & Hf & Hs & _).
      pose proof (resolve_path_shape _ _ _ _ Hres)
        as (nm & e & Hnm & He & Hd & Hl & Hout).
      assert (name out <> []) as Hno
        by (rewrite Hout, name_snoc; by destruct nm).
      exists (files w' :: new). split; [by rewrite Hs, Hs1|].
      apply Forall_cons in Hfo as [Hw1 Hnew].
      assert (forall p, files w' !! p <> files w !! p -> is_csv p = false)
        as Hlast.
      { intros p Hp. destruct (decide (p = out)) as [->|Hpo].
        { rewrite Hout. by apply is_csv_false_dot. }
        destruct (decide (p = tmp_path_of out)) as [->|Hpt].
        { by apply is_csv_tmp_path_of. }
        exfalso. apply Hp.
        rewrite Hf, lookup_insert_ne, lookup_delete_ne by done.
        by apply Hw1. }
      repeat (apply Forall_cons; split; [exact Hlast|]).
      eapply Forall_impl; [exact Hnew|]. intros fs H p Hp.
      destruct (decide (p = tmp_path_of out)) as [->|Hpt].
      { by apply is_csv_tmp_path_of. }
      exfalso. by apply Hp, H.
    - destruct Hrun as (new & Hs & Hfo). exists new. split; [done|].
      eapply Forall_impl; [exact Hfo|]. intros fs H p Hp.
      destruct (resolve_path cfg csv_path (files w)) as [out| |] eqn:Hres.
      + destruct (decide (p = tmp_path_of out)) as [->|Hpt].
        { apply is_csv_tmp_path_of.
          by destruct (resolve_path_Ok _ _ _ _ Hres). }
        exfalso. apply Hp, H. by intros ? [= <-].
      + exfalso. apply Hp, H. done.
      + exfalso. apply Hp, H. done. }
  exists new. split; [done|]. split.
  - eapply Forall_impl; [exact Hfo|]. intros fs H p Hp. auto.
  - intros Hc. eapply Forall_impl; [exact Hfo|]. intros fs H.
    destruct (decide (fs !! csv_path = files w !! csv_path)) as [|Hne];
      [done|].
    apply H in Hne. congruence.
Qed.

(** ** The reader on plain text *)

Section PlainText.

Variable d : Dialect.
Hypothesis delimiter_quotechar : dl_delimiter d <> dl_quotechar d.
Hypothesis delimiter_LF : dl_delimiter d <> LF.
Hypothesis delimiter_CR : dl_delimiter d <> CR.

Lemma is_nl_false c : c <> LF -> c <> CR -> is_nl c = false.
Proof.
  intros H1 H2. unfold is_nl. apply orb_false_intro; by apply ch_eqb_false.
Qed.

Lemma is_nl_delimiter : is_nl (dl_delimiter d) = false.
Proof. by apply is_nl_false. Qed.

(** Plain characters inside a field are appended to it. *)
Lemma parse_line_in_field (cell : str) :
  forall F fld len rest,
    Forall (fun c => c <> dl_delimiter d /\ c <> dl_quotechar d
                     /\ c <> LF /\ c <> CR) cell ->
    (len + N.of_nat (length cell) <= field_limit)%N ->
    parse_line d {| rd_state := IN_FIELD; rd_fields := F; rd_field := fld;
                    rd_field_len := len |} (cell ++ rest)
    = parse_line d {| rd_state := IN_FIELD; rd_fields := F;
                      rd_field := reverse cell ++ fld;
                      rd_field_len := len + N.of_nat (length cell) |} rest.
Proof.
  induction cell as [|c cell IH]; intros F fld len rest Hp Hlen.
  - cbn. do 2 f_equal. lia.
  - apply Forall_cons in Hp as [(Hd & Hq & Hl & Hr) Hp].
    cbn [app parse_line parse_process_char rd_state length] in *.
    rewrite (is_nl_false c) by done.
    rewrite (proj2 (ch_eqb_false _ _)) by done.
    unfold parse_add_char. cbn [rd_field_len rd_state rd_fields rd_field].
    rewrite (proj2 (N.leb_gt _ _)) by lia.
    rewrite IH by (done || lia). rewrite reverse_cons, <- app_assoc.
    cbn [app]. do 2 f_equal. lia.
Qed.

(** A plain cell at the start of a field or of a record. *)
Lemma parse_line_cell (st : ParserState) (cell : str) :
  forall F rest,
    st = START_RECORD \/ st = START_FIELD ->
    plain_cell d cell -> cell <> [] ->
    parse_line d {| rd_state := st; rd_fields := F; rd_field := [];
                    rd_field_len := 0 |} (cell ++ rest)
    = parse_line d {| rd_state := IN_FIELD; rd_fields := F;
                      rd_field := reverse cell;
                      rd_field_len := N.of_nat (length cell) |} rest.
Proof.
  intros F rest Hst [Hp Hlen] Hne. destruct cell as [|c cell]; [done|].
  apply Forall_cons in Hp as [(Hd & Hq & Hl & Hr) Hp].
  cbn [length] in Hlen.
  assert (parse_process_char d
            {| rd_state := st; rd_fields := F; rd_field := [];
               rd_field_len := 0 |} (Some c)
          = inr {| rd_state := IN_FIELD; rd_fields := F; rd_field := [c];
                   rd_field_len := 1 |}) as Hstep.
  { destruct Hst as [-> | ->]; cbn [parse_process_char rd_state];
      rewrite (is_nl_false c) by done;
      rewrite !(proj2 (ch_eqb_false _ _)) by done; done. }
  cbn [app parse_line]. rewrite Hstep.
  rewrite parse_line_in_field by (done || lia).
  rewrite reverse_cons. cbn [length]. do 2 f_equal. lia.
Qed.

(** The delimiter ends the field, empty or not. *)
Lemma parse_line_delimiter (st : ParserState) F fld len rest :
  st = START_RECORD \/ st = START_FIELD \/ st = IN_FIELD ->
  parse_line d {| rd_state := st; rd_fields := F; rd_field := fld;
                  rd_field_len := len |} (dl_delimiter d :: rest)
  = parse_line d {| rd_state := START_FIELD;
                    rd_fields := reverse fld :: F; rd_field := [];
                    rd_field_len := 0 |} rest.
Proof.
  intros Hst. cbn [parse_line].
  assert (ch_eqb (dl_delimiter d) (dl_quotechar d) = false) as Hq
    by (by apply ch_eqb_false).
  destruct Hst as [-> | [-> | ->]]; cbn [parse_process_char rd_state];
    rewrite is_nl_delimiter, ?Hq, ch_eqb_refl; done.
Qed.

(** A cell and what follows it in the line, at the start of a field. *)
Lemma parse_line_cell_then (st : ParserState) (cell : str) F rest :
  st = START_RECORD \/ st = START_FIELD ->
  plain_cell d cell ->
  parse_line d {| rd_state := st; rd_fields := F; rd_field := [];
                  rd_field_len := 0 |} (cell ++ dl_delimiter d :: rest)
  = parse_line d {| rd_state := START_FIELD; rd_fields := cell :: F;
                    rd_field := []; rd_field_len := 0 |} rest.
Proof.
  intros Hst Hp. destruct (decide (cell = [])) as [->|Hne].
  - cbn [app]. rewrite parse_line_delimiter by tauto. done.
  - rewrite parse_line_cell by done.
    rewrite parse_line_delimiter by tauto. by rewrite reverse_involutive.
Qed.

Lemma parse_line_end_field (nl : str) F fld len :
  line_end nl ->
  parse_line d {| rd_state := IN_FIELD; rd_fields := F; rd_field := fld;
                  rd_field_len := len |} nl
  = inr {| rd_state := START_RECORD; rd_fields := reverse fld :: F;
           rd_field := []; rd_field_len := 0 |}.
Proof. intros [-> | [-> | [-> | ->]]]; done. Qed.

Lemma parse_line_end_empty (nl : str) F :
  line_end nl ->
  parse_line d {| rd_state := START_FIELD; rd_fields := F; rd_field := [];
                  rd_field_len := 0 |} nl
  = inr {| rd_state := START_RECORD; rd_fields := [] :: F;
           rd_field := []; rd_field_len := 0 |}.
Proof. intros [-> | [-> | [-> | ->]]]; done. Qed.

Lemma parse_line_end_blank (nl : str) F :
  line_end nl ->
  parse_line d {| rd_state := START_RECORD; rd_fields := F; rd_field := [];
                  rd_field_len := 0 |} nl
  = inr {| rd_state := START_RECORD; rd_fields := F;
           rd_field := []; rd_field_len := 0 |}.
Proof. intros [-> | [-> | [-> | ->]]]; done. Qed.

(** A whole line of a plain row. *)
Lemma parse_line_row (nl : str) (row : list str) :
  line_end nl ->
  forall st F,
    st = START_RECORD \/ st = START_FIELD ->
    Forall (plain_cell d) row ->
    (st = START_RECORD -> row <> [[]]) ->
    (st = START_FIELD -> row <> []) ->
    parse_line d {| rd_state := st; rd_fields := F; rd_field := [];
                    rd_field_len := 0 |} (join [dl_delimiter d] row ++ nl)
    = inr {| rd_state := START_RECORD; rd_fields := reverse row ++ F;
             rd_field := []; rd_field_len := 0 |}.
Proof.
  intros Hnl.
  induction row as [|cell row IH]; intros st F Hst Hp H1 H2.
  - destruct Hst as [-> | ->]; [|by destruct H2].
    by apply parse_line_end_blank.
  - apply Forall_cons in Hp as [Hcell Hp].
    destruct row as [|cell' row].
    + cbn [join]. destruct (decide (cell = [])) as [->|Hne].
      * destruct Hst as [-> | ->]; [by destruct H1|].
        by apply parse_line_end_empty.
      * rewrite parse_line_cell by done.
        rewrite parse_line_end_field by done.
        by rewrite reverse_involutive.
    + change (join [dl_delimiter d] (cell :: cell' :: row))
        with (cell ++ [dl_delimiter d]
              ++ join [dl_delimiter d] (cell' :: row)).
      rewrite <- !app_assoc. cbn [app].
      rewrite parse_line_cell_then by done.
      rewrite IH by (done || auto).
      rewrite (reverse_cons (cell' :: row) cell), <- app_assoc. done.
Qed.

(** The lines of the text of plain rows. *)
Lemma readlines_go_plain (line : str) :
  forall cur rest,
    Forall (fun c => c <> LF /\ c <> CR) line ->
    readlines_go (line ++ rest) cur
    = readlines_go rest (reverse line ++ cur).
Proof.
  induction line as [|c line IH]; intros cur rest Hp; [done|].
  apply Forall_cons in Hp as [[Hl Hr] Hp].
  cbn [app readlines_go]. rewrite !(proj2 (ch_eqb_false _ _)) by done.
  rewrite IH by done. by rewrite reverse_cons, <- app_assoc.
Qed.

Lemma join_plain (row : list str) :
  Forall (plain_cell d) row ->
  Forall (fun c => c <> LF /\ c <> CR) (join [dl_delimiter d] row).
Proof.
  induction row as [|cell row IH]; intros Hp; [constructor|].
  apply Forall_cons in Hp as [[Hcell _] Hp].
  assert (Forall (fun c => c <> LF /\ c <> CR) cell) as Hc.
  { eapply Forall_impl; [exact Hcell|]. by intros c (_ & _ & ? & ?). }
  destruct row as [|cell' row]; [done|].
  change (join [dl_delimiter d] (cell :: cell' :: row))
    with (cell ++ [dl_delimiter d] ++ join [dl_delimiter d] (cell' :: row)).
  rewrite !Forall_app. split; [done|]. split; [|by apply IH].
  by repeat constructor.
Qed.

Lemma csv_text_head_not_LF (nl tail : str) (rows : list (list str)) :
  nl = [CR; LF] \/ nl = [CR] ->
  Forall (fun row => Forall (plain_cell d) row) rows ->
  head tail <> Some LF ->
  head (csv_text d nl rows ++ tail) <> Some LF.
Proof.
  intros Hnl Hp Ht. destruct rows as [|row rows]; [done|].
  apply Forall_cons in Hp as [Hrow _].
  unfold csv_text. rewrite bind_cons.
  pose proof (join_plain row Hrow) as Hj.
  destruct (join [dl_delimiter d] row) as [|c l].
  - destruct Hnl as [-> | ->]; cbn; intros [= H]; by vm_compute in H.
  - apply Forall_cons in Hj as [[Hl _] _]. cbn. congruence.
Qed.

(** The lines of the text of plain rows, whatever follows the rows. *)
Lemma readlines_go_csv_text (nl tail : str) (rows : list (list str)) :
  nl = [LF] \/ nl = [CR; LF] \/ nl = [CR] ->
  Forall (fun row => Forall (plain_cell d) row) rows ->
  head tail <> Some LF ->
  readlines_go (csv_text d nl rows ++ tail) []
  = ((fun row => join [dl_delimiter d] row ++ nl) <$> rows)
    ++ readlines_go tail [].
Proof.
  intros Hnl. induction rows as [|row rows IH]; intros Hp Ht; [done|].
  apply Forall_cons in Hp as [Hrow Hp].
  unfold csv_text. rewrite bind_cons, fmap_cons. fold (csv_text d nl rows).
  rewrite <- !app_assoc, readlines_go_plain by by apply join_plain.
  rewrite app_nil_r. cbn [app]. rewrite <- IH by done.
  destruct Hnl as [-> | [-> | ->]].
  - cbn [app readlines_go]. rewrite ch_eqb_refl.
    by rewrite reverse_cons, reverse_involutive.
  - cbn [app readlines_go].
    replace (ch_eqb CR LF) with false by done.
    rewrite !ch_eqb_refl.
    by rewrite !reverse_cons, reverse_involutive, <- app_assoc.
  - pose proof (csv_text_head_not_LF [CR] tail rows (or_intror eq_refl)
                  Hp Ht) as Hh.
    cbn [app readlines_go].
    replace (ch_eqb CR LF) with false by done. rewrite ch_eqb_refl.
    destruct (csv_text d [CR] rows ++ tail) as [|c2 s] eqn:E.
    + rewrite reverse_cons, reverse_involutive. done.
    + rewrite (proj2 (ch_eqb_false c2 LF)) by (cbn in Hh; congruence).
      by rewrite reverse_cons, reverse_involutive.
Qed.

Lemma readlines_go_last (tail : str) :
  Forall (fun c => c <> LF /\ c <> CR) tail ->
  readlines_go tail [] = if decide (tail = []) then [] else [tail].
Proof.
  intros Ht. rewrite <- (app_nil_r tail) at 1.
  rewrite readlines_go_plain by done. rewrite app_nil_r. cbn.
  destruct tail as [|c tail]; [done|].
  rewrite decide_False by done.
  destruct (reverse (c :: tail)) eqn:E; [|by rewrite <- E, reverse_involutive].
  apply (f_equal reverse) in E. by rewrite reverse_involutive in E.
Qed.

(** The lines of the text of plain rows, and of a last line without a
    line break. *)
Lemma readlines_csv_text (nl tail : str) (rows : list (list str)) :
  nl = [LF] \/ nl = [CR; LF] \/ nl = [CR] ->
  Forall (fun row => Forall (plain_cell d) row) rows ->
  Forall (fun c => c <> LF /\ c <> CR) tail ->
  readlines (csv_text d nl rows ++ tail)
  = ((fun row => join [dl_delimiter d] row ++ nl) <$> rows)
    ++ if decide (tail = []) then [] else [tail].
Proof.
  intros Hnl Hp Ht. unfold readlines.
  rewrite readlines_go_csv_text, readlines_go_last; try done.
  destruct Ht as [|c tail [Hl _] _]; cbn; congruence.
Qed.

Lemma reader_rows_plain (nl : str) (rows : list (list str))
    (rest : list str) :
  line_end nl ->
  Forall (plain_row d) rows ->
  reader_rows d parse_reset
    (((fun row => join [dl_delimiter d] row ++ nl) <$> rows) ++ rest)
  = (rows ++ (reader_rows d parse_reset rest).1,
     (reader_rows d parse_reset rest).2).
Proof.
  intros Hnl. induction rows as [|row rows IH]; intros Hp.
  { cbn [fmap list_fmap app]. by destruct (reader_rows _ _ _). }
  apply Forall_cons in Hp as [[Hrow Hne] Hp].
  rewrite fmap_cons. cbn [reader_rows app]. unfold parse_reset at 1.
  rewrite (parse_line_row nl row Hnl) by (done || auto).
  cbn [rd_state rd_fields]. rewrite bool_decide_eq_true_2 by done.
  rewrite IH by done. cbn [fst snd].
  by rewrite app_nil_r, reverse_involutive.
Qed.

(** The reader returns the rows of plain cells a text was written from,
    whether or not a line break follows the last row. *)
Lemma csv_reader_csv_text (nl : str) (rows : list (list str)) :
  nl = [LF] \/ nl = [CR; LF] \/ nl = [CR] ->
  Forall (plain_row d) rows ->
  csv_reader d (csv_text d nl rows) = (rows, None).
Proof.
  intros Hnl Hp. unfold csv_reader.
  rewrite <- (app_nil_r (csv_text d nl rows)).
  rewrite readlines_csv_text; [|done| |done].
  - rewrite reader_rows_plain by first [done | unfold line_end; tauto].
    cbn. by rewrite app_nil_r.
  - eapply Forall_impl; [exact Hp|]. by intros row [H _].
Qed.

Lemma reader_rows_last (row : list str) :
  plain_row d row ->
  reader_rows d parse_reset [join [dl_delimiter d] row] = ([row], None).
Proof.
  intros [Hrow Hne]. cbn [reader_rows].
  rewrite <- (app_nil_r (join _ row)). unfold parse_reset at 1.
  rewrite (parse_line_row [] row) by first [done | unfold line_end; tauto].
  cbn [rd_state rd_fields]. rewrite bool_decide_eq_true_2 by done.
  cbn. by rewrite app_nil_r, reverse_involutive.
Qed.

Lemma csv_reader_csv_text_open (nl : str) (rows : list (list str))
    (row : list str) :
  nl = [LF] \/ nl = [CR; LF] \/ nl = [CR] ->
  Forall (plain_row d) rows -> plain_row d row -> row <> [] ->
  csv_reader d (csv_text d nl rows ++ join [dl_delimiter d] row)
  = (rows ++ [row], None).
Proof.
  intros Hnl Hp Hrow Hne'. unfold csv_reader.
  rewrite readlines_csv_text; [|done| |apply join_plain, Hrow].
  2:{ eapply Forall_impl; [exact Hp|]. by intros r [H _]. }
  rewrite reader_rows_plain by first [done | unfold line_end; tauto].
  assert (join [dl_delimiter d] row <> []) as Hj.
  { destruct Hrow as [_ Hne]. destruct row as [|c1 [|c2 row]]; [done| |].
    - cbn. by intros ->.
    - change (join [dl_delimiter d] (c1 :: c2 :: row))
        with (c1 ++ [dl_delimiter d] ++ join [dl_delimiter d] (c2 :: row)).
      by destruct c1. }
  rewrite decide_False by done. by rewrite reader_rows_last.
Qed.

(** A cell longer than the field limit makes the reader raise, whatever
    follows it in its line. *)
Lemma parse_line_oversized (st : ParserState) (cell rest : str) F :
  st = START_RECORD \/ st = START_FIELD ->
  Forall (fun c => c <> dl_delimiter d /\ c <> dl_quotechar d
                   /\ c <> LF /\ c <> CR) cell ->
  (field_limit < N.of_nat (length cell))%N ->
  parse_line d {| rd_state := st; rd_fields := F; rd_field := [];
                  rd_field_len := 0 |} (cell ++ rest)
  = inl csv_Error.
Proof.
  intros Hst Hp Hlen.
  rewrite <- (take_drop (N.to_nat field_limit) cell) in Hp |- *.
  apply Forall_app in Hp as [Hpre Hpost].
  assert (length (take (N.to_nat field_limit) cell) = N.to_nat field_limit)
    as Htake by (rewrite length_take; lia).
  destruct (drop (N.to_nat field_limit) cell) as [|c post] eqn:Hdrop.
  { apply (f_equal length) in Hdrop. rewrite length_drop in Hdrop.
    cbn in Hdrop. lia. }
  apply Forall_cons in Hpost as [(Hd & Hq & Hl & Hr) _].
  rewrite <- app_assoc. rewrite parse_line_cell.
  - cbn [app parse_line parse_process_char rd_state].
    rewrite (is_nl_false c) by done.
    rewrite (proj2 (ch_eqb_false _ _)) by done.
    unfold parse_add_char. cbn [rd_field_len].
    rewrite (proj2 (N.leb_le _ _)) by lia. done.
  - done.
  - split; [done|lia].
  - intros H. rewrite H in Htake. cbn in Htake.
    unfold field_limit in Htake. lia.
Qed.

Lemma readlines_go_head (rest cur : str) :
  cur <> [] ->
  exists x more, readlines_go rest cur = (reverse cur ++ x) :: more.
Proof.
  revert cur. induction rest as [|c rest IH]; intros cur Hcur.
  - exists [], []. cbn. rewrite app_nil_r. by destruct cur.
  - cbn [readlines_go]. destruct (ch_eqb c LF).
    { eexists [c], _. by rewrite reverse_cons. }
    destruct (ch_eqb c CR).
    + destruct rest as [|c2 rest].
      { eexists [c], _. by rewrite reverse_cons. }
      destruct (ch_eqb c2 LF).
      * eexists [c; c2], _. rewrite !reverse_cons, <- app_assoc. done.
      * eexists [c], _. by rewrite reverse_cons.
    + destruct (IH (c :: cur)) as (x & more & ->); [done|].
      exists (c :: x), more. by rewrite reverse_cons, <- app_assoc.
Qed.

Lemma csv_reader_oversized (nl : str) (rows : list (list str))
    (cell rest : str) :
  nl = [LF] \/ nl = [CR; LF] \/ nl = [CR] ->
  Forall (plain_row d) rows ->
  Forall (fun c => c <> dl_delimiter d /\ c <> dl_quotechar d
                   /\ c <> LF /\ c <> CR) cell ->
  (field_limit < N.of_nat (length cell))%N ->
  csv_reader d (csv_text d nl rows ++ cell ++ rest)
  = (rows, Some csv_Error).
Proof.
  intros Hnl Hp Hcell Hlen. unfold csv_reader, readlines.
  assert (cell <> []) as Hne by (intros ->; cbn in Hlen; lia).
  rewrite readlines_go_csv_text; [|done| |].
  - rewrite reader_rows_plain by first [done | unfold line_end; tauto].
    rewrite readlines_go_plain, app_nil_r.
    2:{ eapply Forall_impl; [exact Hcell|]. by intros c (_ & _ & ? & ?). }
    destruct (readlines_go_head rest (reverse cell)) as (x & more & ->).
    { intros H. apply (f_equal reverse) in H.
      by rewrite reverse_involutive in H. }
    rewrite reverse_involutive.
    assert (reader_rows d parse_reset ((cell ++ x) :: more)
            = ([], Some csv_Error)) as ->.
    { cbn [reader_rows]. unfold parse_reset at 1.
      by rewrite parse_line_oversized by (done || auto). }
    cbn. by rewrite app_nil_r.
  - eapply Forall_impl; [exact Hp|]. by intros r [H _].
  - destruct cell as [|c cell]; [done|].
    apply Forall_cons in Hcell as [(_ & _ & Hl & _) _]. cbn. congruence.
Qed.

End PlainText.

(** X3.  The reader on a text of cells that need no quoting, under a dialect
    whose delimiter is neither the quote character nor a line break: it
    returns the rows of cells the text consists of and raises nothing,
    whichever of the three line breaks ends the lines, and whether or not
    a line break follows the last row.  A blank line is returned as the
    row without cells. *)
Theorem csv_reader_plain_round_trip (d : Dialect) (nl : str)
    (rows : list (list str)) :
  dl_delimiter d <> dl_quotechar d ->
  dl_delimiter d <> LF -> dl_delimiter d <> CR ->
  nl = [LF] \/ nl = [CR; LF] \/ nl = [CR] ->
  Forall (plain_row d) rows ->
  csv_reader d (csv_text d nl rows) = (rows, None)
  /\ forall row,
       plain_row d row -> row <> [] ->
       csv_reader d (csv_text d nl rows ++ join [dl_delimiter d] row)
       = (rows ++ [row], None).
Proof.
  intros Hdq Hdl Hdc Hnl Hp. split.
  - by apply csv_reader_csv_text.
  - intros row Hrow Hne. by apply csv_reader_csv_text_open.
Qed.

(** Three lines ended by CR LF, the second blank, and a fourth without a
    line break. *)
Lemma csv_reader_plain_round_trip_witness :
  let rows := [[txt "a"; txt "b"]; []; [txt "1"; []]] in
  csv_text excel [CR; LF] rows
  = txt "a,b" ++ [CR; LF] ++ [CR; LF] ++ txt "1," ++ [CR; LF]
  /\ csv_reader excel (csv_text excel [CR; LF] rows) = (rows, None)
  /\ csv_reader excel (csv_text excel [CR; LF] rows ++ txt "x,y z")
     = (rows ++ [[txt "x"; txt "y z"]], None).
Proof.
  cbn zeta. split; [by vm_compute|].
  destruct (csv_reader_plain_round_trip excel [CR; LF]
              [[txt "a"; txt "b"]; []; [txt "1"; []]]) as [H1 H2].
  - by vm_compute.
  - by vm_compute.
  - by vm_compute.
  - auto.
  - apply (bool_decide_unpack _). by vm_compute.
  - split; [exact H1|].
    apply (H2 [txt "x"; txt "y z"]); [|done].
    apply (bool_decide_unpack _). by vm_compute.
Defined.

(** ** The reader on quoted text *)

Lemma parse_chars_app (d : Dialect) (s t : str) :
  forall self,
    parse_chars d self (s ++ t)
    = match parse_chars d self s with
      | inl e => inl e
      | inr self' => parse_chars d self' t
      end.
Proof.
  induction s as [|c s IH]; intros self; [done|].
  cbn [app parse_chars]. by destruct (parse_process_char d self (Some c)).
Qed.

Lemma parse_line_chars (d : Dialect) (s : str) :
  forall self,
    parse_line d self s
    = match parse_chars d self s with
      | inl e => inl e
      | inr self' => parse_process_char d self' None
      end.
Proof.
  induction s as [|c s IH]; intros self; [done|].
  cbn [parse_line parse_chars].
  by destruct (parse_process_char d self (Some c)).
Qed.

Lemma reader_at_start (d : Dialect) (self : Reader) :
  reader_at d self [] self.
Proof. done. Qed.

Lemma reader_at_app (d : Dialect) (self : Reader) (cur s : str)
    (now now' : Reader) :
  reader_at d self cur now ->
  parse_chars d now s = inr now' ->
  reader_at d self (reverse s ++ cur) now'.
Proof.
  unfold reader_at. intros H1 H2.
  by rewrite reverse_app, reverse_involutive, parse_chars_app, H1.
Qed.

(** A line break ends the line. *)
Lemma readlines_go_break (br rest cur : str) :
  br = [LF] \/ br = [CR; LF] \/ (br = [CR] /\ head rest <> Some LF) ->
  readlines_go (br ++ rest) cur
  = (reverse cur ++ br) :: readlines_go rest [].
Proof.
  intros [-> | [-> | [-> Hh]]]; cbn [app readlines_go].
  - rewrite ch_eqb_refl. by rewrite reverse_cons.
  - replace (ch_eqb CR LF) with false by done. rewrite !ch_eqb_refl.
    by rewrite !reverse_cons, <- app_assoc.
  - replace (ch_eqb CR LF) with false by done. rewrite ch_eqb_refl.
    destruct rest as [|c2 rest]; [by rewrite reverse_cons|].
    rewrite (proj2 (ch_eqb_false c2 LF)) by (cbn in Hh; congruence).
    by rewrite reverse_cons.
Qed.

Section QuotedText.

Variable d : Dialect.
Hypothesis delimiter_quotechar : dl_delimiter d <> dl_quotechar d.
Hypothesis delimiter_LF : dl_delimiter d <> LF.
Hypothesis delimiter_CR : dl_delimiter d <> CR.
Hypothesis quotechar_LF : dl_quotechar d <> LF.
Hypothesis quotechar_CR : dl_quotechar d <> CR.

Local Abbreviation state st F fld len :=
  {| rd_state := st; rd_fields := F; rd_field := fld; rd_field_len := len |}.

(** The rows read from a line break on. *)
Lemma reader_rows_break (self : Reader) (cur br rest : str)
    (now now1 now2 : Reader) :
  reader_at d self cur now ->
  br = [LF] \/ br = [CR; LF] \/ (br = [CR] /\ head rest <> Some LF) ->
  parse_chars d now br = inr now1 ->
  parse_process_char d now1 None = inr now2 ->
  reader_rows d self (readlines_go (br ++ rest) cur)
  = if bool_decide (rd_state now2 = START_RECORD)
    then (reverse (rd_fields now2)
            :: (reader_rows d parse_reset (readlines_go rest [])).1,
          (reader_rows d parse_reset (readlines_go rest [])).2)
    else reader_rows d now2 (readlines_go rest []).
Proof.
  intros Hat Hbr H1 H2. rewrite readlines_go_break by done.
  cbn [reader_rows]. rewrite parse_line_chars, parse_chars_app.
  unfold reader_at in Hat. by rewrite Hat, H1, H2.
Qed.

(** Between quotes a character is added to the cell, a doubled quote
    character once. *)
Lemma parse_chars_doubled (c : ascii) F fld len :
  (len < field_limit)%N ->
  parse_chars d (state IN_QUOTED_FIELD F fld len) (doubled d c)
  = inr (state IN_QUOTED_FIELD F (c :: fld) (N.succ len)).
Proof.
  intros Hlen. unfold doubled. destruct (ch_eqb c (dl_quotechar d)) eqn:E.
  - apply ch_eqb_true in E. subst c.
    cbn [parse_chars parse_process_char rd_state]. rewrite ch_eqb_refl.
    unfold set_state.
    cbn [parse_process_char rd_state rd_fields rd_field rd_field_len].
    rewrite ch_eqb_refl. unfold parse_add_char, set_state.
    cbn [rd_state rd_fields rd_field rd_field_len].
    by rewrite (proj2 (N.leb_gt _ _)) by lia.
  - cbn [parse_chars parse_process_char rd_state]. rewrite E.
    unfold parse_add_char.
    cbn [rd_state rd_fields rd_field rd_field_len].
    by rewrite (proj2 (N.leb_gt _ _)) by lia.
Qed.

Lemma doubled_no_break (c : ascii) :
  c <> LF -> c <> CR -> Forall (fun c => c <> LF /\ c <> CR) (doubled d c).
Proof.
  intros H1 H2. unfold doubled. destruct (ch_eqb c (dl_quotechar d));
    repeat (apply Forall_cons; split; [done|]); constructor.
Qed.

Lemma doubled_break (c : ascii) : c = LF \/ c = CR -> doubled d c = [c].
Proof.
  unfold doubled.
  intros [-> | ->]; by rewrite (proj2 (ch_eqb_false _ _)) by congruence.
Qed.

Lemma head_doubled (cell rest : str) :
  head ((cell ≫= doubled d) ++ rest) = Some LF ->
  head cell = Some LF \/ (cell = [] /\ head rest = Some LF).
Proof.
  destruct cell as [|c cell]; [by right|]. rewrite bind_cons.
  unfold doubled at 1. destruct (ch_eqb c (dl_quotechar d)); cbn; [congruence|by left].
Qed.

(** The characters of a cell between quotes, line breaks among them: the
    cell grows by them, whatever lines they are spread over. *)
Lemma reader_rows_in_quotes (n : nat) :
  forall cell, (length cell <= n)%nat ->
  forall self cur F fld len rest,
    head rest <> Some LF ->
    (len + N.of_nat (length cell) <= field_limit)%N ->
    reader_at d self cur (state IN_QUOTED_FIELD F fld len) ->
    exists self' cur',
      reader_rows d self
        (readlines_go ((cell ≫= doubled d) ++ rest) cur)
      = reader_rows d self' (readlines_go rest cur')
      /\ reader_at d self' cur'
           (state IN_QUOTED_FIELD F (reverse cell ++ fld)
                  (len + N.of_nat (length cell))).
Proof.
  induction n as [|n IH]; intros cell Hn self cur F fld len rest Hh Hlen Hat.
  { destruct cell; [|cbn in Hn; lia]. exists self, cur.
    split; [done|]. by rewrite N.add_0_r. }
  destruct cell as [|c cell].
  { exists self, cur. split; [done|]. by rewrite N.add_0_r. }
  cbn [length] in Hn, Hlen.
  pose proof (parse_chars_doubled c F fld len ltac:(lia)) as Hc.
  destruct (decide (c = LF \/ c = CR)) as [Hbr|Hnb].
  - (* a line break between the quotes *)
    rewrite doubled_break in Hc by done.
    destruct (decide (c = CR /\ head cell = Some LF)) as [[-> Hl]|Hsingle].
    + destruct cell as [|c2 cell]; [done|]. injection Hl as ->.
      cbn [length] in Hn, Hlen.
      pose proof (parse_chars_doubled LF F (CR :: fld) (N.succ len)
                    ltac:(lia)) as Hc2.
      rewrite doubled_break in Hc2 by auto.
      rewrite !bind_cons, !doubled_break by auto.
      change (([CR] ++ [LF] ++ cell ≫= doubled d) ++ rest)
        with ([CR; LF] ++ (cell ≫= doubled d) ++ rest).
      rewrite (reader_rows_break self cur [CR; LF] _ _
                 (state IN_QUOTED_FIELD F (LF :: CR :: fld)
                        (N.succ (N.succ len)))
                 (state IN_QUOTED_FIELD F (LF :: CR :: fld)
                        (N.succ (N.succ len))) Hat); [|auto| |done].
      2:{ cbn [parse_chars]. cbn [parse_chars] in Hc, Hc2.
          destruct (parse_process_char d _ (Some CR)); [done|].
          injection Hc as ->. exact Hc2. }
      rewrite bool_decide_eq_false_2 by done.
      destruct (IH cell ltac:(lia) _ [] F (LF :: CR :: fld)
                  (N.succ (N.succ len)) rest Hh ltac:(lia)
                  (reader_at_start _ _)) as (self' & cur' & Hrun & Hat').
      exists self', cur'. split; [done|].
      replace (reverse (CR :: LF :: cell) ++ fld)
        with (reverse cell ++ LF :: CR :: fld)
        by (by rewrite !reverse_cons, <- !app_assoc).
      cbn [length]. replace (len + N.of_nat (S (S (length cell))))%N
        with (N.succ (N.succ len) + N.of_nat (length cell))%N by lia.
      done.
    + rewrite bind_cons, doubled_break, <- app_assoc by done.
      rewrite (reader_rows_break self cur [c] _ _
                 (state IN_QUOTED_FIELD F (c :: fld) (N.succ len))
                 (state IN_QUOTED_FIELD F (c :: fld) (N.succ len)) Hat);
        [| |done|done].
      2:{ destruct Hbr as [-> | ->]; [by left|]. right. right.
          split; [done|]. intros [Hl|[-> Hl]]%head_doubled; [|done].
          by apply Hsingle. }
      rewrite bool_decide_eq_false_2 by done.
      destruct (IH cell ltac:(lia) _ [] F (c :: fld) (N.succ len) rest
                  Hh ltac:(lia) (reader_at_start _ _))
        as (self' & cur' & Hrun & Hat').
      exists self', cur'. split; [done|].
      replace (reverse (c :: cell) ++ fld) with (reverse cell ++ c :: fld)
        by (by rewrite reverse_cons, <- app_assoc).
      cbn [length]. replace (len + N.of_nat (S (length cell)))%N
        with (N.succ len + N.of_nat (length cell))%N by lia.
      done.
  - (* any other character *)
    rewrite bind_cons, <- app_assoc.
    rewrite readlines_go_plain
      by (apply doubled_no_break; intros ->; apply Hnb; auto).
    destruct (IH cell ltac:(lia) self (reverse (doubled d c) ++ cur) F
                (c :: fld) (N.succ len) rest Hh ltac:(lia)
                (reader_at_app _ _ _ _ _ _ Hat Hc))
      as (self' & cur' & Hrun & Hat').
    exists self', cur'. split; [done|].
    replace (reverse (c :: cell) ++ fld) with (reverse cell ++ c :: fld)
      by (by rewrite reverse_cons, <- app_assoc).
    cbn [length]. replace (len + N.of_nat (S (length cell)))%N
      with (N.succ len + N.of_nat (length cell))%N by lia.
    done.
Qed.

(** A quoted cell at the start of a field or of a record, up to its
    closing quote. *)
Lemma reader_rows_quoted_cell (st : ParserState) (cell : str) :
  st = START_RECORD \/ st = START_FIELD ->
  within_limit cell ->
  forall self cur F rest,
    reader_at d self cur (state st F [] 0%N) ->
    exists self' cur',
      reader_rows d self (readlines_go (quoted_cell d cell ++ rest) cur)
      = reader_rows d self' (readlines_go rest cur')
      /\ reader_at d self' cur'
           (state QUOTE_IN_QUOTED_FIELD F (reverse cell)
                  (N.of_nat (length cell))).
Proof.
  intros Hst Hlen self cur F rest Hat. unfold quoted_cell.
  rewrite <- !app_assoc.
  assert (is_nl (dl_quotechar d) = false) as Hnl by (by apply is_nl_false).
  assert (parse_chars d (state st F [] 0%N) [dl_quotechar d]
          = inr (state IN_QUOTED_FIELD F [] 0%N)) as Hopen.
  { destruct Hst as [-> | ->]; cbn [parse_chars parse_process_char rd_state];
      by rewrite Hnl, ch_eqb_refl. }
  rewrite (readlines_go_plain [dl_quotechar d])
    by (by repeat constructor).
  destruct (reader_rows_in_quotes (length cell) cell ltac:(lia) self
              (reverse [dl_quotechar d] ++ cur) F [] 0%N
              ([dl_quotechar d] ++ rest))
    as (self' & cur' & Hrun & Hat').
  { cbn. congruence. }
  { unfold within_limit in Hlen. lia. }
  { by apply (reader_at_app _ _ _ _ _ _ Hat). }
  exists self', (reverse [dl_quotechar d] ++ cur'). split.
  - rewrite Hrun. by rewrite (readlines_go_plain [dl_quotechar d])
      by (by repeat constructor).
  - apply (reader_at_app _ _ _ _ _ _ Hat').
    rewrite app_nil_r, N.add_0_l in Hat' |- *.
    cbn [parse_chars parse_process_char rd_state]. by rewrite ch_eqb_refl.
Qed.

(** A whole row of quoted cells and the line break after it. *)
Lemma reader_rows_quoted_row (nl : str) (row : list str) :
  nl = [LF] \/ nl = [CR; LF] \/ nl = [CR] ->
  forall st self cur F rest,
    st = START_RECORD \/ st = START_FIELD ->
    Forall within_limit row ->
    (st = START_FIELD -> row <> []) ->
    (nl = [CR] -> head rest <> Some LF) ->
    reader_at d self cur (state st F [] 0%N) ->
    reader_rows d self
      (readlines_go
         (join [dl_delimiter d] (quoted_cell d <$> row) ++ nl ++ rest) cur)
    = ((reverse F ++ row)
         :: (reader_rows d parse_reset (readlines_go rest [])).1,
       (reader_rows d parse_reset (readlines_go rest [])).2).
Proof.
  intros Hnl.
  assert (forall rest, (nl = [CR] -> head rest <> Some LF) ->
            nl = [LF] \/ nl = [CR; LF]
            \/ (nl = [CR] /\ head rest <> Some LF)) as Hbr.
  { intros rest Hh. destruct Hnl as [-> | [-> | ->]]; auto. }
  assert (ch_eqb LF (dl_quotechar d) = false) as H1
    by (apply ch_eqb_false; congruence).
  assert (ch_eqb CR (dl_quotechar d) = false) as H2
    by (apply ch_eqb_false; congruence).
  assert (ch_eqb LF (dl_delimiter d) = false) as H3
    by (apply ch_eqb_false; congruence).
  assert (ch_eqb CR (dl_delimiter d) = false) as H4
    by (apply ch_eqb_false; congruence).
  induction row as [|cell row IH]; intros st self cur F rest Hst Hp Hne Hh Hat.
  - destruct Hst as [-> | ->]; [|by destruct Hne].
    cbn [fmap list_fmap join app].
    rewrite (reader_rows_break self cur nl rest _
               (state EAT_CRNL F [] 0%N) (state START_RECORD F [] 0%N) Hat);
      [|by apply Hbr| |done].
    2:{ by destruct Hnl as [-> | [-> | ->]]. }
    rewrite bool_decide_eq_true_2 by done. cbn [rd_fields].
    by rewrite app_nil_r.
  - apply Forall_cons in Hp as [Hlen Hp].
    destruct row as [|cell' row].
    + cbn [fmap list_fmap join].
      destruct (reader_rows_quoted_cell st cell Hst Hlen self cur F
                  (nl ++ rest) Hat) as (self' & cur' & -> & Hat').
      rewrite (reader_rows_break self' cur' nl rest _
                 (state EAT_CRNL (reverse (reverse cell) :: F) [] 0%N)
                 (state START_RECORD (reverse (reverse cell) :: F) [] 0%N)
                 Hat'); [|by apply Hbr| |done].
      2:{ destruct Hnl as [-> | [-> | ->]];
            cbn [parse_chars parse_process_char rd_state];
            rewrite ?H1, ?H2, ?H3, ?H4; done. }
      rewrite bool_decide_eq_true_2 by done. cbn [rd_fields].
      by rewrite reverse_involutive, reverse_cons.
    + change (join [dl_delimiter d] (quoted_cell d <$> cell :: cell' :: row))
        with (quoted_cell d cell ++ [dl_delimiter d]
              ++ join [dl_delimiter d] (quoted_cell d <$> cell' :: row)).
      rewrite <- !app_assoc.
      destruct (reader_rows_quoted_cell st cell Hst Hlen self cur F
                  ([dl_delimiter d]
                   ++ join [dl_delimiter d] (quoted_cell d <$> cell' :: row)
                   ++ nl ++ rest) Hat) as (self' & cur' & -> & Hat').
      rewrite (readlines_go_plain [dl_delimiter d])
        by (by repeat constructor).
      rewrite (IH START_FIELD self' (reverse [dl_delimiter d] ++ cur')
                 (cell :: F) rest); [|auto|done|done|done|].
      * by rewrite reverse_cons, <- app_assoc.
      * apply (reader_at_app _ _ _ _ _ _ Hat').
        cbn [parse_chars parse_process_char rd_state].
        rewrite (proj2 (ch_eqb_false _ _)) by done.
        rewrite ch_eqb_refl. unfold set_state, parse_save_field.
        cbn [rd_state rd_fields rd_field rd_field_len].
        by rewrite reverse_involutive.
Qed.

Lemma head_quoted_text (rows : list (list str)) :
  head (quoted_text d [CR] rows) <> Some LF.
Proof.
  destruct rows as [|[|cell row] rows]; [done|by cbn|].
  unfold quoted_text. rewrite bind_cons.
  destruct row; cbn; congruence.
Qed.

(** The reader returns the rows a text of quoted cells was written from:
    the closing quote ends a cell, a doubled one stands for itself, and
    the delimiter and the line breaks between quotes are part of the
    cell. *)
Lemma csv_reader_quoted_text (nl : str) (rows : list (list str)) :
  nl = [LF] \/ nl = [CR; LF] \/ nl = [CR] ->
  Forall (Forall within_limit) rows ->
  csv_reader d (quoted_text d nl rows) = (rows, None).
Proof.
  intros Hnl Hp. unfold csv_reader, readlines.
  induction Hp as [|row rows Hrow _ IH]; [done|].
  unfold quoted_text. rewrite bind_cons, <- app_assoc.
  fold (quoted_text d nl rows).
  rewrite (reader_rows_quoted_row nl row Hnl START_RECORD parse_reset []
             [] (quoted_text d nl rows)); [|auto|done|done| |done].
  - by rewrite IH.
  - intros ->. apply head_quoted_text.
Qed.

End QuotedText.

(** X4.  The reader on a text of quoted cells, under a dialect whose delimiter
    and quote character differ and are no line breaks: it returns the
    cells as they were before quoting, whatever characters they hold, as
    long as none is longer than the field limit.  The delimiter and the
    line breaks between quotes are part of the cell, a doubled quote
    character stands for one, and an empty pair of quotes is an empty
    cell. *)
Theorem csv_reader_quoted_round_trip (d : Dialect) (nl : str)
    (rows : list (list str)) :
  dl_delimiter d <> dl_quotechar d ->
  dl_delimiter d <> LF -> dl_delimiter d <> CR ->
  dl_quotechar d <> LF -> dl_quotechar d <> CR ->
  nl = [LF] \/ nl = [CR; LF] \/ nl = [CR] ->
  Forall (Forall within_limit) rows ->
  csv_reader d (quoted_text d nl rows) = (rows, None).
Proof. intros. by apply csv_reader_quoted_text. Qed.

(** A cell with the delimiter and a line break, a cell with quote
    characters, and an empty cell on a line of its own. *)
Lemma csv_reader_quoted_round_trip_witness :
  let rows := [[txt "a,b" ++ [CR; LF] ++ txt "c"; jtxt "say 'hi'"]; [[]]] in
  quoted_text excel [LF] rows
  = jtxt "'a,b" ++ [CR; LF] ++ jtxt "c','say ''hi'''" ++ [LF]
    ++ jtxt "''" ++ [LF]
  /\ csv_reader excel (quoted_text excel [LF] rows) = (rows, None).
Proof.
  cbn zeta. split; [by vm_compute|].
  apply csv_reader_quoted_round_trip.
  - by vm_compute.
  - by vm_compute.
  - by vm_compute.
  - by vm_compute.
  - by vm_compute.
  - auto.
  - apply (bool_decide_unpack _). by vm_compute.
Defined.

(** ** Records of header mode *)

Lemma dict_set_keys (d : pydict) k v k' :
  k' ∈ (dict_set d k v).*1 <-> k' = k \/ k' ∈ d.*1.
Proof.
  induction d as [|[k0 v0] d IH]; cbn [dict_set].
  - cbn. rewrite list_elem_of_singleton, elem_of_nil. tauto.
  - case_bool_decide as Hk; cbn [fmap list_fmap fst];
      rewrite !elem_of_cons; [|rewrite IH]; cbn; [subst|]; tauto.
Qed.

Lemma dict_set_NoDup (d : pydict) k v :
  NoDup d.*1 -> NoDup (dict_set d k v).*1.
Proof.
  induction d as [|[k0 v0] d IH]; cbn [dict_set]; intros Hnd.
  - cbn. apply NoDup_singleton.
  - cbn in Hnd. apply NoDup_cons in Hnd as [Hn Hnd].
    case_bool_decide as Hk; cbn [fmap list_fmap fst].
    + by apply NoDup_cons.
    + apply NoDup_cons. split; [|by apply IH].
      fold (fmap (M:=list) (@fst (option str) jval)).
      rewrite dict_set_keys. intros [->|H]; done.
Qed.

Lemma elem_of_dict_set (d : pydict) k v k' v' :
  NoDup d.*1 ->
  (k', v') ∈ dict_set d k v
  <-> (k' = k /\ v' = v) \/ (k' <> k /\ (k', v') ∈ d).
Proof.
  induction d as [|[k0 v0] d IH]; cbn [dict_set]; intros Hnd.
  - rewrite list_elem_of_singleton, elem_of_nil.
    split; [intros [= -> ->]; tauto|intros [[-> ->]|[_ []]]; done].
  - cbn in Hnd. apply NoDup_cons in Hnd as [Hn Hnd].
    case_bool_decide as Hk; rewrite !elem_of_cons.
    + subst k0. split.
      * intros [[= -> ->]|H]; [tauto|]. right. split; [|by right].
        intros ->. apply Hn. apply list_elem_of_fmap. by exists (k, v').
      * intros [[-> ->]|[Hne [[= -> ->]|H]]]; [by left|done|by right].
    + rewrite IH by done. split.
      * intros [[= -> ->]|[[-> ->]|[Hne H]]]; [|tauto|tauto].
        right. split; [done|by left].
      * intros [[-> ->]|[Hne [[= -> ->]|H]]]; [tauto|by left|tauto].
Qed.

Lemma foldl_dict_set_NoDup (d items : pydict) :
  NoDup d.*1 ->
  NoDup (foldl (fun d kv => dict_set d kv.1 kv.2) d items).*1.
Proof.
  revert d. induction items as [|[k v] items IH]; intros d Hnd; [done|].
  cbn [foldl]. by apply IH, dict_set_NoDup.
Qed.

(** What a comprehension holds for a key: the value of the last item with
    that key. *)
Lemma elem_of_foldl_dict_set (d items : pydict) k v :
  NoDup d.*1 ->
  (k, v) ∈ foldl (fun d kv => dict_set d kv.1 kv.2) d items
  <-> (exists pre post, items = pre ++ (k, v) :: post /\ (k ∉ post.*1))
      \/ ((k, v) ∈ d /\ (k ∉ items.*1)).
Proof.
  induction items as [|[k0 v0] items IH] using rev_ind; intros Hnd.
  - cbn. split.
    + intros H. right. split; [done|apply not_elem_of_nil].
    + intros [(pre & post & H & _)|[H _]]; [by destruct pre|done].
  - rewrite foldl_app. cbn [foldl fst snd].
    rewrite elem_of_dict_set by by apply foldl_dict_set_NoDup.
    rewrite IH by done. rewrite fmap_app, not_elem_of_app. cbn.
    rewrite not_elem_of_cons. split.
    + intros [[-> ->]|[Hne [(pre & post & -> & Hn)|[Hin Hn]]]].
      * left. exists items, []. split; [done|]. apply not_elem_of_nil.
      * left. exists pre, (post ++ [(k0, v0)]).
        split; [by rewrite <- app_assoc|].
        rewrite fmap_app, not_elem_of_app. cbn.
        rewrite not_elem_of_cons. split; [done|].
        split; [done|apply not_elem_of_nil].
      * right. split; [done|]. split; [done|].
        split; [done|apply not_elem_of_nil].
    + intros [(pre & post & H & Hn)|[Hin (Hn & Hne & _)]].
      * destruct post as [|kv post _] using rev_ind.
        { apply app_inj_tail in H as [-> [= -> ->]]. tauto. }
        rewrite app_comm_cons, app_assoc in H.
        apply app_inj_tail in H as [-> <-].
        rewrite fmap_app, not_elem_of_app in Hn. cbn in Hn.
        rewrite not_elem_of_cons in Hn. destruct Hn as (Hn & Hne & _).
        right. split; [done|]. left. by exists pre, post.
      * right. split; [done|]. right. done.
Qed.

(** The items [DictReader] assigns for one row: for every column of the
    header its name and the cell of the row, [None] where the row has no
    such cell. *)
Lemma dict_row_items (fieldnames row : list str) :
  ((fun kv => (Some kv.1, JStr kv.2)) <$> zip fieldnames row)
  ++ ((fun key => (Some key, JNone)) <$> drop (length row) fieldnames)
  = imap (fun i key => (Some key, from_option JStr JNone (row !! i)))
         fieldnames.
Proof.
  revert row. induction fieldnames as [|h hs IH]; intros row.
  - by rewrite drop_nil.
  - destruct row as [|c row].
    + cbn [zip zip_with fmap list_fmap app drop length].
      change ((Some h, JNone) :: ((fun key => (Some key, JNone)) <$> hs))
        with ((fun key : str => (Some key, JNone)) <$> h :: hs).
      rewrite <- imap_const. by apply imap_ext.
    + cbn [zip zip_with fmap list_fmap app drop length imap fst snd].
      f_equal. fold (zip hs row). rewrite IH. by apply imap_ext.
Qed.

Lemma foldl_dict_set_fmap (d : pydict) (keys : list str) :
  foldl (fun d key => dict_set d (Some key) JNone) d keys
  = foldl (fun d kv => dict_set d kv.1 kv.2) d
      ((fun key => (Some key, JNone)) <$> keys).
Proof.
  revert d. induction keys as [|k keys IH]; intros d; [done|].
  cbn [foldl fmap list_fmap]. apply IH.
Qed.

(** The record of a row as one comprehension over the columns of the
    header, and the surplus cells after it. *)
Lemma dict_row_unfold (fieldnames row : list str) :
  dict_row fieldnames row
  = let d := dict_of_items
               (imap (fun i key =>
                        (Some key, from_option JStr JNone (row !! i)))
                     fieldnames) in
    if (length fieldnames <? length row)%nat
    then d ++ [(None, JList (drop (length fieldnames) row))]
    else d.
Proof.
  cbn zeta. rewrite <- dict_row_items. unfold dict_row, dict_of_items.
  rewrite foldl_app, <- foldl_dict_set_fmap.
  destruct (length fieldnames <? length row)%nat eqn:E1.
  - apply Nat.ltb_lt in E1. rewrite (drop_ge fieldnames) by lia. cbn [foldl].
    apply dict_set_fresh. intros (kv & Hk & Hin)%list_elem_of_fmap.
    destruct kv as [k v]. cbn in Hk. subst k.
    apply elem_of_foldl_dict_set in Hin; [|apply NoDup_nil_2].
    destruct Hin as [(pre & post & H & _)|[[]%elem_of_nil _]].
    assert ((None, v) ∈ (fun kv : str * str => (Some kv.1, JStr kv.2))
                         <$> zip fieldnames row) as Hin.
    { rewrite H, elem_of_app, elem_of_cons. auto. }
    by apply list_elem_of_fmap in Hin as (? & ? & _).
  - destruct (length row <? length fieldnames)%nat eqn:E2; [done|].
    apply Nat.ltb_ge in E1, E2. by rewrite (drop_ge fieldnames) by lia.
Qed.

Lemma dict_row_keys_NoDup (fieldnames row : list str) :
  NoDup (dict_row fieldnames row).*1.
Proof.
  rewrite dict_row_unfold. cbn zeta.
  set (items := imap _ fieldnames).
  assert (NoDup (dict_of_items items).*1) as Hnd
    by apply foldl_dict_set_NoDup, NoDup_nil_2.
  destruct (_ <? _)%nat; [|done].
  rewrite fmap_app. apply NoDup_app. split; [done|].
  split; [|apply NoDup_singleton].
  intros k Hk ->%list_elem_of_singleton.
  apply list_elem_of_fmap in Hk as ([k v] & Hk & Hin). cbn in Hk. subst k.
  apply elem_of_foldl_dict_set in Hin; [|apply NoDup_nil_2].
  destruct Hin as [(pre & post & H & _)|[[]%elem_of_nil _]].
  assert ((None, v) ∈ items) as Hin
    by (rewrite H, elem_of_app, elem_of_cons; auto).
  by apply elem_of_lookup_imap_1 in Hin as (? & ? & ? & _).
Qed.

(** The entries of a comprehension over a list of columns, by the index
    of the column. *)
Lemma elem_of_dict_of_items_imap {A} (f : nat -> A -> option str * jval)
    (l : list A) k v :
  (k, v) ∈ dict_of_items (imap f l)
  <-> exists i x, l !! i = Some x /\ f i x = (k, v)
        /\ forall j y, (i < j)%nat -> l !! j = Some y -> (f j y).1 <> k.
Proof.
  unfold dict_of_items. rewrite elem_of_foldl_dict_set by apply NoDup_nil_2.
  split.
  - intros [(pre & post & H & Hn)|[[]%elem_of_nil _]].
    assert (imap f l !! length pre = Some (k, v)) as Hi
      by (by rewrite H, list_lookup_middle).
    rewrite list_lookup_imap in Hi.
    destruct (l !! length pre) as [x|] eqn:Hx; [|done].
    cbn in Hi. exists (length pre), x. split; [done|].
    split; [congruence|]. intros j y Hj Hy Hk. apply Hn.
    assert (imap f l !! j = Some (f j y)) as Hjy
      by (by rewrite list_lookup_imap, Hy).
    rewrite H in Hjy. rewrite lookup_app_r in Hjy by lia.
    destruct (j - length pre)%nat as [|n] eqn:E; [lia|]. cbn in Hjy.
    apply list_elem_of_fmap. exists (f j y). split; [done|].
    by eapply list_elem_of_lookup_2.
  - intros (i & x & Hx & Hf & Hlast). left.
    assert (imap f l !! i = Some (k, v)) as Hi
      by (by rewrite list_lookup_imap, Hx; cbn; rewrite Hf).
    exists (take i (imap f l)), (drop (S i) (imap f l)).
    split; [by rewrite take_drop_middle|].
    intros ([k' v'] & Hk & Hin)%list_elem_of_fmap. cbn in Hk. subst k'.
    apply list_elem_of_lookup_1 in Hin as (n & Hn).
    rewrite lookup_drop, list_lookup_imap in Hn.
    destruct (l !! (S i + n)%nat) as [y|] eqn:Hy; [|done].
    cbn in Hn. injection Hn as Hn.
    apply (Hlast (S i + n)%nat y); [lia|done|]. cbn in Hn |- *. by rewrite Hn.
Qed.

(** X5.  The record [DictReader] builds for one row, whatever the header and
    the length of the row.  It has no two entries with the same key, so
    the comprehension of line 108 copies it as it is.  Under the name of a
    column it holds the cell of the last column of that name, and [None]
    where the row is too short to have that cell; the cells beyond the
    header are held as a list under the key [None]. *)
Theorem dict_row_entries (fieldnames row : list str) :
  NoDup (dict_row fieldnames row).*1
  /\ dict_of_items (dict_row fieldnames row) = dict_row fieldnames row
  /\ forall k v,
       (k, v) ∈ dict_row fieldnames row
       <-> (exists i key,
              k = Some key /\ fieldnames !! i = Some key
              /\ (forall j, (i < j)%nat -> fieldnames !! j <> Some key)
              /\ v = from_option JStr JNone (row !! i))
           \/ (k = None /\ (length fieldnames < length row)%nat
               /\ v = JList (drop (length fieldnames) row)).
Proof.
  split; [apply dict_row_keys_NoDup|].
  split; [apply dict_of_items_nodup, dict_row_keys_NoDup|].
  intros k v. rewrite dict_row_unfold. cbn zeta.
  assert ((k, v) ∈ dict_of_items
                     (imap (fun i key =>
                              (Some key,
                               from_option JStr JNone (row !! i)))
                           fieldnames)
          <-> exists i key,
                k = Some key /\ fieldnames !! i = Some key
                /\ (forall j, (i < j)%nat -> fieldnames !! j <> Some key)
                /\ v = from_option JStr JNone (row !! i)) as Hcols.
  { rewrite elem_of_dict_of_items_imap. split.
    - intros (i & key & Hi & [= <- <-] & Hlast). exists i, key.
      split; [done|]. split; [done|]. split; [|done].
      intros j Hj Hk. by apply (Hlast j key Hj Hk).
    - intros (i & key & -> & Hi & Hlast & ->). exists i, key.
      split; [done|]. split; [done|]. intros j y Hj Hy. cbn.
      intros [= ->]. by apply (Hlast j Hj). }
  destruct (length fieldnames <? length row)%nat eqn:E.
  - apply Nat.ltb_lt in E. rewrite elem_of_app, list_elem_of_singleton, Hcols.
    split.
    + intros [H|[= -> ->]]; [by left|by right].
    + intros [H|(-> & _ & ->)]; [by left|by right].
  - apply Nat.ltb_ge in E. rewrite Hcols. split; [by left|].
    intros [H|(_ & H & _)]; [done|lia].
Qed.

(** X6.  With a header of distinct names: one entry per column, in the order of
    the header, then the surplus cells. *)
Theorem dict_row_distinct (fieldnames row : list str) :
  NoDup fieldnames ->
  dict_row fieldnames row
  = imap (fun i key => (Some key, from_option JStr JNone (row !! i)))
         fieldnames
    ++ if (length fieldnames <? length row)%nat
       then [(None, JList (drop (length fieldnames) row))] else [].
Proof.
  intros Hnd. rewrite dict_row_unfold. cbn zeta.
  rewrite dict_of_items_nodup.
  - destruct (_ <? _)%nat; [done|by rewrite app_nil_r].
  - rewrite fmap_imap.
    rewrite (imap_ext _ (const Some)) by done.
    rewrite imap_const. apply NoDup_fmap_2; [|done]. by intros ?? [=].
Qed.

(** A header of three names over a row of one cell, and over a row of
    four. *)
Lemma dict_row_distinct_witness :
  let hs := [txt "a"; txt "b"; txt "c"] in
  dict_row hs [txt "1"]
  = [(Some (txt "a"), JStr (txt "1")); (Some (txt "b"), JNone);
     (Some (txt "c"), JNone)]
  /\ dict_row hs [txt "1"; txt "2"; txt "3"; txt "4"]
     = [(Some (txt "a"), JStr (txt "1")); (Some (txt "b"), JStr (txt "2"));
        (Some (txt "c"), JStr (txt "3")); (None, JList [txt "4"])].
Proof.
  cbn zeta.
  assert (NoDup [txt "a"; txt "b"; txt "c"]) as Hnd
    by (apply (bool_decide_unpack _); by vm_compute).
  split; rewrite (dict_row_distinct _ _ Hnd); reflexivity.
Defined.

(** ** The conversion of plain text *)

Lemma records_rows (d : Dialect) (text : str) (rows : list (list str)) :
  csv_reader d text = (rows, None) ->
  records d text = records_of_rows rows.
Proof.
  intros Hr. unfold records, records_of_rows, header_rows, positional_rows,
    stream_map. rewrite Hr. cbn [fst snd].
  destruct rows as [|hs rest]; [done|]. cbn [head].
  destruct (header_rejected (Some hs)); [done|].
  apply list_fmap_ext. intros _ r _.
  apply dict_of_items_nodup, dict_row_keys_NoDup.
Qed.

(** X7.  The conversion of a file of plain cells.  With no failing system call
    the conversion returns, and the output path holds the document of
    these records: with a first row the header test accepts, one record
    per later row that is not blank, keyed by the header; else one record
    per row, the first and the blank ones included, keyed by position.  A
    blank row gives the record without entries, written [{}]. *)
Theorem plain_text_conversion (sniff : str -> option (ascii * ascii))
    (cfg : Config) (csv_path out : Path) (w : World) (d : Dialect)
    (nl : str) (rows : list (list str)) :
  dl_delimiter d <> dl_quotechar d ->
  dl_delimiter d <> LF -> dl_delimiter d <> CR ->
  nl = [LF] \/ nl = [CR; LF] \/ nl = [CR] ->
  Forall (plain_row d) rows ->
  files w !! csv_path = Some (csv_text d nl rows) ->
  resolve_path cfg csv_path (files w) = Ok out ->
  make_dialect
    (reader_kwargs sniff cfg (take 4096 (csv_text d nl rows))).1
    (reader_kwargs sniff cfg (take 4096 (csv_text d nl rows))).2 = inr d ->
  (exists w',
     _convert_file no_fault sniff cfg csv_path w = (Ok tt, w')
     /\ files w' !! out = Some (document cfg (records_of_rows rows)))
  /\ positional_row [] = []
  /\ json_dumps (indent cfg) [] = txt "{}".
Proof.
  intros Hdq Hdl Hdc Hnl Hp Ht Hres Hd.
  split; [|done].
  pose proof (csv_reader_csv_text d Hdq Hdl Hdc nl rows Hnl Hp) as Hr.
  destruct (convert_file_returns sniff cfg csv_path _ out d w Ht Hres Hd)
    as (w' & Hrun & Hf & _); [by rewrite Hr|].
  exists w'. split; [done|].
  by rewrite Hf, lookup_insert_eq, (records_rows _ _ _ Hr).
Qed.

(** A header, a blank line and one row: header mode skips the blank
    line.  The same with an empty cell in the first row: positional mode
    keeps it as [{}]. *)
Lemma plain_text_conversion_witness :
  let text1 := csv_text excel [LF] [[txt "a"; txt "b"]; [];
                                     [txt "1"; txt "2"]] in
  let text2 := csv_text excel [LF] [[txt "a"; []]; [];
                                     [txt "1"; txt "2"]] in
  text1 = txt "a,b" ++ [LF] ++ [LF] ++ txt "1,2" ++ [LF]
  /\ (exists w',
        _convert_file no_fault sniff_fails (default_config false false)
          data_csv (world_with text1) = (Ok tt, w')
        /\ files w' !! data_json = Some (jtxt "[{'a': '1', 'b': '2'}]"))
  /\ (exists w',
        _convert_file no_fault sniff_fails (default_config false false)
          data_csv (world_with text2) = (Ok tt, w')
        /\ files w' !! data_json
           = Some (jtxt "[{'col1': 'a', 'col2': ''},{},{'col1': '1', 'col2': '2'}]")).
Proof.
  cbn zeta. split; [by vm_compute|]. split.
  - destruct (plain_text_conversion sniff_fails (default_config false false)
                data_csv data_json
                (world_with (csv_text excel [LF]
                   [[txt "a"; txt "b"]; []; [txt "1"; txt "2"]]))
                excel [LF] [[txt "a"; txt "b"]; []; [txt "1"; txt "2"]])
      as [(w' & Hrun & Hout) _].
    + by vm_compute.
    + by vm_compute.
    + by vm_compute.
    + auto.
    + apply (bool_decide_unpack _). by vm_compute.
    + by vm_compute.
    + by vm_compute.
    + by vm_compute.
    + exists w'. split; [exact Hrun|]. rewrite Hout. by vm_compute.
  - destruct (plain_text_conversion sniff_fails (default_config false false)
                data_csv data_json
                (world_with (csv_text excel [LF]
                   [[txt "a"; []]; []; [txt "1"; txt "2"]]))
                excel [LF] [[txt "a"; []]; []; [txt "1"; txt "2"]])
      as [(w' & Hrun & Hout) _].
    + by vm_compute.
    + by vm_compute.
    + by vm_compute.
    + auto.
    + apply (bool_decide_unpack _). by vm_compute.
    + by vm_compute.
    + by vm_compute.
    + by vm_compute.
    + exists w'. split; [exact Hrun|]. rewrite Hout. by vm_compute.
Defined.

(** ** Records and lines *)

Lemma no_control_app (s t : str) :
  no_control (s ++ t) <-> no_control s /\ no_control t.
Proof. apply Forall_app. Qed.

Lemma no_control_txt (x : string) :
  forallb (fun c => (32 <=? nat_of_ascii c)%nat) (txt x) = true ->
  no_control (txt x).
Proof.
  intros H. apply Forall_forall. intros c Hc%list_elem_of_In.
  rewrite forallb_forall in H. by apply Nat.leb_le, H.
Qed.

Lemma escape_char_no_control (c : ascii) : no_control (escape_char c).
Proof.
  apply Forall_forall. intros x Hx%list_elem_of_In.
  assert (forallb (fun x => (32 <=? nat_of_ascii x)%nat) (escape_char c)
          = true) as H
    by (destruct c as [[] [] [] [] [] [] [] []]; reflexivity).
  rewrite forallb_forall in H. by apply Nat.leb_le, H.
Qed.

Lemma encode_basestring_no_control (s : str) :
  no_control (encode_basestring s).
Proof.
  unfold encode_basestring. apply Forall_cons.
  split; [by apply Nat.leb_le|]. apply no_control_app.
  split; [|by repeat constructor; apply Nat.leb_le].
  induction s as [|c s IH]; [constructor|].
  rewrite bind_cons. apply no_control_app.
  split; [apply escape_char_no_control|done].
Qed.

Lemma join_no_control (sep : str) (l : list str) :
  no_control sep -> Forall no_control l -> no_control (join sep l).
Proof.
  intros Hsep. induction 1 as [|x l Hx Hl IH]; [constructor|].
  destruct l as [|y l]; [done|].
  change (join sep (x :: y :: l)) with (x ++ sep ++ join sep (y :: l)).
  rewrite !no_control_app. auto.
Qed.

Lemma encode_list_no_control (level : nat) (l : list str) :
  no_control (encode_list None level l).
Proof.
  unfold encode_list. destruct l as [|x l]; [by apply no_control_txt|].
  cbn [newline_indent]. rewrite !no_control_app.
  repeat split; try (by apply no_control_txt); try (by constructor).
  apply join_no_control; [by apply no_control_txt|].
  apply Forall_fmap, Forall_true. intros s. apply encode_basestring_no_control.
Qed.

(** Without an indent the encoder writes no character below 32. *)
Lemma json_dumps_no_control (row : pydict) : no_control (json_dumps None row).
Proof.
  unfold json_dumps, encode_dict. destruct row as [|kv row];
    [by apply no_control_txt|].
  cbn [newline_indent]. rewrite !no_control_app.
  repeat split; try (by apply no_control_txt); try (by constructor).
  apply join_no_control; [by apply no_control_txt|].
  apply Forall_fmap, Forall_true. intros [k v]. cbn [fst snd compose].
  rewrite !no_control_app. split; [|split; [by apply no_control_txt|]].
  - destruct k; apply encode_basestring_no_control.
  - destruct v as [s| |l]; cbn [encode_value].
    + apply encode_basestring_no_control.
    + by apply no_control_txt.
    + apply encode_list_no_control.
Qed.

Lemma no_control_no_break (s : str) :
  no_control s -> Forall (fun c => c <> LF /\ c <> CR) s.
Proof.
  intros H. eapply Forall_impl; [exact H|]. intros c Hc.
  split; intros ->; vm_compute in Hc; lia.
Qed.

Lemma readlines_lines (lines : list str) :
  Forall no_control lines ->
  readlines (lines ≫= (fun l => l ++ [LF]))
  = (fun l => l ++ [LF]) <$> lines.
Proof.
  unfold readlines. induction 1 as [|l lines Hl _ IH]; [done|].
  rewrite bind_cons, fmap_cons, <- app_assoc.
  rewrite readlines_go_plain by by apply no_control_no_break.
  cbn [app readlines_go]. rewrite ch_eqb_refl, IH.
  by rewrite app_nil_r, reverse_cons, reverse_involutive.
Qed.

(** X8.  A record is written without a character below 32, so in line
    mode the lines of the document are the records, one line each and in
    their order, whatever line breaks the cells hold; in array mode
    without an indent the whole document is one line. *)
Theorem json_lines_one_record_per_line (cfg : Config) (rows : list pydict) :
  Forall (fun row => no_control (json_dumps None row)) rows
  /\ (json_lines cfg = true ->
      readlines (document cfg rows)
      = (fun row => json_dumps None row ++ [LF]) <$> rows)
  /\ (json_lines cfg = false -> indent cfg = None ->
      no_control (document cfg rows)).
Proof.
  split; [apply Forall_true, json_dumps_no_control|]. split.
  - intros Hj. unfold document. rewrite Hj.
    pose proof (readlines_lines (json_dumps None <$> rows)) as H.
    rewrite <- list_fmap_compose in H.
    rewrite list_fmap_bind in H. apply H.
    apply Forall_fmap, Forall_true, json_dumps_no_control.
  - intros Hj Hi. unfold document. rewrite Hj, Hi.
    rewrite !no_control_app. split; [by apply no_control_txt|].
    split; [|by apply no_control_txt].
    apply join_no_control; [by apply no_control_txt|].
    apply Forall_fmap, Forall_true, json_dumps_no_control.
Qed.

(** ** The encoding of a text *)

(** No escape is the beginning of the escape of another character. *)
Lemma escape_char_prefix_free (c1 c2 : ascii) :
  escape_char c1 `prefix_of` escape_char c2 -> c1 = c2.
Proof.
  assert (forallb (fun n1 =>
            forallb (fun n2 =>
              implb (bool_decide (escape_char (ascii_of_nat n1)
                                  `prefix_of` escape_char (ascii_of_nat n2)))
                    (n1 =? n2)%nat)
              (seq 0 256))
            (seq 0 256) = true) as H by (by vm_compute).
  intros Hp. rewrite forallb_forall in H.
  assert (In (nat_of_ascii c1) (seq 0 256)) as H1
    by (apply in_seq; pose proof (nat_ascii_bounded c1); lia).
  assert (In (nat_of_ascii c2) (seq 0 256)) as H2
    by (apply in_seq; pose proof (nat_ascii_bounded c2); lia).
  specialize (H _ H1). rewrite forallb_forall in H. specialize (H _ H2).
  rewrite !ascii_nat_embedding in H.
  rewrite bool_decide_eq_true_2 in H by done. cbn [implb] in H.
  rewrite <- (ascii_nat_embedding c1), <- (ascii_nat_embedding c2).
  f_equal. by apply Nat.eqb_eq.
Qed.

Lemma escape_char_nonempty (c : ascii) : escape_char c <> [].
Proof. destruct c as [[] [] [] [] [] [] [] []]; done. Qed.

Lemma escape_inj (s1 s2 : str) :
  s1 ≫= escape_char = s2 ≫= escape_char -> s1 = s2.
Proof.
  revert s2. induction s1 as [|c1 s1 IH]; intros [|c2 s2] H.
  - done.
  - rewrite bind_cons in H. symmetry in H.
    apply app_eq_nil in H as [H _]. by apply escape_char_nonempty in H.
  - rewrite bind_cons in H.
    apply app_eq_nil in H as [H _]. by apply escape_char_nonempty in H.
  - rewrite !bind_cons in H.
    assert (c1 = c2) as ->.
    { destruct (prefix_weak_total (escape_char c1) (escape_char c2)
                  (escape_char c1 ++ (s1 ≫= escape_char)))
        as [Hp|Hp].
      - by eexists.
      - rewrite H. by eexists.
      - by apply escape_char_prefix_free.
      - symmetry. by apply escape_char_prefix_free. }
    apply app_inv_head in H. f_equal. by apply IH.
Qed.

(** X9.  The encoder loses nothing of a text: two texts have the same
    encoding only when they are the same text. *)
Theorem encode_basestring_inj (s1 s2 : str) :
  encode_basestring s1 = encode_basestring s2 <-> s1 = s2.
Proof.
  split; [|by intros ->].
  unfold encode_basestring. intros [= H].
  apply app_inv_tail in H. by apply escape_inj.
Qed.

(** ** The indent in line mode *)

Section Indent.

Variable fault : nat -> bool.
Variable sniff : str -> option (ascii * ascii).
Variable cfg : Config.
Variable i : option Z.
Hypothesis line_mode : json_lines cfg = true.

Lemma write_json_indent rows tmp :
  _write_json fault (with_indent cfg i) rows tmp
  = _write_json fault cfg rows tmp.
Proof. unfold _write_json. cbn [json_lines with_indent]. by rewrite line_mode. Qed.

Lemma header_attempt_indent text kw tmp w :
  header_attempt fault (with_indent cfg i) text kw tmp w
  = header_attempt fault cfg text kw tmp w.
Proof.
  unfold header_attempt. apply bind_ext. intros d w1 _.
  apply bind_ext. intros fieldnames w2 _.
  destruct (header_rejected fieldnames); [done|].
  by rewrite write_json_indent.
Qed.

Lemma positional_attempt_indent text kw tmp w :
  positional_attempt fault (with_indent cfg i) text kw tmp w
  = positional_attempt fault cfg text kw tmp w.
Proof.
  unfold positional_attempt. apply bind_ext. intros d w1 _.
  by rewrite write_json_indent.
Qed.

Lemma convert_file_indent csv_path w :
  _convert_file fault sniff (with_indent cfg i) csv_path w
  = _convert_file fault sniff cfg csv_path w.
Proof.
  unfold _convert_file.
  apply bind_ext. intros [] w0 _.
  apply bind_ext. intros base w1 _.
  apply bind_ext. intros out w2 _.
  apply bind_ext. intros [] w3 _.
  apply bind_ext. intros tmp w4 _.
  apply bind_ext. intros text w5 _.
  cbn zeta. rewrite !(bind_unfold (try_except _ _)).
  unfold try_except.
  change (reader_kwargs sniff (with_indent cfg i))
    with (reader_kwargs sniff cfg).
  rewrite header_attempt_indent.
  destruct (header_attempt fault cfg text _ tmp w5) as [[[]|e|] w6];
    [done| |done].
  by rewrite positional_attempt_indent.
Qed.

End Indent.

(** X10.  In line mode the indent has no effect: line 118 passes none to the
    encoder.  A conversion configured with any indent runs as the one
    configured without, to the same result and the same files. *)
Theorem indent_ignored_in_line_mode (fault : nat -> bool)
    (sniff : str -> option (ascii * ascii)) (cfg : Config) (i : option Z)
    (csv_path : Path) (w : World) :
  json_lines cfg = true ->
  _convert_file fault sniff (with_indent cfg i) csv_path w
  = _convert_file fault sniff cfg csv_path w.
Proof. intros H. by apply convert_file_indent. Qed.

Lemma indent_ignored_in_line_mode_witness :
  _convert_file no_fault sniff_fails
    (with_indent (default_config true false) (Some 4)) data_csv
    (world_with ab_csv)
  = _convert_file no_fault sniff_fails (default_config true false) data_csv
      (world_with ab_csv).
Proof. apply indent_ignored_in_line_mode. reflexivity. Defined.

(** ** A reader that raises *)

Lemma open_w_run tmp w :
  exists w1, open_w no_fault tmp w = (Ok tt, w1)
    /\ files w1 = <[tmp := []]> (files w) /\ log w1 = log w.
Proof.
  unfold open_w. rewrite bind_unfold, syscall_run. cbn [no_fault].
  rewrite bind_unfold. cbn [get_files set_files]. eauto.
Qed.

(** A body that writes [t] and then raises: the file is closed, the
    exception goes on, [t] stays in the file. *)
Lemma with_open_w_raises tmp (body pre : M unit) (t : str) (e : exn) w :
  appends tmp pre t -> tame (eq tmp) pre ->
  (forall w1, exists w2, pre w1 = (Ok tt, w2) /\ body w1 = (Raise e, w2)) ->
  exists w', with_open_w no_fault tmp body w = (Raise e, w')
    /\ files w' = <[tmp := t]> (files w) /\ log w' = log w.
Proof.
  intros Happ Htame Hbody. unfold with_open_w.
  destruct (open_w_run tmp w) as (w1 & Ho & Hf1 & Hl1).
  rewrite (bind_Ok _ _ _ _ _ Ho).
  destruct (Hbody w1) as (w2 & Hpre & ->).
  unfold close. rewrite syscall_run. cbn [no_fault].
  eexists. split; [done|]. cbn [ticked files log].
  destruct (Htame w1) as [Hin _]. rewrite Hpre in Hin. cbn [snd] in Hin.
  split; [|by rewrite (within_log _ _ _ Hin)].
  apply map_eq. intros p. destruct (decide (p = tmp)) as [->|Hp].
  - rewrite lookup_insert_eq.
    apply (Happ w1 w2 []); [done|]. by rewrite Hf1, lookup_insert_eq.
  - rewrite lookup_insert_ne by done.
    rewrite (within_files _ _ _ p Hin) by congruence.
    by rewrite Hf1, lookup_insert_ne.
Qed.

Lemma write_json_error cfg (rows : list pydict) (e : exn) tmp w :
  exists w', _write_json no_fault cfg (rows, Some e) tmp w = (Raise e, w')
    /\ files w' = <[tmp := partial_document cfg rows]> (files w)
    /\ log w' = log w.
Proof.
  unfold _write_json, partial_document. cbn [fst snd stream_end].
  destruct (json_lines cfg).
  - apply (with_open_w_raises tmp _ (lines_loop no_fault tmp rows)).
    + apply appends_lines_loop.
    + apply tame_lines_loop.
    + intros w1. destruct (returns_lines_loop tmp rows w1) as (w2 & Hw2).
      exists w2. split; [done|]. by rewrite (bind_Ok _ _ _ _ _ Hw2).
  - apply (with_open_w_raises tmp _
             (write no_fault tmp (txt "[") ;;
              array_loop no_fault (indent cfg) tmp true rows)).
    + apply appends_bind; [apply appends_write|apply appends_array_loop].
    + apply tame_bind; [apply tame_write|intros _; apply tame_array_loop].
    + intros w1. destruct (returns_write tmp (txt "[") w1) as (w1' & Hw1).
      destruct (returns_array_loop cfg tmp true rows w1') as (w2 & Hw2).
      exists w2. rewrite !(bind_Ok _ _ _ _ _ Hw1).
      by rewrite !(bind_Ok _ _ _ _ _ Hw2).
Qed.

Section ReaderError.

Variable sniff : str -> option (ascii * ascii).

(** When the reader raises, both attempts end with its exception; the
    positional one is the last to have written. *)
Lemma write_phase_error cfg text tmp d rows e w :
  make_dialect (reader_kwargs sniff cfg (take 4096 text)).1
               (reader_kwargs sniff cfg (take 4096 text)).2 = inr d ->
  csv_reader d text = (rows, Some e) ->
  exists w', write_phase no_fault sniff cfg text tmp w = (Raise e, w')
    /\ files w'
       = <[tmp := partial_document cfg (positional_row <$> rows)]> (files w)
    /\ log w' = log w.
Proof.
  intros Hd Hr. unfold write_phase, try_except. cbn zeta.
  assert (forall w0, positional_attempt no_fault cfg text
            (reader_kwargs sniff cfg (take 4096 text)) tmp w0
          = _write_json no_fault cfg (positional_row <$> rows, Some e)
              tmp w0) as Hpos.
  { intros w0. unfold positional_attempt. rewrite Hd, bind_unfold.
    cbn [lift ret]. by rewrite Hr. }
  unfold header_attempt. rewrite Hd, bind_unfold. cbn [lift ret].
  rewrite Hr, bind_unfold.
  destruct rows as [|hs rest]; cbn [fieldnames_of lift raise ret].
  { rewrite Hpos. apply write_json_error. }
  destruct (header_rejected (Some hs)).
  { cbn [raise]. rewrite Hpos. apply write_json_error. }
  unfold header_rows. cbn [fst snd].
  destruct (write_json_error cfg
              ((fun r => dict_of_items (dict_row hs r))
                 <$> filter (fun r => r <> []) rest) e tmp w)
    as (w1 & -> & Hf1 & Hl1).
  rewrite Hpos.
  destruct (write_json_error cfg (positional_row <$> hs :: rest) e tmp w1)
    as (w2 & -> & Hf2 & Hl2).
  exists w2. split; [done|].
  split; [by rewrite Hf2, Hf1, insert_insert_eq|congruence].
Qed.

(** A conversion whose reader raises: the exception leaves the
    conversion, the output path is as it was, and the temporary file
    stays behind with the records read before the error. *)
Lemma convert_file_reader_error cfg csv_path text out d rows e w :
  files w !! csv_path = Some text ->
  resolve_path cfg csv_path (files w) = Ok out ->
  make_dialect (reader_kwargs sniff cfg (take 4096 text)).1
               (reader_kwargs sniff cfg (take 4096 text)).2 = inr d ->
  csv_reader d text = (rows, Some e) ->
  exists w', _convert_file no_fault sniff cfg csv_path w = (Raise e, w')
    /\ files w'
       = <[tmp_path_of out
           := partial_document cfg (positional_row <$> rows)]> (files w)
    /\ log w' = InfoConverting (rel_of cfg csv_path) :: log w.
Proof.
  intros Ht Hres Hd Hr. rewrite convert_file_unfold, Hres. cbn zeta.
  apply resolve_path_Ok in Hres as [Hn _].
  unfold convert_tail, mkdir. rewrite bind_unfold, syscall_run.
  cbn [no_fault]. unfold tmp_of. rewrite with_suffix_append by done.
  rewrite bind_unfold. cbn [lift_option ret].
  fold (tmp_path_of out).
  unfold open_r. rewrite !bind_unfold, syscall_run. cbn [no_fault].
  rewrite bind_unfold. cbn [get_files ticked logged files].
  rewrite Ht. cbn [lift_option ret].
  set (w0 := ticked (ticked (logged (InfoConverting (rel_of cfg csv_path))
                               w))).
  destruct (write_phase_error cfg text (tmp_path_of out) d rows e w0 Hd Hr)
    as (w' & Hrun & Hf & Hl).
  exists w'. rewrite bind_unfold.
  change (ticked _) with w0. rewrite Hrun. done.
Qed.

End ReaderError.

(** X11.  A cell beyond the field limit.  Let the input hold, after rows of
    plain cells, an unquoted cell of more than 131072 characters.  The
    reader returns the rows before it and raises [csv.Error].  With no
    failing system call the conversion raises that error; the output path
    is as it was; and the temporary file is left behind, holding the
    positional records of the rows before the cell: the conversion
    removes nothing it wrote. *)
Theorem oversized_cell_fails (sniff : str -> option (ascii * ascii))
    (cfg : Config) (csv_path out : Path) (w : World) (d : Dialect)
    (nl : str) (rows : list (list str)) (cell rest : str) :
  dl_delimiter d <> dl_quotechar d ->
  dl_delimiter d <> LF -> dl_delimiter d <> CR ->
  nl = [LF] \/ nl = [CR; LF] \/ nl = [CR] ->
  Forall (plain_row d) rows ->
  Forall (fun c => c <> dl_delimiter d /\ c <> dl_quotechar d
                   /\ c <> LF /\ c <> CR) cell ->
  (field_limit < N.of_nat (length cell))%N ->
  files w !! csv_path = Some (csv_text d nl rows ++ cell ++ rest) ->
  resolve_path cfg csv_path (files w) = Ok out ->
  make_dialect
    (reader_kwargs sniff cfg
       (take 4096 (csv_text d nl rows ++ cell ++ rest))).1
    (reader_kwargs sniff cfg
       (take 4096 (csv_text d nl rows ++ cell ++ rest))).2 = inr d ->
  csv_reader d (csv_text d nl rows ++ cell ++ rest)
  = (rows, Some csv_Error)
  /\ exists w',
       _convert_file no_fault sniff cfg csv_path w = (Raise csv_Error, w')
       /\ files w' !! out = files w !! out
       /\ files w' !! tmp_path_of out
          = Some (partial_document cfg (positional_row <$> rows))
       /\ forall p, p <> tmp_path_of out -> files w' !! p = files w !! p.
Proof.
  intros Hdq Hdl Hdc Hnl Hp Hcell Hlen Ht Hres Hd.
  pose proof (csv_reader_oversized d Hdq Hdl Hdc nl rows cell rest
                Hnl Hp Hcell Hlen) as Hr.
  split; [done|].
  destruct (convert_file_reader_error sniff cfg csv_path _ out d rows
              csv_Error w Ht Hres Hd Hr) as (w' & Hrun & Hf & _).
  exists w'. split; [done|]. rewrite Hf.
  split; [|split].
  - apply lookup_insert_ne, tmp_path_of_neq.
  - apply lookup_insert_eq.
  - intros p Hne. by apply lookup_insert_ne.
Qed.

(** One row, then a line of 131073 letters. *)
Lemma oversized_cell_fails_witness :
  let cell := replicate (N.to_nat 131073) "x"%char in
  let w := world_with (csv_text excel [LF] [[txt "a"; txt "b"]] ++ cell) in
  csv_reader excel (csv_text excel [LF] [[txt "a"; txt "b"]] ++ cell ++ [])
  = ([[txt "a"; txt "b"]], Some csv_Error)
  /\ exists w',
       _convert_file no_fault sniff_fails (default_config false true)
         data_csv w = (Raise csv_Error, w')
       /\ files w' !! data_json = None
       /\ files w' !! [txt "out"; txt "data.json.tmp"]
          = Some (jtxt "[{'col1': 'a', 'col2': 'b'}").
Proof.
  cbn zeta.
  destruct (oversized_cell_fails sniff_fails (default_config false true)
              data_csv data_json
              (world_with (csv_text excel [LF] [[txt "a"; txt "b"]]
                           ++ replicate (N.to_nat 131073) "x"%char))
              excel [LF] [[txt "a"; txt "b"]]
              (replicate (N.to_nat 131073) "x"%char) [])
    as (Hr & w' & Hrun & Hout & Htmp & _).
  - by vm_compute.
  - by vm_compute.
  - by vm_compute.
  - auto.
  - apply (bool_decide_unpack _). by vm_compute.
  - apply Forall_replicate. by vm_compute.
  - rewrite length_replicate, N2Nat.id. reflexivity.
  - rewrite app_nil_r. apply lookup_singleton_eq.
  - reflexivity.
  - reflexivity.
  - split; [exact Hr|]. exists w'. split; [exact Hrun|].
    split.
    + rewrite Hout. apply lookup_singleton_ne. by vm_compute.
    + exact Htmp.
Defined.

(** ** The stability check in general *)

Section WaitBound.

Variable fault : nat -> bool.
Variable env : nat -> gmap Path str -> gmap Path str.
Variable path : Path.
Variable window : Z.
Variable checks : nat.

Lemma stat_or_missing_run w o w' :
  stat_or_missing fault path w = (o, w') ->
  now w' = now w /\ log w' = log w
  /\ ((exists r, o = Ok r) \/ o = Raise OSError).
Proof.
  unfold stat_or_missing, try_except_FileNotFoundError, stat_st_size.
  rewrite !bind_unfold, syscall_run.
  destruct (fault (ops w)); [intros [= <- <-]; cbn; eauto|].
  rewrite !bind_unfold. cbn [get_files ticked files].
  destruct (files w !! path); cbn; intros [= <- <-]; cbn; eauto.
Qed.

Lemma wait_loop_bound n :
  forall last stable w o w',
    wait_loop fault env path window checks n last stable w = (o, w') ->
    exists k : nat,
      (k <= n)%nat /\ now w' = now w + window * Z.of_nat k
      /\ log w' = log w
      /\ (o = Ok true \/ o = Ok false \/ o = Raise OSError)
      /\ (o = Ok true -> (1 <= k /\ checks <= stable + k)%nat).
Proof.
  induction n as [|n IH]; intros last stable w o w' Hrun.
  { cbn in Hrun. injection Hrun as <- <-. exists 0%nat.
    split_and!; try done; [lia|auto]. }
  cbn [wait_loop] in Hrun. rewrite bind_unfold in Hrun.
  unfold sleep at 1 in Hrun.
  set (w1 := {| files := env (ops w) (files w); now := now w + window;
                ops := S (ops w); log := log w;
                seen := env (ops w) (files w) :: seen w |}) in Hrun.
  rewrite bind_unfold in Hrun.
  destruct (stat_or_missing fault path w1) as [[r|e|] w2] eqn:Hs.
  all: apply stat_or_missing_run in Hs as (Hn & Hl & Hr).
  all: assert (now w2 = now w + window) as Hn' by (by rewrite Hn).
  all: assert (log w2 = log w) as Hl' by (by rewrite Hl).
  - destruct r as [size|].
    + destruct (size =? last)%nat.
      * destruct (checks <=? stable + 1)%nat eqn:Hc.
        { injection Hrun as <- <-. exists 1%nat.
          split; [lia|]. split; [lia|]. split; [done|].
          split; [auto|]. intros _. apply Nat.leb_le in Hc. lia. }
        destruct (IH _ _ _ _ _ Hrun)
          as (k & Hk & Hnow & Hlog & Hres & Htrue).
        exists (S k). split; [lia|]. split; [lia|].
        split; [congruence|]. split; [done|].
        intros H. specialize (Htrue H). lia.
      * destruct (IH _ _ _ _ _ Hrun)
          as (k & Hk & Hnow & Hlog & Hres & Htrue).
        exists (S k). split; [lia|]. split; [lia|].
        split; [congruence|]. split; [done|].
        intros H. specialize (Htrue H). lia.
    + injection Hrun as <- <-. exists 1%nat.
      split; [lia|]. split; [lia|]. split; [done|]. split; [auto|]. done.
  - injection Hrun as <- <-. exists 1%nat.
    split; [lia|]. split; [lia|]. split; [done|].
    destruct Hr as [[r Hr]|[= ->]]; [done|]. split; [auto|]. done.
  - by destruct Hr as [[r Hr]|Hr].
Qed.

End WaitBound.


(** ** A file that is not there *)

(** X13.  A job for a file that is not there.  The worker finds no size at the
    first [stat], logs the warning without having slept, and converts
    nothing.  A conversion started none the less raises under any
    failures, having written no file, not even the temporary one; with no
    failing system call and an output path resolved, what it raises is the
    FileNotFoundError of line 84. *)
Theorem missing_input (fault : nat -> bool)
    (env : nat -> gmap Path str -> gmap Path str)
    (sniff : str -> option (ascii * ascii)) (cfg : Config) (path : Path)
    (w : World) :
  files w !! path = None ->
  process_job no_fault env sniff cfg path w
  = (Ok tt, logged (WarningNeverStabilized path) (ticked w))
  /\ (exists e w',
        _convert_file fault sniff cfg path w = (Raise e, w')
        /\ files w' = files w /\ seen w' = seen w)
  /\ (forall out, resolve_path cfg path (files w) = Ok out ->
      exists w',
        _convert_file no_fault sniff cfg path w
        = (Raise FileNotFoundError, w')).
Proof.
  intros Hnone. split; [|split].
  - unfold process_job, try_except, _wait_stable, stat_or_missing,
      try_except_FileNotFoundError, stat_st_size.
    rewrite !bind_unfold, syscall_run. cbn [no_fault].
    rewrite !bind_unfold. cbn [get_files ticked files]. rewrite Hnone.
    done.
  - rewrite convert_file_unfold. cbn zeta.
    destruct (resolve_path cfg path (files w)) as [out|e|] eqn:Hres.
    + apply resolve_path_Ok in Hres as [Hn _].
      unfold convert_tail, mkdir. rewrite bind_unfold, syscall_run.
      destruct (fault _); [by eexists _, _|].
      unfold tmp_of. rewrite with_suffix_append by done.
      rewrite bind_unfold. cbn [lift_option ret].
      unfold open_r. rewrite !bind_unfold, syscall_run.
      destruct (fault _); [by eexists _, _|].
      rewrite bind_unfold. cbn [get_files ticked logged files].
      rewrite Hnone. by eexists _, _.
    + by eexists _, _.
    + by apply resolve_path_ends in Hres.
  - intros out Hres. rewrite convert_file_unfold, Hres. cbn zeta.
    apply resolve_path_Ok in Hres as [Hn _].
    unfold convert_tail, mkdir. rewrite bind_unfold, syscall_run.
    cbn [no_fault]. unfold tmp_of. rewrite with_suffix_append by done.
    rewrite bind_unfold. cbn [lift_option ret].
    unfold open_r. rewrite !bind_unfold, syscall_run. cbn [no_fault].
    rewrite bind_unfold. cbn [get_files ticked logged files].
    rewrite Hnone. by eexists.
Qed.

Lemma missing_input_witness :
  let gone := [txt "watch"; txt "gone.csv"] in
  process_job no_fault (fun _ fs => fs) sniff_fails
    (default_config false false) gone (world_with ab_csv)
  = (Ok tt, logged (WarningNeverStabilized gone)
              (ticked (world_with ab_csv)))
  /\ exists w',
       _convert_file no_fault sniff_fails (default_config false false) gone
         (world_with ab_csv) = (Raise FileNotFoundError, w').
Proof.
  cbn zeta.
  destruct (missing_input no_fault (fun _ fs => fs) sniff_fails
              (default_config false false) [txt "watch"; txt "gone.csv"]
              (world_with ab_csv)) as (H1 & _ & H3); [by vm_compute|].
  split; [exact H1|].
  apply (H3 [txt "out"; txt "gone.json"]). by vm_compute.
Defined.

(** ** Counting in the debouncer *)

Lemma length_filter_alter {A} (P : A -> bool) (f : A -> A) (i : nat)
    (l : list A) (x : A) :
  l !! i = Some x ->
  (length (filter (fun y => P y = true) (alter f i l))
   + (if P x then 1 else 0)
   = length (filter (fun y => P y = true) l)
     + (if P (f x) then 1 else 0))%nat.
Proof.
  revert i. induction l as [|y l IH]; intros [|i] Hi; try done.
  - cbn in Hi. injection Hi as ->. cbn [alter list_alter].
    rewrite !filter_cons.
    destruct (decide (P x = true)) as [E1|E1],
             (decide (P (f x) = true)) as [E2|E2];
      try rewrite E1; try rewrite E2;
      try (apply not_true_is_false in E1; rewrite E1);
      try (apply not_true_is_false in E2; rewrite E2);
      cbn [length]; lia.
  - cbn in Hi. cbn [alter list_alter]. fold (alter f i l).
    specialize (IH i Hi). rewrite !filter_cons.
    destruct (decide (P y = true)); cbn [length]; lia.
Qed.

Lemma alter_missing {A} (f : A -> A) (i : nat) (l : list A) :
  l !! i = None -> alter f i l = l.
Proof.
  revert i. induction l as [|y l IH]; intros [|i] Hi; try done.
  cbn in Hi. cbn [alter list_alter]. fold (alter f i l). by rewrite IH.
Qed.

Lemma length_filter_alter_same {A} (P : A -> bool) (f : A -> A) (i : nat)
    (l : list A) :
  (forall x, P (f x) = P x) ->
  length (filter (fun y => P y = true) (alter f i l))
  = length (filter (fun y => P y = true) l).
Proof.
  intros Hf. destruct (l !! i) as [x|] eqn:Hi.
  - pose proof (length_filter_alter P f i l x Hi) as H.
    rewrite Hf in H. lia.
  - by rewrite alter_missing.
Qed.

Section Counting.

Variable fs_at : Z -> gmap Path str.
Variable path : Path.

Lemma live_cancel t d : live path (cancel t d) = live path d.
Proof. unfold live, cancel. cbn. by apply length_filter_alter_same. Qed.

Lemma live_trigger p d :
  live path (trigger p d)
  = (live path d + if bool_decide (p = path) then 1 else 0)%nat.
Proof.
  rewrite trigger_unfold. unfold live at 1. cbn [threads].
  rewrite filter_app, length_app.
  assert (length (filter (fun tm => alive path tm = true)
                    (match _timers d !! p with
                     | Some t => threads (cancel t d)
                     | None => threads d
                     end)) = live path d) as ->.
  { destruct (_timers d !! p); [apply live_cancel|done]. }
  f_equal. rewrite filter_cons, filter_nil. unfold alive. cbn.
  rewrite andb_true_r. by repeat case_bool_decide.
Qed.

Lemma live_set_phase t ph d tm :
  threads d !! t = Some tm -> tm_phase tm = Waiting ->
  (live path (set_phase t ph d) <= live path d)%nat.
Proof.
  intros Ht Hph. unfold live, set_phase. cbn [threads with_threads].
  pose proof (length_filter_alter (alive path)
         (fun tm => {| tm_path := tm_path tm; tm_deadline := tm_deadline tm;
                       tm_finished := tm_finished tm; tm_phase := ph |})
         t (threads d) tm Ht) as H.
  unfold alive in *. cbn [tm_path tm_phase] in H. rewrite Hph in H.
  destruct (bool_decide (tm_path tm = path)), ph; cbn [andb] in H; lia.
Qed.

Lemma live_wake t d : (live path (wake t d) <= live path d)%nat.
Proof.
  unfold wake. destruct (threads d !! t) as [tm|] eqn:Ht; [|done].
  destruct (tm_phase tm) eqn:Hph; try done.
  destruct (tm_finished tm); [by eapply live_set_phase|].
  destruct (_ <=? _); [by eapply live_set_phase|done].
Qed.

Lemma calls_live_run t d :
  (calls_for path (run fs_at t d) + live path (run fs_at t d)
   = calls_for path d + live path d)%nat.
Proof.
  destruct (run_cases fs_at t d) as [->|(tm & Ht & Hph & ->)]; [done|].
  rewrite (calls_for_cons path (tm_path tm) d) by done.
  unfold live. cbn [threads].
  pose proof (length_filter_alter (alive path)
         (fun tm => {| tm_path := tm_path tm; tm_deadline := tm_deadline tm;
                       tm_finished := true; tm_phase := Exited |})
         t (threads d) tm Ht) as H.
  unfold alive in *. cbn [tm_path tm_phase] in H.
  rewrite Hph, andb_false_r in H.
  destruct (bool_decide (tm_path tm = path)); cbn [andb] in H; lia.
Qed.

Lemma calls_live_step d e :
  (calls_for path (step fs_at d e) + live path (step fs_at d e)
   <= calls_for path d + live path d + notified path [e])%nat.
Proof.
  destruct e as [p| |t|t]; cbn [step notified].
  - rewrite live_trigger, trigger_unfold. unfold calls_for. cbn [calls].
    lia.
  - unfold live, calls_for. cbn. lia.
  - pose proof (live_wake t d).
    destruct (wake_same t d) as (_ & _ & _ & Hc & _).
    unfold calls_for. rewrite Hc. lia.
  - rewrite calls_live_run. lia.
Qed.

Lemma notified_app es1 es2 :
  notified path (es1 ++ es2) = (notified path es1 + notified path es2)%nat.
Proof.
  induction es1 as [|[p| |t|t] es1 IH]; cbn [app notified]; lia.
Qed.

Lemma calls_live_run_events es :
  forall d,
    (calls_for path (run_events fs_at es d)
     + live path (run_events fs_at es d)
     <= calls_for path d + live path d + notified path es)%nat.
Proof.
  induction es as [|e es IH]; intros d; [cbn; lia|].
  change (run_events fs_at (e :: es) d)
    with (run_events fs_at es (step fs_at d e)).
  specialize (IH (step fs_at d e)).
  pose proof (calls_live_step d e).
  change (e :: es) with ([e] ++ es). rewrite notified_app. lia.
Qed.

(** Every job was put in the queue by a call of the action. *)
Lemma jobs_calls_step d e :
  (jobs_for path d <= calls_for path d)%nat ->
  (jobs_for path (step fs_at d e) <= calls_for path (step fs_at d e))%nat.
Proof.
  intros H. destruct e as [p| |t|t]; cbn [step].
  - rewrite trigger_unfold. done.
  - done.
  - destruct (wake_same t d) as (_ & _ & _ & Hc & Hq).
    unfold jobs_for, calls_for. by rewrite Hc, Hq.
  - destruct (run_cases fs_at t d) as [->|(tm & Ht & Hph & ->)]; [done|].
    rewrite (calls_for_cons path (tm_path tm) d) by done.
    unfold jobs_for in *. cbn [work_q]. rewrite jobs_enqueue.
    destruct (bool_decide (tm_path tm = path)), (accepts _ _); cbn; lia.
Qed.

Lemma jobs_calls_run_events es :
  forall d,
    (jobs_for path d <= calls_for path d)%nat ->
    (jobs_for path (run_events fs_at es d)
     <= calls_for path (run_events fs_at es d))%nat.
Proof.
  induction es as [|e es IH]; intros d H; [done|].
  apply (IH (step fs_at d e)), jobs_calls_step, H.
Qed.

End Counting.

Lemma accepted_enqueue fs_at t wq q :
  Forall (accepted fs_at) wq ->
  Forall (accepted fs_at) (enqueue (fs_at t) wq q).
Proof.
  intros H. unfold enqueue.
  destruct (is_csv q) eqn:E1, (is_probably_temp q) eqn:E2,
    (exists_ (fs_at t) q) eqn:E3; cbn [negb orb]; try done.
  apply Forall_app. split; [done|]. apply Forall_singleton.
  exists q, t. split; [done|]. unfold accepts. by rewrite E1, E2, E3.
Qed.

Lemma accepted_step fs_at d e :
  Forall (accepted fs_at) (work_q d) ->
  Forall (accepted fs_at) (work_q (step fs_at d e)).
Proof.
  intros H. destruct e as [p| |t|t]; cbn [step].
  - by rewrite trigger_unfold.
  - done.
  - destruct (wake_same t d) as (_ & _ & _ & _ & ->). done.
  - destruct (run_cases fs_at t d) as [->|(tm & Ht & Hph & ->)]; [done|].
    cbn [work_q]. by apply accepted_enqueue.
Qed.

Lemma accepted_run_events fs_at es :
  forall d,
    Forall (accepted fs_at) (work_q d) ->
    Forall (accepted fs_at) (work_q (run_events fs_at es d)).
Proof.
  induction es as [|e es IH]; intros d H; [done|].
  apply (IH (step fs_at d e)), accepted_step, H.
Qed.

(** X14.  The debouncer never multiplies events.  After any notifications and
    any steps of the timer threads, in any order, the action has been
    called for a path at most as often as the path was notified, and the
    queue holds at most one job for each of these calls; and whatever is
    in the queue passed the test of [enqueue]. *)
Theorem debouncer_never_multiplies (fs_at : Z -> gmap Path str)
    (delay_sec : Z) (es : list Event) (path : Path) :
  let d := run_events fs_at es (new_debouncer delay_sec) in
  (jobs_for path d <= calls_for path d)%nat
  /\ (calls_for path d + live path d <= notified path es)%nat
  /\ Forall (accepted fs_at) (work_q d).
Proof.
  cbv zeta. split; [|split].
  - by apply jobs_calls_run_events.
  - pose proof (calls_live_run_events fs_at path es
                  (new_debouncer delay_sec)) as H.
    by cbn in H.
  - by apply accepted_run_events.
Qed.

(** ** From the observer to the queue *)

Lemma watch_step_events fs_at d s :
  watch_step fs_at d s = run_events fs_at (events_of s) d.
Proof.
  destruct s as [event| |t|t]; try done.
  cbn [watch_step events_of]. unfold _maybe_handle.
  destruct (is_directory event); [done|].
  cbn [orb]. by destruct (negb (is_csv (src_path event))).
Qed.

Lemma watch_run_events fs_at steps :
  forall d,
    watch_run fs_at steps d = run_events fs_at (steps ≫= events_of) d.
Proof.
  induction steps as [|s steps IH]; intros d; [done|].
  rewrite bind_cons. unfold run_events. rewrite foldl_app.
  fold (run_events fs_at (events_of s) d).
  rewrite <- watch_step_events. apply IH.
Qed.

Lemma notified_dispatched path steps :
  (notified path (steps ≫= events_of) <= dispatched path steps)%nat.
Proof.
  unfold dispatched.
  induction steps as [|s steps IH]; [done|].
  rewrite bind_cons, notified_app, filter_cons.
  destruct s as [event| |t|t]; cbn [events_of notified];
    try (rewrite decide_False by done; lia).
  destruct (is_directory event); cbn [orb negb andb].
  { rewrite decide_False by done. cbn. lia. }
  destruct (is_csv (src_path event)); cbn [negb notified];
    case_bool_decide; try rewrite decide_True by done;
    try rewrite decide_False by done; cbn [length]; lia.
Qed.

(** The handler arms timers for paths with the extension of a CSV file
    only. *)
Lemma timers_csv_step fs_at d s :
  (forall p, is_Some (_timers d !! p) -> is_csv p = true) ->
  forall p, is_Some (_timers (watch_step fs_at d s) !! p) ->
            is_csv p = true.
Proof.
  intros H p. destruct s as [event| |t|t]; cbn [watch_step].
  - unfold _maybe_handle. destruct (is_directory event); [apply H|].
    destruct (is_csv (src_path event)) eqn:E; cbn [negb]; [|apply H].
    rewrite trigger_unfold. cbn [_timers].
    destruct (decide (src_path event = p)) as [<-|Hne]; [done|].
    rewrite lookup_insert_ne by done. apply H.
  - apply H.
  - destruct (wake_same t d) as (-> & _). apply H.
  - destruct (run_cases fs_at t d) as [->|(tm & Ht & Hph & ->)]; [apply H|].
    cbn [_timers]. intros [i Hi]. apply lookup_delete_Some in Hi as [_ Hi].
    apply H. eauto.
Qed.

Lemma timers_csv_run fs_at steps :
  forall d,
    (forall p, is_Some (_timers d !! p) -> is_csv p = true) ->
    forall p, is_Some (_timers (watch_run fs_at steps d) !! p) ->
              is_csv p = true.
Proof.
  induction steps as [|s steps IH]; intros d H; [done|].
  apply (IH (watch_step fs_at d s)), timers_csv_step, H.
Qed.

Lemma jobs_for_accepted fs_at path d :
  Forall (accepted fs_at) (work_q d) ->
  is_csv path = false \/ is_probably_temp path = true ->
  jobs_for path d = 0%nat.
Proof.
  intros H Hp. unfold jobs_for.
  induction (work_q d) as [|o wq IH]; [done|].
  apply Forall_cons in H as [(p & t & -> & Ha) H].
  rewrite filter_cons. destruct (decide (Some p = Some path)) as [[= ->]|];
    [|by apply IH].
  exfalso. unfold accepts in Ha.
  destruct Hp as [Hp|Hp]; rewrite Hp in Ha; [done|].
  by destruct (is_csv path).
Qed.

(** X15.  From the observer to the queue.  Whatever events the observer hands
    to the handler and however the timer threads run: a timer is pending
    only for a path with the extension of a CSV file; a path has at most
    as many jobs in the queue as events for it, directories left out,
    came in; whatever is in the queue passed the test of [enqueue] when
    its timer ran; and a path without that extension, or with a temp-like
    name, never has a job. *)
Theorem watch_pipeline (fs_at : Z -> gmap Path str) (delay_sec : Z)
    (steps : list WatchStep) :
  let d := watch_run fs_at steps (new_debouncer delay_sec) in
  (forall p, is_Some (_timers d !! p) -> is_csv p = true)
  /\ (forall path,
        (jobs_for path d <= calls_for path d)%nat
        /\ (calls_for path d <= dispatched path steps)%nat)
  /\ Forall (accepted fs_at) (work_q d)
  /\ (forall path,
        is_csv path = false \/ is_probably_temp path = true ->
        jobs_for path d = 0%nat).
Proof.
  cbv zeta.
  assert (Forall (accepted fs_at)
            (work_q (watch_run fs_at steps (new_debouncer delay_sec))))
    as Hacc.
  { rewrite watch_run_events. by apply accepted_run_events. }
  split; [|split; [|split]].
  - apply timers_csv_run. intros p [i Hi]. cbn in Hi. by rewrite lookup_empty in Hi.
  - intros path. rewrite watch_run_events. split.
    + by apply jobs_calls_run_events.
    + pose proof (calls_live_run_events fs_at path (steps ≫= events_of)
                    (new_debouncer delay_sec)) as H.
      pose proof (notified_dispatched path steps).
      cbn in H. lia.
  - done.
  - intros path. by apply (jobs_for_accepted fs_at).
Qed.

(** ** No timer fires early *)

Section Early.

Variable fs_at : Z -> gmap Path str.
Variable i : nat.
Variable path : Path.
Variable deadline : Z.

Local Abbreviation due := (due i path deadline).

Lemma due_alter f d :
  (forall tm, tm_path (f tm) = tm_path tm
              /\ tm_deadline (f tm) = tm_deadline tm
              /\ (tm_phase (f tm) = Running -> tm_phase tm = Running)) ->
  forall t ts,
    (exists tm, threads d !! i = Some tm /\ tm_path tm = path
       /\ tm_deadline tm = deadline
       /\ (tm_phase tm = Running -> deadline <= clock d)) ->
    ts = alter f t (threads d) ->
    exists tm, ts !! i = Some tm /\ tm_path tm = path
      /\ tm_deadline tm = deadline
      /\ (tm_phase tm = Running -> deadline <= clock d).
Proof.
  intros Hf t ts (tm & Hi & Hp & Hd & Hr) ->.
  destruct (decide (t = i)) as [->|Hne].
  - exists (f tm). rewrite list_lookup_alter_eq, Hi.
    destruct (Hf tm) as (-> & -> & Hph). split; [done|].
    split; [done|]. split; [done|]. auto.
  - exists tm. by rewrite list_lookup_alter_ne.
Qed.

Lemma due_step d e : due d -> due (step fs_at d e).
Proof.
  intros Hdue. destruct e as [p| |t|t]; cbn [step].
  - destruct Hdue as (tm & Hi & Hrest).
    assert (i < length (threads d))%nat as Hlt by (by eapply lookup_lt_Some).
    unfold due. rewrite trigger_threads_old by done.
    rewrite trigger_unfold. cbn [clock].
    destruct (_timers d !! p) as [t|]; [|by exists tm].
    unfold cancel. cbn [threads with_threads].
    eapply (due_alter _ d); [|by exists tm|done]. intros tm0. cbn. auto.
  - destruct Hdue as (tm & Hi & Hp & Hd & Hr). exists tm.
    cbn. split_and!; try done. intros H. specialize (Hr H). lia.
  - destruct Hdue as (tm & Hi & Hp & Hd & Hr).
    unfold wake. destruct (threads d !! t) as [tm0|] eqn:Ht;
      [|by exists tm].
    destruct (tm_phase tm0) eqn:Hph; try by exists tm.
    destruct (tm_finished tm0).
    { unfold set_phase, due. cbn [threads with_threads clock].
      eapply (due_alter _ d); [|by exists tm|done].
      intros tm1. cbn. split_and!; done. }
    destruct (tm_deadline tm0 <=? clock d) eqn:Hle; [|by exists tm].
    apply Z.leb_le in Hle.
    unfold set_phase, due. cbn [threads with_threads clock].
    destruct (decide (t = i)) as [->|Hne].
    + rewrite list_lookup_alter_eq, Hi. cbn. eexists. split; [done|].
      cbn. split_and!; try done. intros _.
      rewrite Hi in Ht. injection Ht as <-. lia.
    + rewrite list_lookup_alter_ne by done. by exists tm.
  - destruct (run_cases fs_at t d) as [->|(tm0 & Ht & Hph & ->)]; [done|].
    unfold due. cbn [threads clock].
    eapply (due_alter _ d); [|exact Hdue|done].
    intros tm1. cbn. split_and!; done.
Qed.

Lemma due_run_events es : forall d, due d -> due (run_events fs_at es d).
Proof.
  induction es as [|e es IH]; intros d H; [done|].
  apply (IH (step fs_at d e)), due_step, H.
Qed.

End Early.

(** X16.  No timer fires early.  The timer a notification starts calls the
    action, if it does, no sooner than the delay after that notification,
    whatever happens in between; and nothing but the step of a timer
    thread that has seen its instant come calls the action at all. *)
Theorem timer_never_early (fs_at : Z -> gmap Path str) (delay_sec : Z)
    (path : Path) (es1 es2 : list Event) :
  let d1 := run_events fs_at es1 (new_debouncer delay_sec) in
  let i := length (threads d1) in
  let d2 := run_events fs_at es2 (trigger path d1) in
  (exists tm, threads d2 !! i = Some tm /\ tm_path tm = path
              /\ tm_deadline tm = clock d1 + delay_sec)
  /\ (calls (run fs_at i d2) <> calls d2 ->
      clock d1 + delay_sec <= clock d2
      /\ calls (run fs_at i d2) = path :: calls d2)
  /\ (forall e, calls (step fs_at d2 e) <> calls d2 ->
      exists t tm, e = Run t /\ threads d2 !! t = Some tm
                   /\ tm_phase tm = Running
                   /\ calls (step fs_at d2 e) = tm_path tm :: calls d2).
Proof.
  cbv zeta.
  set (d1 := run_events fs_at es1 (new_debouncer delay_sec)).
  assert (due (length (threads d1)) path (clock d1 + delay_sec)
              (run_events fs_at es2 (trigger path d1)))
    as (tm & Hi & Hp & Hd & Hr).
  { apply due_run_events. exists {| tm_path := path;
      tm_deadline := clock d1 + delay d1; tm_finished := false;
      tm_phase := Waiting |}.
    rewrite trigger_threads_new.
    assert (delay d1 = delay_sec) as -> by apply delay_run_events.
    cbn. split_and!; done. }
  split; [by exists tm|]. split.
  - destruct (run_cases fs_at (length (threads d1))
                (run_events fs_at es2 (trigger path d1)))
      as [->|(tm0 & Ht & Hph & ->)]; [done|].
    intros _. rewrite Hi in Ht. injection Ht as <-. cbn [calls].
    split; [auto|by rewrite Hp].
  - intros e He. destruct e as [p| |t|t]; cbn [step] in He.
    + rewrite trigger_unfold in He. done.
    + done.
    + destruct (wake_same t (run_events fs_at es2 (trigger path d1)))
        as (_ & _ & _ & Hc & _). done.
    + destruct (run_cases fs_at t
                  (run_events fs_at es2 (trigger path d1)))
        as [Heq|(tm0 & Ht & Hph & Heq)].
      { by rewrite Heq in He. }
      exists t, tm0. split; [done|]. split; [done|]. split; [done|].
      cbn [step]. by rewrite Heq.
Qed.

(** ** The polling watcher and the files at the start *)

Lemma filter_ext_elem {A} (P1 P2 : A -> Prop)
    `{forall x, Decision (P1 x)} `{forall x, Decision (P2 x)} (l : list A) :
  (forall x, x ∈ l -> P1 x <-> P2 x) -> filter P1 l = filter P2 l.
Proof.
  induction l as [|x l IH]; intros Hext; [done|].
  rewrite !filter_cons.
  assert (P1 x <-> P2 x) as Hx by (apply Hext; left).
  rewrite IH by (intros y Hy; apply Hext; by right).
  destruct (decide (P1 x)), (decide (P2 x)); tauto || done.
Qed.

Lemma enqueue_accepts fs wq p :
  enqueue fs wq p = wq ++ if accepts fs p then [Some p] else [].
Proof.
  unfold enqueue, accepts.
  destruct (is_csv p), (is_probably_temp p), (exists_ fs p); cbn;
    by rewrite ?app_nil_r.
Qed.

Section Polling.

Variable st_mtime : Path -> option Z.
Variable fs : gmap Path str.

Lemma poll_path_unfold self p :
  poll_path st_mtime fs self p
  = if newer (_seen self) st_mtime p
    then {| _seen := <[p := default 0 (st_mtime p)]> (_seen self);
            conv_work_q := enqueue fs (conv_work_q self) p |}
    else self.
Proof.
  unfold poll_path, newer. destruct (st_mtime p); [|done].
  by destruct (_seen self !! p).
Qed.

Lemma poll_path_seen_other self p q :
  q <> p -> _seen (poll_path st_mtime fs self p) !! q = _seen self !! q.
Proof.
  intros Hq. rewrite poll_path_unfold.
  destruct (newer _ _ _); [|done]. cbn. by rewrite lookup_insert_ne.
Qed.

(** What the watcher remembers never goes back. *)
Lemma poll_path_seen_mono self p q t :
  _seen self !! q = Some t ->
  exists t', _seen (poll_path st_mtime fs self p) !! q = Some t' /\ t <= t'.
Proof.
  intros Hq. destruct (decide (q = p)) as [->|Hne].
  - unfold poll_path. destruct (st_mtime p) as [mtime|];
      [|exists t; split; [done|lia]].
    rewrite Hq. destruct (t <? mtime) eqn:E.
    + apply Z.ltb_lt in E. exists mtime. cbn.
      rewrite lookup_insert_eq. split; [done|lia].
    + exists t. split; [done|lia].
  - rewrite poll_path_seen_other by done. exists t. split; [done|lia].
Qed.

Lemma poll_paths_seen_mono l :
  forall self q t,
    _seen self !! q = Some t ->
    exists t', _seen (foldl (poll_path st_mtime fs) self l) !! q = Some t'
               /\ t <= t'.
Proof.
  induction l as [|p l IH]; intros self q t Hq.
  - exists t. split; [done|lia].
  - cbn [foldl].
    destruct (poll_path_seen_mono self p q t Hq) as (t1 & H1 & Hle1).
    destruct (IH _ q t1 H1) as (t2 & H2 & Hle2).
    exists t2. split; [done|lia].
Qed.

Lemma not_newer_mono (seen seen' : gmap Path Z) q :
  (forall t, seen !! q = Some t -> exists t', seen' !! q = Some t' /\ t <= t') ->
  newer seen st_mtime q = false -> newer seen' st_mtime q = false.
Proof.
  unfold newer. intros Hmono. destruct (st_mtime q) as [mtime|]; [|done].
  destruct (seen !! q) as [t|]; [|done].
  destruct (Hmono t eq_refl) as (t' & -> & Hle).
  rewrite !Z.ltb_ge. lia.
Qed.

Lemma poll_path_settled self p :
  newer (_seen (poll_path st_mtime fs self p)) st_mtime p = false.
Proof.
  rewrite poll_path_unfold. destruct (newer (_seen self) st_mtime p) eqn:E;
    [|done].
  unfold newer in *. cbn. destruct (st_mtime p) as [mtime|]; [|done].
  rewrite lookup_insert_eq. cbn. apply Z.ltb_irrefl.
Qed.

(** After the paths of a scan were visited, nothing about them is new. *)
Lemma poll_paths_settled l :
  forall self q,
    q ∈ l \/ newer (_seen self) st_mtime q = false ->
    newer (_seen (foldl (poll_path st_mtime fs) self l)) st_mtime q = false.
Proof.
  induction l as [|p l IH]; intros self q Hq.
  - destruct Hq as [Hq|Hq]; [by apply elem_of_nil in Hq|done].
  - cbn [foldl]. apply IH.
    destruct Hq as [[->|Hq]%elem_of_cons|Hq].
    + right. apply poll_path_settled.
    + by left.
    + right. eapply not_newer_mono; [|exact Hq].
      intros t. apply poll_path_seen_mono.
Qed.

Lemma poll_paths_noop l :
  forall self,
    (forall q, q ∈ l -> newer (_seen self) st_mtime q = false) ->
    foldl (poll_path st_mtime fs) self l = self.
Proof.
  induction l as [|p l IH]; intros self H; [done|].
  cbn [foldl]. rewrite poll_path_unfold, H by left.
  apply IH. intros q Hq. apply H. by right.
Qed.

(** The queue after the visits of distinct paths. *)
Lemma poll_paths_queue l :
  NoDup l ->
  forall self,
    conv_work_q (foldl (poll_path st_mtime fs) self l)
    = conv_work_q self
      ++ (Some <$> filter (fun p => newer (_seen self) st_mtime p = true
                                    /\ accepts fs p = true) l).
Proof.
  induction 1 as [|p l Hp Hnd IH]; intros self.
  { by rewrite app_nil_r. }
  cbn [foldl]. rewrite IH.
  rewrite (filter_ext_elem
             (fun q => newer (_seen (poll_path st_mtime fs self p))
                         st_mtime q = true /\ accepts fs q = true)
             (fun q => newer (_seen self) st_mtime q = true
                       /\ accepts fs q = true) l).
  2:{ intros q Hq. unfold newer.
      rewrite poll_path_seen_other by (intros ->; done). done. }
  rewrite filter_cons, poll_path_unfold.
  destruct (newer (_seen self) st_mtime p) eqn:E.
  - cbn [conv_work_q]. rewrite enqueue_accepts.
    destruct (accepts fs p) eqn:Ea.
    + rewrite decide_True by done. by rewrite <- app_assoc.
    + rewrite decide_False by (intros [_ ?]; done).
      by rewrite app_nil_r.
  - rewrite decide_False by (intros [? _]; done). done.
Qed.

End Polling.

Lemma emit_enqueue fs wq p : emit fs wq p = enqueue fs wq p.
Proof.
  unfold emit, enqueue.
  destruct (exists_ fs p), (is_csv p), (is_probably_temp p); done.
Qed.

Lemma process_existing_queue fs it :
  forall wq,
    process_existing_ fs it wq
    = wq ++ (Some <$> filter (fun p => accepts fs p = true) it).
Proof.
  unfold process_existing_.
  induction it as [|p it IH]; intros wq; [by rewrite app_nil_r|].
  cbn [foldl]. rewrite IH, emit_enqueue, enqueue_accepts, filter_cons.
  destruct (accepts fs p).
  - rewrite decide_True by done. by rewrite <- app_assoc.
  - rewrite decide_False by done. by rewrite app_nil_r.
Qed.


(** X18.  One pass of the polling loop, for any listing.  What the watcher
    remembers never goes back.  A second pass over the same listing with
    the same modification times changes nothing: no file is queued twice
    for one modification. *)
Theorem poll_pass_settles (st_mtime : Path -> option Z)
    (fs : gmap Path str) (it : list Path) (self : PollingWatcher) :
  let self' := poll_pass st_mtime fs it self in
  (forall p t, _seen self !! p = Some t ->
               exists t', _seen self' !! p = Some t' /\ t <= t')
  /\ (forall p, p ∈ it -> is_probably_temp p = false ->
                newer (_seen self') st_mtime p = false)
  /\ poll_pass st_mtime fs it self' = self'.
Proof.
  cbv zeta. unfold poll_pass. split; [|split].
  - intros p t. apply poll_paths_seen_mono.
  - intros p Hin Ht. apply poll_paths_settled. left.
    unfold _scan_csvs. by apply list_elem_of_filter.
  - apply poll_paths_noop. intros q Hq. apply poll_paths_settled. by left.
Qed.

(** X19.  One pass over a listing without repetitions queues, in the order of
    the listing, the paths that are not temp-like, are new or modified
    since the watcher last saw them, and pass the test of [enqueue].  So
    the first pass after the start queues every such file that exists,
    whether or not the files present at the start were queued before it:
    with [process_existing] on they are in the queue twice. *)
Theorem poll_pass_queue (st_mtime : Path -> option Z) (fs : gmap Path str)
    (it : list Path) (self : PollingWatcher) :
  NoDup it ->
  conv_work_q (poll_pass st_mtime fs it self)
  = conv_work_q self
    ++ (Some <$> filter (fun p => newer (_seen self) st_mtime p = true
                                  /\ accepts fs p = true) it)
  /\ ((forall p, p ∈ it -> is_Some (st_mtime p)) ->
      forall work_q,
        conv_work_q
          (poll_pass st_mtime fs it
             {| _seen := ∅;
                conv_work_q := process_existing_ fs it work_q |})
        = work_q
          ++ (Some <$> filter (fun p => accepts fs p = true) it)
          ++ (Some <$> filter (fun p => accepts fs p = true) it)).
Proof.
  intros Hnd.
  assert (forall self0,
    conv_work_q (poll_pass st_mtime fs it self0)
    = conv_work_q self0
      ++ (Some <$> filter (fun p => newer (_seen self0) st_mtime p = true
                                    /\ accepts fs p = true) it)) as Hq.
  { intros self0. unfold poll_pass, _scan_csvs.
    rewrite poll_paths_queue by by apply NoDup_filter.
    rewrite list_filter_filter. do 2 f_equal.
    apply list_filter_iff. intros p. split; [tauto|].
    intros [Hn Ha]. split; [done|]. unfold accepts in Ha.
    destruct (is_probably_temp p); [|done].
    by rewrite andb_false_r in Ha. }
  split; [apply Hq|].
  intros Hm wq. rewrite Hq. cbn [_seen conv_work_q].
  rewrite process_existing_queue, <- app_assoc. do 3 f_equal.
  apply filter_ext_elem. intros p Hp. unfold newer.
  destruct (Hm p Hp) as [t ->]. rewrite lookup_empty. tauto.
Qed.

(** Two files at the start, one of them temp-like: the first pass queues
    the other one, after [process_existing] has queued it already. *)
Lemma poll_pass_queue_witness :
  let lock := [txt "watch"; txt "~$data.csv"] in
  let fs : gmap Path str := {[ data_csv := ab_csv; lock := [] ]} in
  let it := [data_csv; lock] in
  conv_work_q
    (poll_pass (fun _ => Some 5) fs it
       {| _seen := ∅; conv_work_q := process_existing_ fs it [] |})
  = [Some data_csv; Some data_csv].
Proof.
  cbn zeta.
  destruct (poll_pass_queue (fun _ => Some 5)
              ({[ data_csv := ab_csv;
                  [txt "watch"; txt "~$data.csv"] := [] ]} : gmap Path str)
              [data_csv; [txt "watch"; txt "~$data.csv"]]
              {| _seen := ∅; conv_work_q := [] |}) as [_ H].
  - apply (bool_decide_unpack _). by vm_compute.
  - rewrite H by eauto. by vm_compute.
Defined.

(** ** Converting again *)

Lemma resolve_path_overwrite (cfg : Config) (csv_path : Path)
    (fs fs' : gmap Path str) :
  overwrite cfg = true ->
  resolve_path cfg csv_path fs = resolve_path cfg csv_path fs'.
Proof.
  intros Ho. unfold resolve_path. rewrite Ho.
  by destruct (with_suffix _ _).
Qed.

(** X20.  Converting again with overwriting on.  Let the input have the
    extension of a CSV file and be read without an error, and let no
    system call fail.  Two conversions in a row both return, write the
    same output path, and the second leaves the file system exactly as
    the first left it: the output holds the document of the input, no
    temporary file stays behind, and no other file has changed. *)
Theorem overwrite_idempotent (sniff : str -> option (ascii * ascii))
    (cfg : Config) (csv_path : Path) (text : str) (d : Dialect)
    (w : World) :
  overwrite cfg = true ->
  is_csv csv_path = true ->
  files w !! csv_path = Some text ->
  make_dialect (reader_kwargs sniff cfg (take 4096 text)).1
               (reader_kwargs sniff cfg (take 4096 text)).2 = inr d ->
  (csv_reader d text).2 = None ->
  exists out w1 w2,
    _convert_file no_fault sniff cfg csv_path w = (Ok tt, w1)
    /\ _convert_file no_fault sniff cfg csv_path w1 = (Ok tt, w2)
    /\ files w2 = files w1
    /\ files w1 !! out = Some (document cfg (records d text))
    /\ files w1 !! tmp_path_of out = None
    /\ forall p, p <> out -> p <> tmp_path_of out ->
                 files w1 !! p = files w !! p.
Proof.
  intros Ho Hcsv Ht Hd Hend.
  destruct (resolve_path_csv cfg csv_path (files w) Hcsv) as (out & Hres).
  pose proof (resolve_path_shape _ _ _ _ Hres)
    as (nm & e & Hnm & He & Hdot & Hl & Hout).
  assert (name out <> []) as Hno
    by (rewrite Hout, name_snoc; by destruct nm).
  assert (csv_path <> out) as Hne1.
  { intros ->. rewrite Hout, is_csv_false_dot in Hcsv; done. }
  assert (csv_path <> tmp_path_of out) as Hne2.
  { intros ->. by rewrite is_csv_tmp_path_of in Hcsv. }
  destruct (convert_file_returns sniff cfg csv_path text out d w
              Ht Hres Hd Hend) as (w1 & Hrun1 & Hf1 & _).
  assert (files w1 !! csv_path = Some text) as Ht1.
  { by rewrite Hf1, lookup_insert_ne, lookup_delete_ne. }
  assert (resolve_path cfg csv_path (files w1) = Ok out) as Hres1.
  { by rewrite (resolve_path_overwrite cfg csv_path _ (files w) Ho). }
  destruct (convert_file_returns sniff cfg csv_path text out d w1
              Ht1 Hres1 Hd Hend) as (w2 & Hrun2 & Hf2 & _).
  exists out, w1, w2. split; [done|]. split; [done|].
  pose proof (tmp_path_of_neq out) as Hto.
  split; [|split; [|split]].
  - rewrite Hf2, Hf1. apply map_eq. intros p.
    destruct (decide (p = out)) as [->|Hp1].
    { by rewrite !lookup_insert_eq. }
    rewrite !lookup_insert_ne by done.
    destruct (decide (p = tmp_path_of out)) as [->|Hp2].
    { by rewrite !lookup_delete_eq. }
    by rewrite lookup_delete_ne, lookup_insert_ne by done.
  - by rewrite Hf1, lookup_insert_eq.
  - by rewrite Hf1, lookup_insert_ne, lookup_delete_eq.
  - intros p Hp1 Hp2. by rewrite Hf1, lookup_insert_ne, lookup_delete_ne.
Qed.

Lemma overwrite_idempotent_witness :
  exists w1 w2,
    _convert_file no_fault sniff_fails (default_config false true) data_csv
      (world_with ab_csv) = (Ok tt, w1)
    /\ _convert_file no_fault sniff_fails (default_config false true)
         data_csv w1 = (Ok tt, w2)
    /\ files w2 = files w1.
Proof.
  destruct (overwrite_idempotent sniff_fails (default_config false true)
              data_csv ab_csv excel (world_with ab_csv))
    as (out & w1 & w2 & H1 & H2 & H3 & _).
  - reflexivity.
  - by vm_compute.
  - by vm_compute.
  - by vm_compute.
  - by vm_compute.
  - exists w1, w2. split; [exact H1|]. split; [exact H2|exact H3].
Defined.

(** ** The header test *)

Lemma lstrip_nil (s : str) :
  lstrip s = [] <-> Forall (fun c => isspace c = true) s.
Proof.
  induction s as [|c s IH]; cbn [lstrip].
  - split; [intros _; constructor|done].
  - destruct (isspace c) eqn:E.
    + rewrite IH. split; [by constructor|].
      by intros [_ H]%Forall_cons.
    + split; [done|]. intros [H _]%Forall_cons. congruence.
Qed.

Lemma lstrip_cases (s : str) :
  lstrip s = [] \/ exists c t, lstrip s = c :: t /\ isspace c = false.
Proof.
  induction s as [|c s IH]; cbn [lstrip]; [by left|].
  destruct (isspace c) eqn:E; [done|]. right. by exists c, s.
Qed.

Lemma strip_nil (s : str) :
  strip s = [] <-> Forall (fun c => isspace c = true) s.
Proof.
  unfold strip. rewrite <- lstrip_nil. split.
  - intros H. apply (f_equal reverse) in H.
    rewrite reverse_involutive in H. cbn in H.
    apply lstrip_nil in H. apply Forall_reverse in H.
    rewrite reverse_involutive in H.
    destruct (lstrip_cases s) as [|(c & t & Hc & Hs)]; [done|].
    rewrite Hc in H. apply Forall_cons in H as [H _]. congruence.
  - intros ->. done.
Qed.

(** X21.  The header test of line 107 accepts exactly a first row that
    has a cell and in which every cell holds a character that is not
    white space; a missing first row, an empty one, and one with a cell
    of white space only are rejected. *)
Theorem header_accepted_iff (fieldnames : option (list str)) :
  header_rejected fieldnames = false
  <-> exists hs, fieldnames = Some hs /\ hs <> []
        /\ Forall (fun h => exists c, c ∈ h /\ isspace c = false) hs.
Proof.
  assert (forall h : str,
            strip h <> [] <-> exists c, c ∈ h /\ isspace c = false) as Hcell.
  { intros h. rewrite strip_nil. split.
    - intros Hn. apply not_Forall_Exists in Hn; [|intros c; apply _].
      apply Exists_exists in Hn as (c & Hc & Hs).
      exists c. split; [done|]. cbn in Hs. by destruct (isspace c).
    - intros (c & Hc & Hs) Hall.
      rewrite Forall_forall in Hall. rewrite (Hall c Hc) in Hs. done. }
  unfold header_rejected. destruct fieldnames as [[|h hs]|].
  - split; [done|]. by intros (? & [= <-] & ? & _).
  - split.
    + intros Hrej. exists (h :: hs). split; [done|]. split; [done|].
      apply Forall_forall. intros x Hx. apply Hcell. intros Hs.
      apply not_true_iff_false in Hrej. apply Hrej.
      apply existsb_exists. exists x.
      split; [by apply list_elem_of_In|]. by apply bool_decide_eq_true.
    + intros (hs' & [= <-] & _ & Hall).
      apply not_true_iff_false. intros (x & Hx & Hs)%existsb_exists.
      apply list_elem_of_In in Hx. apply bool_decide_eq_true in Hs.
      rewrite Forall_forall in Hall. by apply (proj2 (Hcell x) (Hall x Hx)).
  - split; [done|]. by intros (? & [=] & _).
Qed.
